(** * site-cats: the generation pipeline, embedded and verified

    A shallow embedding of the parts of [scripts/create-site.js] and
    [scripts/lib/internalLinker.js] (with the [Semaphore] of the OpenAI client)
    that decide what is generated, in what order, and how documents are linked;
    and, further down, of the batch loop, [composeMdxBody], [parseArgs], the
    reply extraction of the OpenAI client, the mock client, [slugifyString]
    and the items of the RSS endpoint.

    Conventions.
    - A JavaScript string is the list of its UTF-16 code units ([jsstring]).
    - A JavaScript integer is a [Z]; [-1] is kept as the "not found" result.
    - [async] functions that only [await] file or backend calls are written in
      explicit state-passing style over the file store or the backend.
    - The link pass is defined over any implementation of the gray-matter
      package, a call of which may throw ([None]), and over any collation
      of the host, which [localeCompare] consults.
    - Definitions come first: one module per source unit, then a reference
      model of the gray-matter package (not part of the repository) and a
      small document set; the theorems follow. *)

From Stdlib Require Import Ascii String.
From Stdlib Require Import ZArith NArith QArith Lia Bool Arith.
From Stdlib Require Import Permutation Sorted DecimalString.
From Stdlib Require Import List.
Import ListNotations.
Close Scope Q_scope.
Set Warnings "-register-all".

(* ================================================================== *)
(** ** JavaScript strings and the built-ins the sources call          *)
(* ================================================================== *)

Module JS.

(** One UTF-16 code unit. *)
Definition unit16 := N.

Definition jsstring := list unit16.

(** An ASCII literal as a [jsstring]. *)
Definition js (s : string) : jsstring := map N_of_ascii (list_ascii_of_string s).

Definition LF : unit16 := 10%N.
Definition nl : jsstring := [LF].
Definition nl2 : jsstring := [LF; LF].

Fixpoint eqb (a b : jsstring) : bool :=
  match a, b with
  | [], [] => true
  | x :: a', y :: b' => N.eqb x y && eqb a' b'
  | _, _ => false
  end.

(** [relIndex len i]: a relative index as [slice] resolves it
    (negative counts from the end, everything is clamped to [0, len]). *)
Definition relIndex (len i : Z) : Z :=
  if (i <? 0)%Z then Z.max (len + i) 0 else Z.min i len.

(** [String.prototype.slice(start, end)] and [Array.prototype.slice(start, end)]. *)
Definition slice {A : Type} (l : list A) (start end_ : Z) : list A :=
  let len := Z.of_nat (length l) in
  let from := relIndex len start in
  let to := relIndex len end_ in
  firstn (Z.to_nat (to - from)) (skipn (Z.to_nat from) l).

(** [slice(start)], the end left out. *)
Definition sliceFrom {A : Type} (l : list A) (start : Z) : list A :=
  slice l start (Z.of_nat (length l)).

Fixpoint isPrefix (needle hay : jsstring) : bool :=
  match needle, hay with
  | [], _ => true
  | _ :: _, [] => false
  | x :: needle', y :: hay' => N.eqb x y && isPrefix needle' hay'
  end.

(** First position at or after [pos] (the position of [hay]'s head) where
    [needle] occurs, [-1] when there is none. *)
Fixpoint search (needle hay : jsstring) (pos : nat) : Z :=
  if isPrefix needle hay then Z.of_nat pos
  else match hay with
       | [] => (-1)%Z
       | _ :: hay' => search needle hay' (S pos)
       end.

(** [needle] occurs in [hay] at position [i]. *)
Definition occursAt (hay needle : jsstring) (i : Z) : Prop :=
  (0 <= i <= Z.of_nat (length hay))%Z /\
  isPrefix needle (skipn (Z.to_nat i) hay) = true.

(** [hay.indexOf(needle, from)]. *)
Definition indexOf (hay needle : jsstring) (from : Z) : Z :=
  let k := Z.to_nat (Z.min (Z.max from 0) (Z.of_nat (length hay))) in
  search needle (skipn k hay) k.

(** [hay.includes(needle)]. *)
Definition includes (hay needle : jsstring) : bool :=
  negb (indexOf hay needle 0 =? -1)%Z.

(** [parts.join(sep)]. *)
Fixpoint join (sep : jsstring) (parts : list jsstring) : jsstring :=
  match parts with
  | [] => []
  | [p] => p
  | p :: rest => p ++ sep ++ join sep rest
  end.

(** A string in a boolean position: the empty string is falsy. *)
Definition nonEmpty (s : jsstring) : bool :=
  match s with [] => false | _ => true end.

(** A [Map] with string keys: its entries in insertion order. *)
Definition JsMap (V : Type) := list (jsstring * V).

Fixpoint mapGet {V : Type} (m : JsMap V) (k : jsstring) : option V :=
  match m with
  | [] => None
  | (k', v) :: m' => if eqb k' k then Some v else mapGet m' k
  end.

Fixpoint mapSet {V : Type} (m : JsMap V) (k : jsstring) (v : V) : JsMap V :=
  match m with
  | [] => [(k, v)]
  | (k', v') :: m' => if eqb k' k then (k', v) :: m' else (k', v') :: mapSet m' k v
  end.

(** [byCluster.get(c) || []]. *)
Definition getOrEmpty {V : Type} (m : JsMap (list V)) (k : jsstring) : list V :=
  match mapGet m k with Some l => l | None => [] end.

(** The grouping loop both passes start with:
    [const list = byCluster.get(x.cluster) || []; list.push(x);
     byCluster.set(x.cluster, list)]. *)
Definition groupBy {A : Type} (key : A -> jsstring) (items : list A) : JsMap (list A) :=
  fold_left
    (fun byCluster x =>
       let list := getOrEmpty byCluster (key x) in
       mapSet byCluster (key x) (list ++ [x]))
    items [].

Definition hasKey {A : Type} (key : A -> jsstring) (c : jsstring) (x : A) : bool :=
  eqb (key x) c.

End JS.

Import JS.

(* ================================================================== *)
(** ** Task Planner: [main], the flattening of the plan               *)
(* ================================================================== *)

Module Planner.

(** One element of the plan: [{ cluster, keywords }]; [keywords] may be
    missing, which the loop reads as [cluster.keywords || []]. *)
Record Cluster := mkCluster {
  cluster : jsstring;
  keywords : option (list jsstring)
}.

Record Task := mkTask {
  task_cluster : jsstring;
  task_keyword : jsstring
}.

Definition keywordsOrEmpty (c : Cluster) : list jsstring :=
  match keywords c with Some ks => ks | None => [] end.

(** The two nested [for ... of] loops, each [allTasks.push] an append. *)
Definition allTasks (plan : list Cluster) : list Task :=
  fold_left
    (fun acc c =>
       fold_left (fun acc' keyword => acc' ++ [mkTask (cluster c) keyword])
                 (keywordsOrEmpty c) acc)
    plan [].

(** [allTasks.slice(0, maxPosts)]. *)
Definition targetTasks (plan : list Cluster) (maxPosts : Z) : list Task :=
  slice (allTasks plan) 0 maxPosts.

(** The (cluster, keyword) pairs of a plan in cluster-major, keyword-minor
    order: the enumeration the claim measures [targetTasks] against. *)
Definition pairsInOrder (plan : list Cluster) : list Task :=
  flat_map (fun c => map (mkTask (cluster c)) (keywordsOrEmpty c)) plan.

End Planner.

(* ================================================================== *)
(** ** Multi-part content assembler: [processBatch], lines 155-159     *)
(* ================================================================== *)

Module Assembler.

(** The argument object of [openai.generateContentPart]. The outline is
    passed through unchanged and is kept abstract. *)
Record ContentPartArgs (Outline : Type) := mkArgs {
  niche : jsstring;
  keyword : jsstring;
  outline : Outline;
  partIndex : Z;
  totalParts : Z;
  previousContent : jsstring
}.
Arguments mkArgs {Outline}.
Arguments niche {Outline}.
Arguments keyword {Outline}.
Arguments outline {Outline}.
Arguments partIndex {Outline}.
Arguments totalParts {Outline}.
Arguments previousContent {Outline}.

Section Backend.

(** The generation backend (real or mock): each call may depend on, and
    change, the backend's state. *)
Variable Outline : Type.
Variable World : Type.
Variable generateContentPart : ContentPartArgs Outline -> World -> jsstring * World.

(** [const prev = `${part1}\n\n${part2}`.slice(0, 6000)]. *)
Definition continuityContext (part1 part2 : jsstring) : jsstring :=
  slice (part1 ++ nl2 ++ part2) 0 6000.

(** The three sequential [await openai.generateContentPart(...)] calls.
    Returns the argument objects in call order, the three parts, and the
    backend state afterwards. The first call leaves [previousContent] out,
    which the client defaults to the empty string. *)
Definition generateParts (niche keyword : jsstring) (outline : Outline) (w : World)
  : list (ContentPartArgs Outline) * (jsstring * jsstring * jsstring) * World :=
  let a1 := mkArgs niche keyword outline 1 3 [] in
  let (part1, w1) := generateContentPart a1 w in
  let a2 := mkArgs niche keyword outline 2 3 part1 in
  let (part2, w2) := generateContentPart a2 w1 in
  let prev := continuityContext part1 part2 in
  let a3 := mkArgs niche keyword outline 3 3 prev in
  let (part3, w3) := generateContentPart a3 w2 in
  ([a1; a2; a3], (part1, part2, part3), w3).

End Backend.

(** A backend that answers from a fixed script, one entry per call
    (the empty string once the script is used up). *)
Definition scripted (a : ContentPartArgs unit) (w : list jsstring) : jsstring * list jsstring :=
  match w with
  | [] => ([], [])
  | s :: w' => (s, w')
  end.

(** *** The metadata header: [stringifyFrontmatter] and the file written *)

(** A front matter value as [processBatch] builds it: a string, or the
    array of strings of [keywords]. *)
Inductive fmValue :=
| FStr (s : jsstring)
| FArr (items : list jsstring).

Definition hexDigit (n : N) : unit16 :=
  if (n <? 10)%N then (48 + n)%N else (87 + n)%N.

(** One code unit of the Basic Multilingual Plane inside
    [JSON.stringify(s)]: the short escapes, [\u00xx] for the other control
    characters, the unit itself otherwise. *)
Definition jsonUnit (c : unit16) : jsstring :=
  if (c =? 34)%N then [92; 34]%N
  else if (c =? 92)%N then [92; 92]%N
  else if (c =? 8)%N then [92; 98]%N
  else if (c =? 12)%N then [92; 102]%N
  else if (c =? 10)%N then [92; 110]%N
  else if (c =? 13)%N then [92; 114]%N
  else if (c =? 9)%N then [92; 116]%N
  else if (c <? 32)%N then [92; 117; 48; 48; hexDigit (c / 16); hexDigit (c mod 16)]%N
  else [c].

(** The two halves of a surrogate pair: U+D800-DBFF and U+DC00-DFFF. *)
Definition isLeading (c : unit16) : bool := (55296 <=? c)%N && (c <=? 56319)%N.

Definition isTrailing (c : unit16) : bool := (56320 <=? c)%N && (c <=? 57343)%N.

(** [\uxxxx], in lower-case hexadecimal. *)
Definition unicodeEscape (c : unit16) : jsstring :=
  [92; 117; hexDigit (c / 4096); hexDigit ((c / 256) mod 16);
   hexDigit ((c / 16) mod 16); hexDigit (c mod 16)]%N.

(** The characters between the quotes: [JSON.stringify] reads the string by
    code points, writes a surrogate pair as it is and a surrogate that
    stands alone as its escape. *)
Fixpoint quoteUnits (s : jsstring) : jsstring :=
  match s with
  | [] => []
  | c :: s' =>
      if isLeading c then
        match s' with
        | d :: s'' =>
            if isTrailing d then c :: d :: quoteUnits s''
            else unicodeEscape c ++ quoteUnits s'
        | [] => unicodeEscape c
        end
      else if isTrailing c then unicodeEscape c ++ quoteUnits s'
      else jsonUnit c ++ quoteUnits s'
  end.

(** [JSON.stringify(s)] for a string [s]. *)
Definition jsonString (s : jsstring) : jsstring :=
  [34%N] ++ quoteUnits s ++ [34%N].

Definition frontmatterLine (entry : jsstring * fmValue) : jsstring :=
  match snd entry with
  | FArr items => fst entry ++ js ": [" ++ join (js ", ") (map jsonString items) ++ js "]"
  | FStr s => fst entry ++ js ": " ++ jsonString s
  end.

Definition stringifyFrontmatter (obj : list (jsstring * fmValue)) : jsstring :=
  js "---" ++ nl ++ join nl (map frontmatterLine obj) ++ nl ++ js "---".

(** The [frontmatter] object of [processBatch], keys in the order written. *)
Definition frontmatterOf (title slug date description : jsstring)
    (keywords : list jsstring) (image cluster : jsstring) : list (jsstring * fmValue) :=
  [ (js "title", FStr title); (js "slug", FStr slug); (js "date", FStr date);
    (js "description", FStr description); (js "keywords", FArr keywords);
    (js "image", FStr image); (js "cluster", FStr cluster) ].

(** [stringifyFrontmatter(frontmatter) + '\n' + hero + '\n' + mdxBody + '\n']. *)
Definition mdxContent (frontmatter : list (jsstring * fmValue)) (hero mdxBody : jsstring)
  : jsstring :=
  stringifyFrontmatter frontmatter ++ nl ++ hero ++ nl ++ mdxBody ++ nl.

End Assembler.

(* ================================================================== *)
(** ** Bounded concurrency executor: [class Semaphore]                 *)
(* ================================================================== *)

Module Semaphore.

(** A caller of [run]; it stands for the operation [fn] it passes in and
    for the resolve function it parks in [queue] while it waits. *)
Definition caller := nat.

Record sem := mkSem {
  max : Z;
  count : Z;
  queue : list caller
}.

(** [constructor(max)]: [this.max = Math.max(1, max || 1)]. *)
Definition new (max : Z) : sem :=
  mkSem (Z.max 1 (if (max =? 0)%Z then 1 else max)) 0 [].

(** [run] is an [async] function with two [await]s, so it executes as up to
    three synchronous segments; the two continuations are promise jobs.
    [UserCall c] is a promise reaction of the calling program whose body is
    [sem.run(fn_c)], as in [p.then(() => sem.run(fn_c))]. *)
Inductive job :=
| UserCall (c : caller)
| Resume (c : caller)      (* [run], after [await new Promise(...)] *)
| Finally (c : caller).    (* [run], after [await fn()]: the [finally] block *)

(** The semaphore, the operations whose [fn()] has been called and has not
    settled yet (the instrumented counter of the spec is the length of
    [inBody]), and the FIFO queue of promise jobs. *)
Record world := mkWorld {
  state : sem;
  inBody : list caller;
  jobs : list job
}.

Definition init (s : sem) : world := mkWorld s [] [].

(** [this.count++; ... fn()]: the operation's body starts. *)
Definition enter (c : caller) (w : world) : world :=
  let s := state w in
  mkWorld (mkSem (max s) (count s + 1) (queue s)) (inBody w ++ [c]) (jobs w).

(** [run(fn)] from its call to its first [await]:
    [if (this.count >= this.max) await new Promise((r) => this.queue.push(r))]
    parks the caller; otherwise control falls through to [this.count++]. *)
Definition callRun (c : caller) (w : world) : world :=
  let s := state w in
  if (count s >=? max s)%Z
  then mkWorld (mkSem (max s) (count s) (queue s ++ [c])) (inBody w) (jobs w)
  else enter c w.

(** The [finally] block: [this.count--; const next = this.queue.shift();
    if (next) next()]. Calling [next] fulfils the parked promise, which
    enqueues the waiter's continuation. *)
Definition finally (w : world) : world :=
  let s := state w in
  match queue s with
  | [] => mkWorld (mkSem (max s) (count s - 1) []) (inBody w) (jobs w)
  | next :: rest =>
      mkWorld (mkSem (max s) (count s - 1) rest) (inBody w) (jobs w ++ [Resume next])
  end.

Definition runJob (j : job) (w : world) : world :=
  match j with
  | UserCall c => callRun c w
  | Resume c => enter c w
  | Finally _ => finally w
  end.

(** What a synchronous block of the program (one macrotask) may do. *)
Inductive action :=
| Call (c : caller)      (* [sem.run(fn_c)] called directly *)
| Settle (c : caller)    (* the promise [fn_c()] returned is settled *)
| Fulfil (c : caller).   (* a promise with the reaction [() => sem.run(fn_c)] is fulfilled *)

Definition act (a : action) (w : world) : world :=
  match a with
  | Call c => callRun c w
  | Settle c =>
      if existsb (Nat.eqb c) (inBody w)
      then mkWorld (state w) (filter (fun x => negb (Nat.eqb c x)) (inBody w))
                   (jobs w ++ [Finally c])
      else w
  | Fulfil c => mkWorld (state w) (inBody w) (jobs w ++ [UserCall c])
  end.

(** The promise-job queue is drained, oldest job first, once the
    synchronous block has ended. *)
Fixpoint drain (fuel : nat) (w : world) : world :=
  match fuel with
  | O => w
  | S fuel' =>
      match jobs w with
      | [] => w
      | j :: rest => drain fuel' (runJob j (mkWorld (state w) (inBody w) rest))
      end
  end.

(** A job enqueues at most one further job ([Finally] a [Resume]), and a
    [Resume] none: twice the queue's length is fuel enough. *)
Definition macrotask (acts : list action) (w : world) : world :=
  let w' := fold_left (fun w a => act a w) acts w in
  drain (2 * length (jobs w')) w'.

Definition runScript (script : list (list action)) (w : world) : world :=
  fold_left (fun w acts => macrotask acts w) script w.

End Semaphore.

(* ================================================================== *)
(** ** The file store                                                   *)
(* ================================================================== *)

Module Files.

(** The [.mdx] files under the content directory: path and text, in the
    order the glob lists them. *)
Definition store := list (jsstring * jsstring).

Fixpoint readFile (fs : store) (p : jsstring) : option jsstring :=
  match fs with
  | [] => None
  | (q, text) :: fs' => if JS.eqb q p then Some text else readFile fs' p
  end.

Fixpoint writeFile (fs : store) (p text : jsstring) : store :=
  match fs with
  | [] => [(p, text)]
  | (q, old) :: fs' =>
      if JS.eqb q p then (q, text) :: fs' else (q, old) :: writeFile fs' p text
  end.

End Files.

(* ================================================================== *)
(** ** Link graph builder: [scripts/lib/internalLinker.js]              *)
(* ================================================================== *)

Module Linker.
Import Files.

(** *** Front matter values and the conversions applied to them *)

Inductive jsval :=
| VUndefined
| VNull
| VBool (b : bool)
| VNum (n : Z)
| VStr (s : jsstring)
| VArr (items : list jsval).

(** A parsed front matter object, keys in insertion order. *)
Definition Data := list (jsstring * jsval).

Fixpoint getProp (d : Data) (k : jsstring) : jsval :=
  match d with
  | [] => VUndefined
  | (k', v) :: d' => if JS.eqb k' k then v else getProp d' k
  end.

Definition truthy (v : jsval) : bool :=
  match v with
  | VUndefined | VNull => false
  | VBool b => b
  | VNum n => negb (n =? 0)%Z
  | VStr s => nonEmpty s
  | VArr _ => true
  end.

(** [a || b]. *)
Definition orElse (a b : jsval) : jsval := if truthy a then a else b.

Definition decimal (n : Z) : jsstring := js (NilZero.string_of_int (Z.to_int n)).

(** [String(v)]. *)
Fixpoint ToString (v : jsval) : jsstring :=
  match v with
  | VUndefined => js "undefined"
  | VNull => js "null"
  | VBool true => js "true"
  | VBool false => js "false"
  | VNum n => decimal n
  | VStr s => s
  | VArr items =>
      join (js ",")
           (map (fun x => match x with
                          | VUndefined | VNull => []
                          | _ => ToString x
                          end) items)
  end.

(** The two entry points of the gray-matter package the pass calls:
    [matter(raw)], giving [{ data, content }], and
    [matter.stringify(content, data)]. The package is not part of the
    repository; the pass is defined over any implementation of the two.
    [None] is a call that throws (the YAML engine rejects the front matter
    it is given to read, or a value it is given to write): the pass
    catches nothing. *)
Record Matter := mkMatter {
  matter : jsstring -> option (Data * jsstring);
  stringify : jsstring -> Data -> option jsstring
}.

(** gray-matter's [newline] helper: what it writes ends with a line feed. *)
Definition endWithNewline (s : jsstring) : jsstring :=
  if JS.eqb (sliceFrom s (-1)) nl then s else s ++ nl.

Record Post := mkPost {
  path : jsstring;
  slug : jsstring;
  title : jsstring;
  cluster : jsstring;
  keywords : list jsstring;
  content : jsstring;
  data : Data
}.

(** The object pushed on [posts] for a file at [p] whose front matter
    parsed to [d] and whose body is [body]. *)
Definition postOf (p : jsstring) (d : Data) (body : jsstring) : Post :=
  {| path := p;
     slug := ToString (getProp d (js "slug"));
     title := ToString (orElse (getProp d (js "title")) (getProp d (js "slug")));
     cluster := ToString (orElse (getProp d (js "cluster")) (VStr (js "Uncategorized")));
     keywords := match getProp d (js "keywords") with
                 | VArr items => map ToString items
                 | _ => []
                 end;
     content := body;
     data := d |}.

(** One turn of the reading loop: [None] when [matter] throws,
    [Some None] for the [continue] taken when the front matter has no
    (truthy) slug. *)
Definition readPost (M : Matter) (file : jsstring * jsstring) : option (option Post) :=
  match matter M (snd file) with
  | None => None
  | Some (d, body) =>
      Some (if truthy (getProp d (js "slug")) then Some (postOf (fst file) d body)
            else None)
  end.

(** The reading loop: the posts pushed, or [None] when a file's front
    matter made [matter] throw. *)
Fixpoint readPosts (M : Matter) (fs : store) : option (list Post) :=
  match fs with
  | [] => Some []
  | file :: fs' =>
      match readPost M file with
      | None => None
      | Some r =>
          match readPosts M fs' with
          | None => None
          | Some posts =>
              Some (match r with
                    | Some post => post :: posts
                    | None => posts
                    end)
          end
      end
  end.

(** *** Grouping by cluster *)

(** The posts of cluster [c]. *)
Definition inCluster (c : jsstring) (p : Post) : bool := hasKey cluster c p.

Definition groupByCluster (posts : list Post) : JsMap (list Post) :=
  groupBy cluster posts.

(** *** [normalizeToken], [tokenize], [similarity] *)

(** [toLowerCase], one code unit at a time. ASCII capitals are lowered;
    so are the two code units outside ASCII whose lower case reaches
    [a-z] (U+212A, the Kelvin sign, and U+0130). Every other code unit
    outside ASCII is left as it is: [normalizeToken] replaces it, lowered
    or not, by a space. *)
Definition lowerUnit (c : unit16) : jsstring :=
  if (65 <=? c)%N && (c <=? 90)%N then [(c + 32)%N]
  else if (c =? 8490)%N then [107%N]
  else if (c =? 304)%N then [105%N; 775%N]
  else [c].

Definition toLowerCase (s : jsstring) : jsstring := flat_map lowerUnit s.

(** The class [[a-z0-9]]. *)
Definition isAlnum (c : unit16) : bool :=
  ((97 <=? c)%N && (c <=? 122)%N) || ((48 <=? c)%N && (c <=? 57)%N).

(** [replace(/[^a-z0-9]+/g, ' ')]: every maximal run outside the class
    becomes one space. [inRun] says the previous unit was outside it. *)
Fixpoint squash (s : jsstring) (inRun : bool) : jsstring :=
  match s with
  | [] => []
  | c :: s' =>
      if isAlnum c then c :: squash s' false
      else if inRun then squash s' true
      else 32%N :: squash s' true
  end.

(** White space and line terminators, as [trim] and [\s] read them. *)
Definition isSpace (c : unit16) : bool :=
  existsb (N.eqb c)
    [9; 10; 11; 12; 13; 32; 160; 5760; 8192; 8193; 8194; 8195; 8196; 8197;
     8198; 8199; 8200; 8201; 8202; 8232; 8233; 8239; 8287; 12288; 65279]%N.

Fixpoint dropSpaces (s : jsstring) : jsstring :=
  match s with
  | [] => []
  | c :: s' => if isSpace c then dropSpaces s' else s
  end.

Definition trim (s : jsstring) : jsstring :=
  rev (dropSpaces (rev (dropSpaces s))).

Definition normalizeToken (s : jsstring) : jsstring :=
  trim (squash (toLowerCase s) false).

(** [split(/\s+/)]: [cur] is the piece being read, [inRun] says the
    previous unit was white space. *)
Fixpoint splitSpaces (s cur : jsstring) (inRun : bool) : list jsstring :=
  match s with
  | [] => [cur]
  | c :: s' =>
      if isSpace c then
        if inRun then splitSpaces s' cur true else cur :: splitSpaces s' [] true
      else splitSpaces s' (cur ++ [c]) false
  end.

Definition tokenize (s : jsstring) : list jsstring :=
  filter nonEmpty (splitSpaces (normalizeToken s) [] false).

(** A [Set] of strings: its elements in insertion order, without repeats. *)
Definition setHas (s : list jsstring) (t : jsstring) : bool := existsb (JS.eqb t) s.

Definition setAdd (s : list jsstring) (t : jsstring) : list jsstring :=
  if setHas s t then s else s ++ [t].

Definition newSet (elements : list jsstring) : list jsstring :=
  fold_left setAdd elements [].

Definition tokenSet (a : Post) : list jsstring :=
  newSet (map normalizeToken (keywords a) ++ tokenize (title a)).

(** [for (const t of A) if (B.has(t)) inter++]. *)
Definition interCount (A B : list jsstring) : Z :=
  fold_left (fun inter t => if setHas B t then (inter + 1)%Z else inter) A 0%Z.

Definition size (A : list jsstring) : Z := Z.of_nat (length A).

(** [Math.max(1, A.size + B.size - inter)]. *)
Definition denomOf (A B : list jsstring) : Z :=
  Z.max 1 (size A + size B - interCount A B).

(** [inter / denom], kept as the exact quotient of the two integers (the
    double the code returns is that quotient correctly rounded). *)
Definition similarity (a b : Post) : Q :=
  let A := tokenSet a in
  let B := tokenSet b in
  Qmake (interCount A B) (Z.to_pos (denomOf A B)).

(** *** [Array.prototype.sort], [findIndex], indexing *)

(** The sort is stable. [le a b] stands for [comparator(a, b) <= 0]. *)
Fixpoint insert {A : Type} (le : A -> A -> bool) (x : A) (l : list A) : list A :=
  match l with
  | [] => [x]
  | y :: l' => if le x y then x :: l else y :: insert le x l'
  end.

Definition sortBy {A : Type} (le : A -> A -> bool) (l : list A) : list A :=
  fold_right (insert le) [] l.

Fixpoint findIndexFrom {A : Type} (f : A -> bool) (l : list A) (i : Z) : Z :=
  match l with
  | [] => (-1)%Z
  | x :: l' => if f x then i else findIndexFrom f l' (i + 1)%Z
  end.

Definition findIndex {A : Type} (f : A -> bool) (l : list A) : Z :=
  findIndexFrom f l 0%Z.

(** [l[i]]; [None] is [undefined]. *)
Definition item {A : Type} (l : list A) (i : Z) : option A :=
  if (i <? 0)%Z then None else nth_error l (Z.to_nat i).

(** The code units of two strings compared in order: the lexicographic
    order of the strings, as [<] has it. *)
Fixpoint compareUnits (a b : jsstring) : Z :=
  match a, b with
  | [], [] => 0%Z
  | [], _ :: _ => (-1)%Z
  | _ :: _, [] => 1%Z
  | x :: a', y :: b' =>
      if (x <? y)%N then (-1)%Z
      else if (y <? x)%N then 1%Z
      else compareUnits a' b'
  end.

(** [a.localeCompare(b)]. The source passes no locale, so the collation of
    the host's default locale decides: the pass is defined over any. The
    result is negative, zero or positive. *)
Class Collation := { localeCompare : jsstring -> jsstring -> Z }.

(** What a collation is bound to be, whatever the locale: a total preorder.
    The sign turns with the arguments, and "not after" is transitive;
    strings that differ may still compare equal. *)
Definition consistent (host : Collation) : Prop :=
  (forall a b, (localeCompare a b < 0)%Z <-> (0 < localeCompare b a)%Z) /\
  (forall a b c,
      (localeCompare a b <= 0)%Z -> (localeCompare b c <= 0)%Z ->
      (localeCompare a c <= 0)%Z).

(** The collation of an English-locale host (the root collation of the
    Unicode collation algorithm), on the strings this development applies
    it to: ASCII letters, digits and hyphens. Letters are compared
    without their case first; between strings equal up to case, the first
    difference decides, lower case before upper case. On lower-case
    slugs this is the order of the code units. *)
Definition foldCase (c : unit16) : unit16 :=
  if (65 <=? c)%N && (c <=? 90)%N then (c + 32)%N else c.

Definition swapCase (c : unit16) : unit16 :=
  if (65 <=? c)%N && (c <=? 90)%N then (c + 32)%N
  else if (97 <=? c)%N && (c <=? 122)%N then (c - 32)%N
  else c.

Definition compareEnglish (a b : jsstring) : Z :=
  let primary := compareUnits (map foldCase a) (map foldCase b) in
  if (primary =? 0)%Z then compareUnits (map swapCase a) (map swapCase b)
  else primary.

Definition english : Collation := {| localeCompare := compareEnglish |}.

(** *** The blocks *)

Definition EARLY_START : jsstring := js "<!-- AUTOLINK-EARLY START -->".
Definition EARLY_END : jsstring := js "<!-- AUTOLINK-EARLY END -->".
Definition NAV_START : jsstring := js "<!-- AUTOLINK-NAV START -->".
Definition NAV_END : jsstring := js "<!-- AUTOLINK-NAV END -->".

(** [`- [${p.title}](/${p.slug}/)`]. *)
Definition linkLine (p : Post) : jsstring :=
  js "- [" ++ title p ++ js "](/" ++ slug p ++ js "/)".

(** Both related blocks, early and end, are rendered by this function and
    carry the same AUTOLINK-EARLY markers. *)
Definition blockWithLinks (heading : jsstring) (items : list Post) : jsstring :=
  match items with
  | [] => []
  | _ :: _ =>
      let links := join nl (map linkLine items) in
      nl2 ++ EARLY_START ++ nl2 ++ js "### " ++ heading ++ nl2 ++ links
          ++ nl2 ++ EARLY_END ++ nl
  end.

Definition leftArrow : unit16 := 8592%N.
Definition rightArrow : unit16 := 8594%N.

Definition prevNextBlock (prev next : option Post) : jsstring :=
  let parts :=
    match prev with
    | Some p => [js "[" ++ [leftArrow] ++ js " " ++ title p ++ js "](/" ++ slug p ++ js "/)"]
    | None => []
    end ++
    match next with
    | Some p => [js "[" ++ title p ++ js " " ++ [rightArrow] ++ js "](/" ++ slug p ++ js "/)"]
    | None => []
    end in
  match parts with
  | [] => []
  | _ :: _ =>
      nl2 ++ NAV_START ++ nl2 ++ js "---" ++ nl2 ++ join (js " | ") parts
          ++ nl2 ++ NAV_END ++ nl
  end.

(** *** [nthIndexOf] and [insertBlocks] *)

(** The loop [while (n-- > 0)], [idx] being the last position found. *)
Fixpoint nthIndexOfFrom (hay needle : jsstring) (n : nat) (idx : Z) : Z :=
  match n with
  | O => idx
  | S n' =>
      let idx' := indexOf hay needle (idx + 1) in
      if (idx' =? -1)%Z then idx' else nthIndexOfFrom hay needle n' idx'
  end.

Definition nthIndexOf (hay needle : jsstring) (n : nat) : Z :=
  nthIndexOfFrom hay needle n (-1)%Z.

(** The heading marker ["\n## "]. *)
Definition H2 : jsstring := LF :: js "## ".

(** First step of [insertBlocks]: the early block after the 2nd H2. *)
Definition insertEarly (out earlyBlock : jsstring) : jsstring :=
  if nonEmpty earlyBlock then
    let idx := nthIndexOf out H2 2 in
    if negb (idx =? -1)%Z && negb (includes out EARLY_START) then
      let insertAt := indexOf out nl (idx + 1) in
      slice out 0 insertAt ++ earlyBlock ++ sliceFrom out insertAt
    else out
  else out.

(** Second step: the end related block. *)
Definition appendEnd (out endBlock : jsstring) : jsstring :=
  if nonEmpty endBlock && negb (includes out EARLY_START) then out ++ endBlock else out.

(** Third step: prev/next navigation at the very end. *)
Definition appendNav (out navBlock : jsstring) : jsstring :=
  if nonEmpty navBlock && negb (includes out NAV_START) then out ++ navBlock else out.

Definition insertBlocks (content earlyBlock endBlock navBlock : jsstring) : jsstring :=
  appendNav (appendEnd (insertEarly content earlyBlock) endBlock) navBlock.

(** *** [applyInternalLinks] *)

Definition clusterPostsOf (byCluster : JsMap (list Post)) (post : Post) : list Post :=
  filter (fun p => negb (JS.eqb (slug p) (slug post)))
         (getOrEmpty byCluster (cluster post)).

(** [.map((p) => ({ p, score })).sort((a, b) => b.score - a.score).map((x) => x.p)].
    The comparison is made on the exact quotients. *)
Definition rankedOf (post : Post) (clusterPosts : list Post) : list Post :=
  map fst
      (sortBy (fun a b => Qle_bool (snd b - snd a) 0)
              (map (fun p => (p, similarity post p)) clusterPosts)).

Section Host.

Context {host : Collation}.

(** The comparator [(a, b) => a.slug.localeCompare(b.slug)], as the sort
    reads it: [a] may stand before [b]. *)
Definition slugLeb (a b : Post) : bool := (localeCompare (slug a) (slug b) <=? 0)%Z.

Definition slugLe (a b : Post) : Prop := (localeCompare (slug a) (slug b) <= 0)%Z.

Definition sortedBySlug (clusterPosts : list Post) (post : Post) : list Post :=
  sortBy slugLeb (clusterPosts ++ [post]).

Definition prevNext (clusterPosts : list Post) (post : Post) : option Post * option Post :=
  let sorted := sortedBySlug clusterPosts post in
  let idx := findIndex (fun x => JS.eqb (slug x) (slug post)) sorted in
  let prev := if (idx >? 0)%Z then item sorted (idx - 1) else None in
  let next := if (idx <? Z.of_nat (length sorted) - 1)%Z then item sorted (idx + 1) else None in
  (prev, next).

(** The body of the main loop up to "Prepare blocks": the early, end and
    nav blocks of a post; [None] is the [continue] taken when the post has
    no peer in its cluster. *)
Definition blocksFor (byCluster : JsMap (list Post)) (post : Post)
  : option (jsstring * jsstring * jsstring) :=
  let clusterPosts := clusterPostsOf byCluster post in
  if (length clusterPosts =? 0)%nat then None
  else
    let ranked := rankedOf post clusterPosts in
    let early := slice ranked 0 2 in
    let end_ := slice ranked 2 5 in
    let (prev, next) := prevNext clusterPosts post in
    let earlyBlock := blockWithLinks (js "You might also like") early in
    let endBlock :=
      blockWithLinks (js "More in " ++ cluster post)
                     (match end_ with [] => slice ranked 0 3 | _ :: _ => end_ end) in
    let navBlock := prevNextBlock prev next in
    Some (earlyBlock, endBlock, navBlock).

(** [const updated = insertBlocks(post.content, earlyBlock, endBlock, navBlock)]. *)
Definition updatedContent (byCluster : JsMap (list Post)) (post : Post) : option jsstring :=
  match blocksFor byCluster post with
  | None => None
  | Some (earlyBlock, endBlock, navBlock) =>
      Some (insertBlocks (content post) earlyBlock endBlock navBlock)
  end.

(** One turn of the writing loop. The state is the store and whether the
    loop is still running: once [matter.stringify] has thrown, the function
    is left and nothing more is written. *)
Definition linkStep (M : Matter) (byCluster : JsMap (list Post))
    (acc : store * bool) (post : Post) : store * bool :=
  if snd acc then
    match updatedContent byCluster post with
    | None => acc
    | Some updated =>
        match stringify M updated (data post) with
        | Some fileText => (writeFile (fst acc) (path post) fileText, true)
        | None => (fst acc, false)
        end
    end
  else acc.

(** What the loop makes of one file when its turn comes: the file as it was
    when it is skipped, its path with the re-serialised text when it is
    written, [None] when [matter.stringify] throws. *)
Definition linkedFile (M : Matter) (byCluster : JsMap (list Post))
    (file : jsstring * jsstring) : option (jsstring * jsstring) :=
  match readPost M file with
  | Some (Some post) =>
      match updatedContent byCluster post with
      | Some updated =>
          match stringify M updated (data post) with
          | Some fileText => Some (fst file, fileText)
          | None => None
          end
      | None => Some file
      end
  | _ => Some file
  end.

(** All files are read and parsed first; the posts are then linked and
    written back one by one. The result is the store the call leaves and
    whether it returned ([true]) or threw ([false]): a throw while reading
    leaves every file as it was, a throw while writing leaves the files
    written before it rewritten and the others as they were. *)
Definition applyInternalLinks (M : Matter) (fs : store) : store * bool :=
  match readPosts M fs with
  | None => (fs, false)
  | Some posts => fold_left (linkStep M (groupByCluster posts)) posts (fs, true)
  end.

End Host.

End Linker.


(* ================================================================== *)
(** ** A reference model of the gray-matter package                     *)
(* ================================================================== *)

(** [matter] and [matter.stringify] of gray-matter 4 with its default YAML
    engine (js-yaml 3), on a fragment of YAML.
    - Read: flat front matter, one [key: value] per line or a key followed
      by a block sequence; the values are what the package itself writes
      on this fragment and what [stringifyFrontmatter] writes: plain,
      single-quoted and double-quoted strings (the short escapes only),
      [true], [false], [null], decimal integers without a leading zero,
      flow sequences of strings that hold no comma.
    - Written: strings of printable ASCII without a line break and without
      a number sign, at most 76 units long, that open with a letter or a
      slash, are empty, or are dates; arrays of such strings.
    Outside the fragment the package does otherwise: it folds a longer
    string, writes a string with a line break as a block scalar, escapes
    or writes plain what this model quotes, reads other scalars as numbers
    or dates, and throws on front matter that YAML rejects. The
    development applies the model to documents inside the fragment only:
    the stores of [Sample] and [Regroup]. *)
Module GrayMatter.
Import Linker.

Definition fence : jsstring := js "---".

(** [s.split(sep)] for a non-empty [sep]; [skip] counts the units of a
    separator still to pass over. *)
Fixpoint splitOn (sep s cur : jsstring) (skip : nat) : list jsstring :=
  match s with
  | [] => [cur]
  | c :: s' =>
      match skip with
      | S k => splitOn sep s' cur k
      | O =>
          if isPrefix sep s then cur :: splitOn sep s' [] (length sep - 1)
          else splitOn sep s' (cur ++ [c]) 0
      end
  end.

Definition isLetter (c : unit16) : bool :=
  ((65 <=? c)%N && (c <=? 90)%N) || ((97 <=? c)%N && (c <=? 122)%N).

Definition isDigit (c : unit16) : bool := (48 <=? c)%N && (c <=? 57)%N.

(** *** Reading *)

(** A double-quoted scalar's escapes: the short ones JSON writes. *)
Fixpoint unescape (s : jsstring) : jsstring :=
  match s with
  | 92%N :: c :: s' =>
      (if (c =? 110)%N then 10%N
       else if (c =? 116)%N then 9%N
       else if (c =? 114)%N then 13%N
       else if (c =? 98)%N then 8%N
       else if (c =? 102)%N then 12%N
       else c) :: unescape s'
  | c :: s' => c :: unescape s'
  | [] => []
  end.

(** A single-quoted scalar: a doubled quote stands for one. *)
Fixpoint undouble (s : jsstring) : jsstring :=
  match s with
  | 39%N :: 39%N :: s' => 39%N :: undouble s'
  | c :: s' => c :: undouble s'
  | [] => []
  end.

Definition digitsValue (s : jsstring) : Z :=
  fold_left (fun n c => (10 * n + Z.of_N (c - 48))%Z) s 0%Z.

Definition inner (s : jsstring) : jsstring :=
  slice s 1 (Z.of_nat (length s) - 1).

Definition parseScalar (raw : jsstring) : jsval :=
  let s := trim raw in
  match s with
  | [] => VNull
  | c :: _ =>
      let last := sliceFrom s (-1) in
      if (c =? 34)%N && JS.eqb last [34%N] && (2 <=? length s)%nat then VStr (unescape (inner s))
      else if (c =? 39)%N && JS.eqb last [39%N] && (2 <=? length s)%nat then VStr (undouble (inner s))
      else if JS.eqb s (js "true") then VBool true
      else if JS.eqb s (js "false") then VBool false
      else if JS.eqb s (js "null") || JS.eqb s (js "~") then VNull
      else if forallb isDigit s then VNum (digitsValue s)
      else VStr s
  end.

(** The value after [key: ]: nothing, a flow sequence, or a scalar. *)
Definition parseValue (rest : jsstring) : jsval :=
  let s := trim rest in
  match s with
  | [] => VNull
  | 91%N :: _ =>
      match inner s with
      | [] => VArr []
      | items => VArr (map parseScalar (splitOn (js ", ") items [] 0))
      end
  | _ => parseScalar s
  end.

(** An item of a block sequence joins the entry read last. *)
Fixpoint appendItem (d : Data) (x : jsval) : Data :=
  match d with
  | [] => []
  | [(k, v)] =>
      match v with
      | VNull => [(k, VArr [x])]
      | VArr items => [(k, VArr (items ++ [x]))]
      | _ => [(k, v)]
      end
  | kv :: d' => kv :: appendItem d' x
  end.

Definition loadLine (d : Data) (line : jsstring) : Data :=
  match trim line with
  | [] => d
  | _ :: _ =>
      if isPrefix (js "  - ") line then appendItem d (parseScalar (sliceFrom line 4))
      else
        let i := indexOf line (js ": ") 0 in
        if negb (i =? -1)%Z then d ++ [(slice line 0 i, parseValue (sliceFrom line (i + 2)))]
        else if JS.eqb (sliceFrom line (-1)) (js ":") then d ++ [(slice line 0 (-1), VNull)]
        else d
  end.

(** The YAML engine's [parse], on the lines of the front matter. *)
Definition load (text : jsstring) : Data :=
  fold_left loadLine (splitOn nl text [] 0) [].

Definition dropOne (c : unit16) (s : jsstring) : jsstring :=
  match s with
  | x :: s' => if (x =? c)%N then s' else s
  | [] => []
  end.

(** [matter(raw)]: the data and the content after the closing fence. *)
Definition parse (raw : jsstring) : Data * jsstring :=
  if negb (isPrefix fence raw) then ([], raw)
  else if JS.eqb (slice raw 3 4) (js "-") then ([], raw)
  else
    let str := sliceFrom raw 3 in
    let len := Z.of_nat (length str) in
    let found := indexOf str (LF :: fence) 0 in
    let closeIndex := if (found =? -1)%Z then len else found in
    let d := load (slice str 0 closeIndex) in
    let body :=
      if (closeIndex =? len)%Z then []
      else dropOne 10%N (dropOne 13%N (sliceFrom str (closeIndex + 4))) in
    (d, body).

(** *** Writing *)

(** A unit the dumper lets stand in a plain scalar: printable ASCII but the
    flow indicators, the colon and the number sign. *)
Definition plainUnit (c : unit16) : bool :=
  (32 <=? c)%N && (c <=? 126)%N
  && negb (existsb (N.eqb c) [35; 44; 58; 91; 93; 123; 125]%N).

(** The words YAML 1.1 reads as a boolean or as null: written in quotes. *)
Definition reserved : list jsstring :=
  map js ["true"; "True"; "TRUE"; "false"; "False"; "FALSE"; "null"; "Null"; "NULL";
          "y"; "Y"; "yes"; "Yes"; "YES"; "on"; "On"; "ON";
          "n"; "N"; "no"; "No"; "NO"; "off"; "Off"; "OFF"]%string.

(** Does the dumper write the string plain? Yes when it starts with a
    letter or a slash, holds no unit that ends a plain scalar, does not
    end in a space and is not a word YAML reads as another type. Any
    other string of the fragment (the empty string, a date, a string with
    a colon or a comma) is written in single quotes. *)
Definition isPlain (s : jsstring) : bool :=
  match s with
  | [] => false
  | c :: _ =>
      (isLetter c || (c =? 47)%N) && forallb plainUnit s
      && negb (JS.eqb (sliceFrom s (-1)) (js " "))
      && negb (existsb (JS.eqb s) reserved)
  end.

Definition quoteSingle (s : jsstring) : jsstring :=
  [39%N] ++ flat_map (fun c => if (c =? 39)%N then [39; 39]%N else [c]) s ++ [39%N].

Definition dumpScalar (v : jsval) : jsstring :=
  match v with
  | VStr s => if isPlain s then s else quoteSingle s
  | VUndefined => js "null"
  | _ => ToString v
  end.

(** One entry, block style: a sequence goes on lines of its own, indented. *)
Definition dumpEntry (entry : jsstring * jsval) : jsstring :=
  match snd entry with
  | VArr [] => fst entry ++ js ": []" ++ nl
  | VArr items =>
      fst entry ++ js ":" ++ nl
        ++ flat_map (fun x => js "  - " ++ dumpScalar x ++ nl) items
  | v => fst entry ++ js ": " ++ dumpScalar v ++ nl
  end.

Definition dump (d : Data) : jsstring := flat_map dumpEntry d.

(** [Object.assign({}, a, b)]. *)
Definition assign (a b : Data) : Data :=
  fold_left (fun acc kv => mapSet acc (fst kv) (snd kv)) b a.

(** [matter.stringify(content, data)]: a string is parsed first, its own
    data overridden by [data]; the header is left out when there is no
    data at all. *)
Definition stringify (content : jsstring) (data : Data) : jsstring :=
  let (d0, body) := parse content in
  match assign d0 data with
  | [] => endWithNewline body
  | d => fence ++ nl ++ trim (dump d) ++ nl ++ fence ++ nl ++ endWithNewline body
  end.

(** On this fragment neither call throws. *)
Definition reference : Matter :=
  mkMatter (fun raw => Some (parse raw)) (fun content data => Some (stringify content data)).

End GrayMatter.

(* ================================================================== *)
(** ** The related-links pass after each batch: [addRelatedLinks]       *)
(* ================================================================== *)

Module Related.
Import Files.

(** An element of [postMetas]. *)
Record PostMeta := mkMeta {
  slug : jsstring;
  title : jsstring;
  cluster : jsstring;
  mdxFilePath : jsstring
}.

(** [Math.random()], as the sequence of the draws still to come: a draw
    [r] stands for any number whose [Math.floor(r' * (i + 1))] is
    [r mod (i + 1)], and an exhausted sequence draws 0. *)
Definition draws := list nat.

Definition draw (rnd : draws) : nat * draws :=
  match rnd with
  | [] => (0, [])
  | r :: rest => (r, rest)
  end.

Fixpoint setNth {A : Type} (l : list A) (i : nat) (x : A) : list A :=
  match l, i with
  | [], _ => []
  | _ :: l', O => x :: l'
  | y :: l', S i' => y :: setNth l' i' x
  end.

(** [[a[i], a[j]] = [a[j], a[i]]], both indices within the array. *)
Definition swap {A : Type} (a : list A) (i j : nat) : list A :=
  match nth_error a i, nth_error a j with
  | Some x, Some y => setNth (setNth a i y) j x
  | _, _ => a
  end.

(** The loop [for (let i = a.length - 1; i > 0; i--)], from index [i] down. *)
Fixpoint shuffleFrom {A : Type} (i : nat) (a : list A) (rnd : draws) : list A * draws :=
  match i with
  | O => (a, rnd)
  | S i' =>
      let (r, rnd') := draw rnd in
      let j := r mod (i + 1) in
      shuffleFrom i' (swap a i j) rnd'
  end.

Definition shuffle {A : Type} (arr : list A) (rnd : draws) : list A * draws :=
  shuffleFrom (length arr - 1) arr rnd.

(** [`\n\n---\n\n### Related in ${cluster}\n\n${links}\n`]. *)
Definition relatedBlock (cluster : jsstring) (picks : list PostMeta) : jsstring :=
  let links :=
    join nl (map (fun p => js "- [" ++ title p ++ js "](/" ++ slug p ++ js "/)") picks) in
  nl2 ++ js "---" ++ nl2 ++ js "### Related in " ++ cluster ++ nl2 ++ links ++ nl.

(** One turn of the inner loop over the metas of a cluster. [None] is the
    rejection of [fsp.readFile] when the file does not exist. *)
Definition relateOne (cluster : jsstring) (list : list PostMeta) (meta : PostMeta)
    (st : store * draws) : option (store * draws) :=
  let (fs, rnd) := st in
  let others := filter (fun m => negb (JS.eqb (slug m) (slug meta))) list in
  let (shuffled, rnd') := shuffle others rnd in
  let picks := slice shuffled 0 3 in
  match picks with
  | [] => Some (fs, rnd')
  | _ :: _ =>
      match readFile fs (mdxFilePath meta) with
      | None => None
      | Some original =>
          Some (writeFile fs (mdxFilePath meta) (original ++ relatedBlock cluster picks),
                rnd')
      end
  end.

Definition relateStep (cluster : jsstring) (list : list PostMeta)
    (acc : option (store * draws)) (meta : PostMeta) : option (store * draws) :=
  match acc with
  | None => None
  | Some st => relateOne cluster list meta st
  end.

(** [for (const [cluster, list] of byCluster) for (const meta of list) ...]. *)
Definition relateCluster (acc : option (store * draws))
    (entry : jsstring * list PostMeta) : option (store * draws) :=
  fold_left (relateStep (fst entry) (snd entry)) (snd entry) acc.

Definition addRelatedLinks (postMetas : list PostMeta) (st : store * draws)
  : option (store * draws) :=
  fold_left relateCluster (groupBy cluster postMetas) (Some st).

(** [fs'] has the files of [fs], each with its text as it was, possibly
    with more text after it. *)
Definition extends (fs fs' : store) : Prop :=
  forall p,
    (readFile fs p = None /\ readFile fs' p = None) \/
    (exists text more, readFile fs p = Some text /\ readFile fs' p = Some (text ++ more)).

End Related.

(* ================================================================== *)
(** ** A small document set                                             *)
(* ================================================================== *)

(** Two documents of one cluster, as [processBatch] writes them, with the
    metas it collects for them. *)
Module Sample.

Definition hero : jsstring := nl ++ js "<section>hero</section>" ++ nl.

Definition body : jsstring :=
  js "## One" ++ nl2 ++ js "- a" ++ nl2 ++ js "## Two" ++ nl2 ++ js "text".

Definition frontmatter1 : list (jsstring * Assembler.fmValue) :=
  Assembler.frontmatterOf (js "Cat Food") (js "cat-food") (js "2024-01-01")
    (js "All about cat food") [js "cat food"; js "cats"]
    (js "/images/cat-food/cover.webp") (js "Cats").

Definition frontmatter2 : list (jsstring * Assembler.fmValue) :=
  Assembler.frontmatterOf (js "Cat Toys") (js "cat-toys") (js "2024-01-01")
    (js "All about cat toys") [js "cat toys"; js "cats"]
    (js "/images/cat-toys/cover.webp") (js "Cats").

Definition path1 : jsstring := js "content/cats/cat-food.mdx".
Definition path2 : jsstring := js "content/cats/cat-toys.mdx".

Definition written : Files.store :=
  [ (path1, Assembler.mdxContent frontmatter1 hero body);
    (path2, Assembler.mdxContent frontmatter2 hero body) ].

Definition metas : list Related.PostMeta :=
  [ Related.mkMeta (js "cat-food") (js "Cat Food") (js "Cats") path1;
    Related.mkMeta (js "cat-toys") (js "Cat Toys") (js "Cats") path2 ].

(** The store after one, and after two, runs of the related-links pass. *)
Definition related1 : Files.store :=
  match Related.addRelatedLinks metas (written, []) with
  | Some (fs, _) => fs
  | None => []
  end.


(** The first document after one run of the related-links pass. *)
Definition file1 : jsstring * jsstring := hd ([], []) related1.

End Sample.

(** Three documents written by hand: [a.mdx], whose front matter gives the
    slug only and whose body opens with a fenced block of its own;
    [b.mdx], which names no cluster either; [x.mdx], alone in cluster C.
    [once] and [twice] are the link pass run on them once and twice, on an
    English-locale host. *)
Module Regroup.

Definition pathA : jsstring := js "content/a.mdx".
Definition pathB : jsstring := js "content/b.mdx".
Definition pathX : jsstring := js "content/x.mdx".

Definition textA : jsstring :=
  js "---" ++ nl ++ js "slug: a" ++ nl ++ js "---" ++ nl
  ++ js "---" ++ nl ++ js "cluster: C" ++ nl ++ js "---" ++ nl
  ++ js "Body of a" ++ nl.

Definition textB : jsstring :=
  js "---" ++ nl ++ js "slug: b" ++ nl ++ js "---" ++ nl ++ js "Body of b" ++ nl.

Definition textX : jsstring :=
  js "---" ++ nl ++ js "slug: x" ++ nl ++ js "cluster: C" ++ nl ++ js "---" ++ nl
  ++ js "Body of x" ++ nl.

Definition files : Files.store := [(pathA, textA); (pathB, textB); (pathX, textX)].

Definition once : Files.store * bool :=
  Linker.applyInternalLinks (host := Linker.english) GrayMatter.reference files.

Definition twice : Files.store * bool :=
  Linker.applyInternalLinks (host := Linker.english) GrayMatter.reference (fst once).

End Regroup.

(* ================================================================== *)
(** ** [main]: the keyword count and the batch loop                     *)
(* ================================================================== *)

Module Batching.

(** [for (const c of plan) totalKeywords += (c.keywords?.length || 0)]. *)
Definition totalKeywords (plan : list Planner.Cluster) : Z :=
  fold_left
    (fun total c => (total + Z.of_nat (length (Planner.keywordsOrEmpty c)))%Z)
    plan 0%Z.

(** [for (let i = 0; i < targetTasks.length; i += batchSize)
       { const batch = targetTasks.slice(i, i + batchSize); ... }],
    from index [i] on: the batches handed to [processBatch], in order.
    [fuel] bounds the number of turns; [None] says the loop was still
    running when it ran out. *)
Fixpoint batchesFrom {A : Type} (fuel : nat) (tasks : list A) (batchSize i : Z)
  : option (list (list A)) :=
  if (i <? Z.of_nat (length tasks))%Z then
    match fuel with
    | O => None
    | S fuel' =>
        match batchesFrom fuel' tasks batchSize (i + batchSize) with
        | Some rest => Some (slice tasks i (i + batchSize) :: rest)
        | None => None
        end
    end
  else Some [].

Definition batches {A : Type} (fuel : nat) (tasks : list A) (batchSize : Z)
  : option (list (list A)) :=
  batchesFrom fuel tasks batchSize 0.

End Batching.

(** Six documents: five of one cluster and one alone in another. *)
Module Litter.

Definition metaOf (slug title cluster : jsstring) : Related.PostMeta :=
  Related.mkMeta slug title cluster (js "content/" ++ slug ++ js ".mdx").

Definition metas : list Related.PostMeta :=
  [ metaOf (js "cat-a") (js "Cat A") (js "Cats");
    metaOf (js "cat-b") (js "Cat B") (js "Cats");
    metaOf (js "dog-a") (js "Dog A") (js "Dogs");
    metaOf (js "cat-c") (js "Cat C") (js "Cats");
    metaOf (js "cat-d") (js "Cat D") (js "Cats");
    metaOf (js "cat-e") (js "Cat E") (js "Cats") ].

Definition written : Files.store :=
  map (fun m => (Related.mdxFilePath m, js "# " ++ Related.title m ++ nl)) metas.

Definition rnd : Related.draws := [2; 0; 1; 3; 1; 1; 0; 2; 2].

(** The store, and the draws left, after the related-links pass. *)
Definition related : Files.store * Related.draws :=
  match Related.addRelatedLinks metas (written, rnd) with
  | Some st => st
  | None => ([], [])
  end.

End Litter.

(** Four parsed documents, three of one cluster, with the blocks the link
    pass prepares for the first on an English-locale host. *)
Module Shelf.
Import Linker.

Definition doc (slug title cluster : jsstring) (keywords : list jsstring) : Post :=
  mkPost (js "content/" ++ slug ++ js ".mdx") slug title cluster keywords [] [].

Definition posts : list Post :=
  [ doc (js "cat-food") (js "Cat Food Guide") (js "Cats") [js "cat food"];
    doc (js "dog-food") (js "Dog Food Guide") (js "Dogs") [js "dog food"];
    doc (js "cat-toys") (js "Cat Toys") (js "Cats") [js "cat toys"];
    doc (js "cat-beds") (js "Cat Beds and Food") (js "Cats") [js "cat beds"] ].

Definition blocks : jsstring * jsstring * jsstring :=
  match blocksFor (host := english) (groupByCluster posts)
          (doc (js "cat-food") (js "Cat Food Guide") (js "Cats") [js "cat food"]) with
  | Some b => b
  | None => ([], [], [])
  end.

End Shelf.

(** A word as [normalizeToken] leaves it: one or more units of [[a-z0-9]]. *)
Module Words.

Definition isWord (w : jsstring) : Prop :=
  w <> [] /\ forall c, In c w -> Linker.isAlnum c = true.

End Words.

(** Programs all of whose calls to [run] are made from a task's own
    synchronous code, none from a promise job (the action [Fulfil]), and
    the invariant they keep. The pipeline is not one of them: it reaches
    [run] after an [await], that is from a promise job. *)
Module Direct.
Import Semaphore.

Definition direct (a : action) : bool :=
  match a with
  | Fulfil _ => false
  | _ => true
  end.

Definition isFinally (j : job) : bool :=
  match j with Finally _ => true | _ => false end.

Definition isResume (j : job) : bool :=
  match j with Resume _ => true | _ => false end.

Definition isUserCall (j : job) : bool :=
  match j with UserCall _ => true | _ => false end.

(** Every body in flight and every pending [finally] holds a slot that
    [count] still counts, and every woken waiter has a slot kept free. *)
Definition safe (w : world) : Prop :=
  forallb (fun j => negb (isUserCall j)) (jobs w) = true /\
  (Z.of_nat (length (inBody w)) + Z.of_nat (length (filter isFinally (jobs w)))
   <= count (state w))%Z /\
  (count (state w) + Z.of_nat (length (filter isResume (jobs w)))
   <= max (state w))%Z.

End Direct.

(* ================================================================== *)
(** ** [composeMdxBody] and the mock outline                            *)
(* ================================================================== *)

Module Composer.

(** A section of the outline. The optional strings [imagePrompt] and
    [alt] are read with [||], for which a missing value and the empty
    string are the same: both are the empty string here. [points] is
    [None] when it is not an array. *)
Record Sec := mkSec {
  title : jsstring;
  points : option (list jsstring);
  suggestImage : bool;
  imagePrompt : jsstring;
  alt : jsstring
}.

(** [a || b] on strings. *)
Definition orStr (a b : jsstring) : jsstring := if nonEmpty a then a else b.

(** The em dash of the prompts. *)
Definition emDash : unit16 := 8212%N.

(** [`](/images/${slug}/img${imgIndex}.webp)`], the end of an image line. *)
Definition imageTarget (slug : jsstring) (imgIndex : nat) : jsstring :=
  js "](/images/" ++ slug ++ js "/img" ++ Linker.decimal (Z.of_nat imgIndex) ++ js ".webp)".

(** [`\n![${alt}](/images/${slug}/img${imgIndex}.webp)\n\n`]. *)
Definition imageLine (alt slug : jsstring) (imgIndex : nat) : jsstring :=
  nl ++ js "![" ++ alt ++ imageTarget slug imgIndex ++ nl2.

(** One turn of [outline.sections.forEach]: the state is [md] and
    [imagePrompts]. *)
Definition sectionStep (slug : jsstring) (st : jsstring * list jsstring) (sec : Sec)
  : jsstring * list jsstring :=
  let (md, imagePrompts) := st in
  let md := md ++ nl2 ++ js "## " ++ title sec ++ nl2 in
  let md :=
    match points sec with
    | Some ps => md ++ join nl (map (fun p => js "- " ++ p) ps) ++ nl2
    | None => md
    end in
  if suggestImage sec then
    let p := orStr (imagePrompt sec)
               (title sec ++ js " " ++ [emDash]
                ++ js " detailed, editorial style illustrative image, coherent with article tone.") in
    let alt := orStr (alt sec) (title sec) in
    let imagePrompts := imagePrompts ++ [p] in
    let imgIndex := length imagePrompts in
    (md ++ imageLine alt slug imgIndex, imagePrompts)
  else (md, imagePrompts).

(** [outline.sections[Math.min(i, outline.sections.length - 1)]?.title || ''],
    the empty string when the outline has no section. *)
Definition lastTitleAt (sections : list Sec) (i : nat) : jsstring :=
  match nth_error sections (Nat.min i (length sections - 1)) with
  | Some sec => title sec
  | None => []
  end.

(** The loop over [parts], from index [i] on; [total] is [parts.length]. *)
Fixpoint partsFrom (sections : list Sec) (keyword slug : jsstring) (total : nat)
    (parts : list jsstring) (i : nat) (st : jsstring * list jsstring)
  : jsstring * list jsstring :=
  match parts with
  | [] => st
  | part :: rest =>
      let (md, imagePrompts) := st in
      let md := md ++ nl2 ++ part ++ nl2 in
      let st' :=
        if i <? total - 1 then
          let lastTitle := lastTitleAt sections i in
          let prompt :=
            if nonEmpty lastTitle
            then lastTitle ++ js " " ++ [emDash]
                 ++ js " contextual editorial illustration, consistent style"
            else js "Illustration related to " ++ keyword ++ js " " ++ [emDash]
                 ++ js " contextual editorial style" in
          let imagePrompts := imagePrompts ++ [prompt] in
          let imgIndex := length imagePrompts in
          (md ++ imageLine (orStr lastTitle (js "Illustration for " ++ keyword)) slug imgIndex,
           imagePrompts)
        else (md, imagePrompts) in
      partsFrom sections keyword slug total rest (S i) st'
  end.

(** [md] and [imagePrompts] before the final [md.trim()]. [sections] is
    [None] when [outline?.sections] is not an array. *)
Definition composeRaw (sections : option (list Sec)) (parts : list jsstring)
    (keyword slug : jsstring) : jsstring * list jsstring :=
  let secs := match sections with Some l => l | None => [] end in
  partsFrom secs keyword slug (length parts) parts 0
    (fold_left (sectionStep slug) secs ([], [])).

(** [{ mdxBody: md.trim(), imagePrompts }]. *)
Definition composeMdxBody (sections : option (list Sec)) (parts : list jsstring)
    (keyword slug : jsstring) : jsstring * list jsstring :=
  let (md, imagePrompts) := composeRaw sections parts keyword slug in
  (Linker.trim md, imagePrompts).

(** The inline-image loop of [processBatch]: the names of the files it
    writes, [img${idx + 1}.webp] for each index of [imagePrompts]. *)
Definition inlineImageFiles (imagePrompts : list jsstring) : list jsstring :=
  map (fun idx => js "img" ++ Linker.decimal (Z.of_nat (idx + 1)) ++ js ".webp")
      (seq 0 (length imagePrompts)).

End Composer.

(* ================================================================== *)
(** ** [MockOpenAIClient]                                               *)
(* ================================================================== *)

Module Mock.

(** [generateSitePlan(niche, { clustersTarget })]. *)
Definition generateSitePlan (niche : jsstring) (clustersTarget : Z) : list Planner.Cluster :=
  map (fun i =>
         Planner.mkCluster
           (niche ++ js " Cluster " ++ Linker.decimal (Z.of_nat (i + 1)))
           (Some (map (fun k =>
                         niche ++ js " topic " ++ Linker.decimal (Z.of_nat (i + 1))
                           ++ js "." ++ Linker.decimal (Z.of_nat (k + 1)))
                      (seq 0 5))))
      (seq 0 (Z.to_nat clustersTarget)).

(** [generateOutline({ keyword })]: six sections, an image suggested for
    every second one. *)
Definition generateOutline (keyword : jsstring) : list Composer.Sec :=
  map (fun i =>
         Composer.mkSec
           (keyword ++ js " Section " ++ Linker.decimal (Z.of_nat (i + 1)))
           (Some [ js "Key point A with actionable detail.";
                   js "Key point B with nuance.";
                   js "Key point C with example." ])
           (i mod 2 =? 1)
           [] [])
      (seq 0 6).

End Mock.

(* ================================================================== *)
(** ** [slugifyString]                                                  *)
(* ================================================================== *)

Module Slug.

Definition hyphen : unit16 := 45%N.

(** [replace(/-+/g, '-')]: every run of hyphens becomes one hyphen.
    [inRun] says the previous unit was a hyphen. *)
Fixpoint collapse (s : jsstring) (inRun : bool) : jsstring :=
  match s with
  | [] => []
  | c :: s' =>
      if (c =? hyphen)%N then
        if inRun then collapse s' true else hyphen :: collapse s' true
      else c :: collapse s' false
  end.

Definition stripLeading (s : jsstring) : jsstring :=
  match s with
  | c :: s' => if (c =? hyphen)%N then s' else s
  | [] => []
  end.

(** [replace(/^-|-$/g, '')]: one hyphen is taken from the start, then one
    from the end of what is left. *)
Definition stripEnds (s : jsstring) : jsstring :=
  rev (stripLeading (rev (stripLeading s))).

Definition tidy (s : jsstring) : jsstring := stripEnds (collapse s false).

Section Package.

(** The [slugify] package with the options the code passes, applied to
    [String(input || '')]. *)
Variable slugify : jsstring -> jsstring.

Definition slugifyString (input : jsstring) : jsstring := tidy (slugify input).

End Package.

End Slug.

(* ================================================================== *)
(** ** [OpenAIClient._completeJson]: the text handed to [JSON.parse]    *)
(* ================================================================== *)

Module JsonReply.

(** Last position at or after [pos] (the position of [hay]'s head) where
    [needle] occurs, [-1] when there is none. *)
Fixpoint searchLast (needle hay : jsstring) (pos : nat) : Z :=
  match hay with
  | [] => if isPrefix needle [] then Z.of_nat pos else (-1)%Z
  | _ :: hay' =>
      let later := searchLast needle hay' (S pos) in
      if (later =? -1)%Z
      then (if isPrefix needle hay then Z.of_nat pos else (-1)%Z)
      else later
  end.

(** [hay.lastIndexOf(needle)]. *)
Definition lastIndexOf (hay needle : jsstring) : Z := searchLast needle hay 0.

(** The [body] of [_completeJson]. *)
Definition jsonBody (text : jsstring) : jsstring :=
  let start := indexOf text (js "[") 0 in
  let brace := indexOf text (js "{") 0 in
  let jsonStart := if (start >=? 0)%Z then start else brace in
  let last := Z.max (lastIndexOf text (js "]")) (lastIndexOf text (js "}")) in
  if (jsonStart >=? 0)%Z && (last >=? 0)%Z then slice text jsonStart (last + 1) else text.

Section Parser.

(** [JSON.parse]: [None] when it throws. *)
Variable Value : Type.
Variable parse : jsstring -> option Value.
Variable emptyArray : Value.

(** [try { ... return JSON.parse(body) } catch (e) { return [] }]. *)
Definition completeJson (text : jsstring) : Value :=
  match parse (jsonBody text) with
  | Some v => v
  | None => emptyArray
  end.

End Parser.

End JsonReply.

(* ================================================================== *)
(** ** The RSS endpoint: the items of the feed                          *)
(* ================================================================== *)

Module Rss.
Import Linker.

(** A loaded module: its [frontmatter], [None] when it has none. *)
Definition Loaded := option Data.

Definition field (m : Loaded) (k : jsstring) : jsval :=
  match m with
  | Some d => getProp d k
  | None => VUndefined
  end.

Record Item := mkItem {
  title : jsval;
  date : jsval;
  description : jsval;
  link : jsstring
}.

(** The mapping function; [date] is the argument of [new Date(...)], [now]
    standing for [Date.now()]. *)
Definition itemOf (now : Z) (m : Loaded) : Item :=
  {| title := orElse (field m (js "title")) (field m (js "slug"));
     date := orElse (field m (js "date")) (VNum now);
     description := orElse (field m (js "description")) (VStr []);
     link := js "/" ++ ToString (field m (js "slug")) ++ js "/" |}.

(** [loaded.map(...).filter((i) => !!i.link)]. *)
Definition items (now : Z) (loaded : list Loaded) : list Item :=
  filter (fun i => nonEmpty (link i)) (map (itemOf now) loaded).

End Rss.

(* ================================================================== *)
(** ** [parseArgs] and the command line the UI server builds            *)
(* ================================================================== *)

Module Cli.

(** [s.startsWith(prefix)]. *)
Definition startsWith (s prefix : jsstring) : bool := isPrefix prefix s.

(** [s.split(sep)] for a separator of one unit; [cur] is the piece being
    read. *)
Fixpoint splitUnit (sep : unit16) (s cur : jsstring) : list jsstring :=
  match s with
  | [] => [cur]
  | c :: s' =>
      if (c =? sep)%N then cur :: splitUnit sep s' []
      else splitUnit sep s' (cur ++ [c])
  end.

(** The object [args]: the property [_], which starts as an array and
    which an option named [_] replaces by a string, and the other
    properties set by options. *)
Record Args := mkArgs {
  under : list jsstring + jsstring;
  options : JsMap jsstring
}.

(** [args[key] = next]. Assigning a string to [__proto__] has no effect. *)
Definition setOption (args : Args) (key value : jsstring) : Args :=
  if JS.eqb key (js "_") then mkArgs (inr value) (options args)
  else if JS.eqb key (js "__proto__") then args
  else mkArgs (under args) (mapSet (options args) key value).

(** The loop of [parseArgs] over the tokens from [argv[2]] on. [None] is
    the [TypeError] of [args._.push] once [_] is a string. *)
Fixpoint parseTokens (tokens : list jsstring) (args : Args) : option Args :=
  match tokens with
  | [] => Some args
  | token :: rest =>
      if startsWith token (js "--") then
        let pieces := splitUnit 61%N (skipn 2 token) [] in
        let key := hd [] pieces in
        match nth_error pieces 1 with
        | Some val => parseTokens rest (setOption args key val)
        | None =>
            match rest with
            | next :: rest' =>
                if nonEmpty next && negb (startsWith next (js "--"))
                then parseTokens rest' (setOption args key next)
                else parseTokens rest (setOption args key (js "true"))
            | [] => Some (setOption args key (js "true"))
            end
        end
      else
        match under args with
        | inl l => parseTokens rest (mkArgs (inl (l ++ [token])) (options args))
        | inr _ => None
        end
  end.

Definition parseArgs (argv : list jsstring) : option Args :=
  parseTokens (skipn 2 argv) (mkArgs (inl []) []).

(** The argument list of the UI server's [/api/generate] handler, after
    the script path: [kw], [max], [batch] and [cc] are the strings
    [String(...)] gives, the booleans the truthiness of the body's fields. *)
Definition uiArgs (kw max batch cc : jsstring) (images mock clean : bool)
  : list jsstring :=
  [kw; js "--max-posts"; max; js "--batch"; batch; js "--concurrency"; cc]
    ++ (if images then [] else [js "--no-images"])
    ++ [js "--no-deploy"]
    ++ (if mock then [js "--mock"; js "true"] else [])
    ++ (if clean then [js "--clean"; js "true"] else []).

(** A token that is read as the value of the option before it. *)
Definition isValue (s : jsstring) : bool := nonEmpty s && negb (startsWith s (js "--")).

End Cli.

(* ================================================================== *)
(** ** [OpenAIClient.generateContentPart]: the context in the prompt   *)
(* ================================================================== *)

Module Prompt.

(** The line of the prompt that shows the earlier content:
    [previousContent ? `Previously written content (for context, do not
    repeat): ${previousContent.slice(0, 4000)}` : '']. *)
Definition contextLine (previousContent : jsstring) : jsstring :=
  if nonEmpty previousContent
  then js "Previously written content (for context, do not repeat): "
       ++ slice previousContent 0 4000
  else [].

End Prompt.

(** The occurrences of a text in another, as the list of their positions
    in increasing order. *)
Module Occurrences.

Definition positions (hay needle : jsstring) : list nat :=
  filter (fun j => isPrefix needle (skipn j hay)) (seq 0 (S (length hay))).

(** The position of the [n]-th occurrence, counted from 1; [-1] when
    there are fewer than [n] (and for [n = 0]). *)
Definition nthPosition (hay needle : jsstring) (n : nat) : Z :=
  match n with
  | O => (-1)%Z
  | S k =>
      match nth_error (positions hay needle) k with
      | Some j => Z.of_nat j
      | None => (-1)%Z
      end
  end.

End Occurrences.

(* ================================================================== *)
(** * Theorems                                                         *)
(* ================================================================== *)

(** ** Facts about the built-ins *)

Lemma slice_prefix {A : Type} (l : list A) (n : Z) :
  (0 <= n)%Z -> slice l 0 n = firstn (Z.to_nat n) l.
Proof.
  intros Hn. unfold slice, relIndex.
  assert (H0 : (0 <? 0)%Z = false) by reflexivity. rewrite H0.
  destruct (n <? 0)%Z eqn:E; [apply Z.ltb_lt in E; lia|].
  rewrite (Z.min_l 0) by lia. simpl skipn. rewrite Z.sub_0_r.
  destruct (Z.le_gt_cases n (Z.of_nat (length l))) as [Hle|Hgt].
  - rewrite Z.min_l by lia. reflexivity.
  - rewrite Z.min_r by lia. rewrite Nat2Z.id.
    rewrite firstn_all. symmetry. apply firstn_all2. lia.
Qed.

(** ** Strings: decidable equality *)

Lemma eqb_eq (a b : jsstring) : JS.eqb a b = true <-> a = b.
Proof.
  revert b. induction a as [|x a IH]; intros [|y b]; simpl; split; intros H;
    try reflexivity; try discriminate.
  - apply andb_true_iff in H as [Hx Hab]. apply N.eqb_eq in Hx.
    apply IH in Hab. now subst.
  - injection H as -> ->. rewrite N.eqb_refl. simpl. now apply IH.
Qed.

Lemma eqb_neq (a b : jsstring) : JS.eqb a b = false <-> a <> b.
Proof.
  split.
  - intros H E. apply eqb_eq in E. congruence.
  - intros H. destruct (JS.eqb a b) eqn:E; [|reflexivity].
    apply eqb_eq in E. contradiction.
Qed.

(** ** Searching in strings *)

Section SearchFacts.

Lemma isPrefix_iff (needle hay : jsstring) :
  isPrefix needle hay = true <-> exists rest, hay = needle ++ rest.
Proof.
  revert hay. induction needle as [|x needle IH]; intros hay; simpl.
  - split; [intros _; now exists hay | reflexivity].
  - destruct hay as [|y hay].
    + split; [discriminate | intros [rest H]; discriminate].
    + rewrite andb_true_iff, N.eqb_eq, IH. split.
      * intros [-> [rest ->]]. now exists rest.
      * intros [rest H]. injection H as -> ->. split; [reflexivity | now exists rest].
Qed.

Lemma isPrefix_app (needle rest : jsstring) : isPrefix needle (needle ++ rest) = true.
Proof. apply isPrefix_iff. now exists rest. Qed.

(** What [search] returns: [-1] when [needle] occurs at no offset of [hay],
    otherwise [pos] plus the least offset at which it occurs. *)
Lemma search_spec (needle hay : jsstring) (pos : nat) :
  (search needle hay pos = (-1)%Z /\
   forall d, d <= length hay -> isPrefix needle (skipn d hay) = false)
  \/
  (exists d, search needle hay pos = Z.of_nat (pos + d) /\ d <= length hay /\
             isPrefix needle (skipn d hay) = true /\
             forall d', d' < d -> isPrefix needle (skipn d' hay) = false).
Proof.
  revert pos. induction hay as [|y hay IH]; intros pos.
  - simpl. destruct (isPrefix needle []) eqn:E.
    + right. exists 0. rewrite Nat.add_0_r. repeat split; auto. intros d' Hd'. lia.
    + left. split; [reflexivity|]. intros d Hd. simpl in Hd.
      assert (d = 0) by lia. subst. exact E.
  - cbn [search]. destruct (isPrefix needle (y :: hay)) eqn:E.
    + right. exists 0. rewrite Nat.add_0_r. repeat split; auto.
      * simpl. lia.
      * intros d' Hd'. lia.
    + destruct (IH (S pos)) as [[Hs Hnone] | [d [Hs [Hd [Hat Hmin]]]]].
      * left. split; [assumption|]. intros [|d] Hd; [exact E|].
        simpl. apply Hnone. simpl in Hd. lia.
      * right. exists (S d). repeat split.
        -- rewrite Hs. f_equal. lia.
        -- simpl. lia.
        -- exact Hat.
        -- intros [|d'] Hd'; [exact E|]. simpl. apply Hmin. lia.
Qed.

Lemma occursAt_split (hay needle : jsstring) (i : Z) :
  occursAt hay needle i <->
  exists pre post, hay = pre ++ needle ++ post /\ Z.of_nat (length pre) = i.
Proof.
  unfold occursAt. split.
  - intros [Hi Hp]. apply isPrefix_iff in Hp as [post Hp].
    exists (firstn (Z.to_nat i) hay), post. split.
    + rewrite <- Hp. now rewrite firstn_skipn.
    + rewrite length_firstn. lia.
  - intros [pre [post [-> <-]]]. split.
    + rewrite length_app. lia.
    + rewrite Nat2Z.id. rewrite skipn_app, skipn_all, Nat.sub_diag. simpl.
      apply isPrefix_app.
Qed.

(** [indexOf] finds the first occurrence at or after [from]. *)
Lemma indexOf_found (hay needle : jsstring) (from k : Z) :
  indexOf hay needle from = k -> k <> (-1)%Z ->
  (Z.min from (Z.of_nat (length hay)) <= k)%Z /\ occursAt hay needle k /\
  forall j, (from <= j < k)%Z -> ~ occursAt hay needle j.
Proof.
  unfold indexOf. intros Hk Hne.
  set (len := Z.of_nat (length hay)) in *.
  set (s := Z.to_nat (Z.min (Z.max from 0) len)) in *.
  assert (Hs : s <= length hay) by (unfold s, len; lia).
  destruct (search_spec needle (skipn s hay) s) as [[Hnone _] | [d [Hd [Hlen [Hat Hmin]]]]].
  - congruence.
  - rewrite Hd in Hk. subst k. rewrite length_skipn in Hlen.
    rewrite skipn_skipn in Hat.
    repeat split.
    + unfold s, len. lia.
    + lia.
    + unfold len in *. lia.
    + rewrite Nat2Z.id. now rewrite Nat.add_comm.
    + intros j Hj [Hj0 Hocc].
      assert (Hsj : s <= Z.to_nat j) by (unfold s, len; lia).
      specialize (Hmin (Z.to_nat j - s)).
      rewrite skipn_skipn in Hmin.
      replace (Z.to_nat j - s + s) with (Z.to_nat j) in Hmin by lia.
      rewrite Hmin in Hocc; [discriminate | lia].
Qed.

Lemma indexOf_none (hay needle : jsstring) (from : Z) :
  indexOf hay needle from = (-1)%Z ->
  forall j, (from <= j)%Z -> ~ occursAt hay needle j.
Proof.
  unfold indexOf. intros Hk j Hj [Hj0 Hocc].
  set (len := Z.of_nat (length hay)) in *.
  set (s := Z.to_nat (Z.min (Z.max from 0) len)) in *.
  assert (Hs : s <= Z.to_nat j) by (unfold s, len; lia).
  destruct (search_spec needle (skipn s hay) s) as [[_ Hnone] | [d [Hd _]]].
  - specialize (Hnone (Z.to_nat j - s)). rewrite skipn_skipn in Hnone.
    replace (Z.to_nat j - s + s) with (Z.to_nat j) in Hnone by lia.
    rewrite Hnone in Hocc; [discriminate|]. rewrite length_skipn. unfold len in *. lia.
  - rewrite Hd in Hk. lia.
Qed.

Lemma includes_iff (hay needle : jsstring) :
  includes hay needle = true <-> exists pre post, hay = pre ++ needle ++ post.
Proof.
  unfold includes. rewrite negb_true_iff, Z.eqb_neq. split.
  - intros Hne.
    destruct (indexOf_found hay needle 0 _ eq_refl Hne) as [_ [Hocc _]].
    apply occursAt_split in Hocc as [pre [post [H _]]]. now exists pre, post.
  - intros [pre [post H]] Hnone.
    apply (indexOf_none hay needle 0 Hnone (Z.of_nat (length pre))); [lia|].
    apply occursAt_split. now exists pre, post.
Qed.

Lemma includes_false (hay needle : jsstring) :
  includes hay needle = false <-> forall pre post, hay <> pre ++ needle ++ post.
Proof.
  split.
  - intros H pre post E.
    assert (includes hay needle = true) by (apply includes_iff; now exists pre, post).
    congruence.
  - intros H. destruct (includes hay needle) eqn:E; [|reflexivity].
    apply includes_iff in E as [pre [post E]]. now destruct (H pre post).
Qed.

Lemma includes_app_l (a b needle : jsstring) :
  includes a needle = true -> includes (a ++ b) needle = true.
Proof.
  rewrite !includes_iff. intros [pre [post ->]].
  exists pre, (post ++ b). now rewrite <- !app_assoc.
Qed.

Lemma includes_app_r (a b needle : jsstring) :
  includes b needle = true -> includes (a ++ b) needle = true.
Proof.
  rewrite !includes_iff. intros [pre [post ->]].
  exists (a ++ pre), post. now rewrite <- !app_assoc.
Qed.

End SearchFacts.

(** ** Maps and grouping *)

Section GroupFacts.
Import Linker.

Lemma eqb_refl (a : jsstring) : JS.eqb a a = true.
Proof. now apply eqb_eq. Qed.

Lemma mapGet_mapSet {V : Type} (m : JsMap V) (k k' : jsstring) (v : V) :
  mapGet (mapSet m k v) k' = if JS.eqb k k' then Some v else mapGet m k'.
Proof.
  induction m as [|[k0 v0] m IH]; simpl.
  - reflexivity.
  - destruct (JS.eqb k0 k) eqn:E0; simpl.
    + apply eqb_eq in E0. subst k0. destruct (JS.eqb k k'); reflexivity.
    + destruct (JS.eqb k0 k') eqn:E1; [|exact IH].
      apply eqb_eq in E1. subst k0.
      destruct (JS.eqb k k') eqn:E2; [|reflexivity].
      apply eqb_eq in E2. subst k. rewrite eqb_refl in E0. discriminate.
Qed.

Lemma groupBy_from {A : Type} (key : A -> jsstring) (items seen : list A)
    (m : JsMap (list A)) :
  (forall c, getOrEmpty m c = filter (hasKey key c) seen) ->
  forall c,
    getOrEmpty
      (fold_left
         (fun byCluster x =>
            let list := getOrEmpty byCluster (key x) in
            mapSet byCluster (key x) (list ++ [x]))
         items m) c
    = filter (hasKey key c) (seen ++ items).
Proof.
  revert seen m. induction items as [|x items IH]; intros seen m Hm c.
  - simpl. rewrite app_nil_r. apply Hm.
  - cbn [fold_left].
    replace (seen ++ x :: items) with ((seen ++ [x]) ++ items)
      by (rewrite <- app_assoc; reflexivity).
    apply IH. intros c'. unfold getOrEmpty at 1. rewrite mapGet_mapSet.
    rewrite filter_app. cbn [filter]. unfold hasKey at 2.
    destruct (JS.eqb (key x) c') eqn:E.
    + apply eqb_eq in E. subst c'. now rewrite Hm.
    + rewrite app_nil_r. apply Hm.
Qed.

(** [byCluster.get(c) || []] is the list of the items of cluster [c], in
    reading order. *)
Lemma groupBy_get {A : Type} (key : A -> jsstring) (items : list A) (c : jsstring) :
  getOrEmpty (groupBy key items) c = filter (hasKey key c) items.
Proof.
  unfold groupBy. apply (groupBy_from key items [] []). reflexivity.
Qed.

Lemma groupByCluster_get (posts : list Post) (c : jsstring) :
  getOrEmpty (groupByCluster posts) c = filter (inCluster c) posts.
Proof. apply groupBy_get. Qed.

Lemma clusterPostsOf_iff (posts : list Post) (post x : Post) :
  In x (clusterPostsOf (groupByCluster posts) post) <->
  In x posts /\ cluster x = cluster post /\ slug x <> slug post.
Proof.
  unfold clusterPostsOf. rewrite groupByCluster_get, !filter_In.
  unfold inCluster, hasKey. rewrite negb_true_iff, eqb_neq, eqb_eq. tauto.
Qed.

End GroupFacts.

Section MapFacts.

Variable V : Type.

Lemma mapSet_keys (m : JsMap V) (k : jsstring) (v : V) :
  map fst (mapSet m k v) = map fst m \/
  (~ In k (map fst m) /\ map fst (mapSet m k v) = map fst m ++ [k]).
Proof.
  induction m as [|[k0 v0] m IH]; cbn [mapSet map fst].
  - right. split; [intros [] | reflexivity].
  - destruct (JS.eqb k0 k) eqn:E; [now left|].
    destruct IH as [IH | [Hnot IH]].
    + left. cbn [map fst]. now rewrite IH.
    + right. split.
      * intros [H | H]; [|contradiction]. subst k0. now rewrite eqb_refl in E.
      * cbn [map fst app]. now rewrite IH.
Qed.

Lemma mapSet_NoDup (m : JsMap V) (k : jsstring) (v : V) :
  NoDup (map fst m) -> NoDup (map fst (mapSet m k v)).
Proof.
  intros Hnd. destruct (mapSet_keys m k v) as [-> | [Hnot ->]]; [assumption|].
  apply NoDup_app; [assumption | repeat constructor; intros [] |].
  intros x Hx [<- | []]. contradiction.
Qed.

Lemma mapGet_In (m : JsMap V) (c : jsstring) (v : V) :
  NoDup (map fst m) -> (In (c, v) m <-> mapGet m c = Some v).
Proof.
  induction m as [|[k0 v0] m IH]; cbn [map fst mapGet]; intros Hnd.
  - split; [intros [] | discriminate].
  - inversion Hnd as [|? ? Hnot Hnd']; subst.
    destruct (JS.eqb k0 c) eqn:E.
    + apply eqb_eq in E. subst k0. split.
      * intros [H | H]; [now injection H as -> |].
        exfalso. apply Hnot. now apply (in_map fst) in H.
      * intros H. injection H as ->. now left.
    + rewrite <- (IH Hnd'). split.
      * intros [H | H]; [|assumption]. injection H as -> _. now rewrite eqb_refl in E.
      * intros H. now right.
Qed.

End MapFacts.

Section GroupEntries.

Variable A : Type.
Variable key : A -> jsstring.

Lemma groupBy_invariant (items : list A) (m : JsMap (list A)) :
  NoDup (map fst m) -> (forall c l, In (c, l) m -> l <> []) ->
  let m' := fold_left
              (fun byCluster x =>
                 let list := getOrEmpty byCluster (key x) in
                 mapSet byCluster (key x) (list ++ [x]))
              items m in
  NoDup (map fst m') /\ (forall c l, In (c, l) m' -> l <> []).
Proof.
  revert m. induction items as [|x items IH]; intros m Hnd Hne; cbn [fold_left].
  - now split.
  - apply IH.
    + now apply mapSet_NoDup.
    + intros c l Hin. set (v := getOrEmpty m (key x) ++ [x]) in *.
      assert (Hnd' : NoDup (map fst (mapSet m (key x) v))) by now apply mapSet_NoDup.
      apply (mapGet_In _ _ _ _ Hnd') in Hin. rewrite mapGet_mapSet in Hin.
      destruct (JS.eqb (key x) c).
      * injection Hin as <-. unfold v. now destruct (getOrEmpty m (key x)).
      * apply (mapGet_In _ _ _ _ Hnd) in Hin. now apply (Hne c).
Qed.

Lemma groupBy_NoDup (items : list A) : NoDup (map fst (groupBy key items)).
Proof.
  unfold groupBy. apply (groupBy_invariant items []); [constructor | intros ? ? []].
Qed.

(** The entries of the grouping: one per cluster that occurs, holding the
    items of that cluster in reading order. *)
Lemma groupBy_entry (items : list A) (c : jsstring) (l : list A) :
  In (c, l) (groupBy key items) -> l = filter (hasKey key c) items.
Proof.
  intros Hin. apply (mapGet_In _ _ _ _ (groupBy_NoDup items)) in Hin.
  rewrite <- (groupBy_get key items c). unfold getOrEmpty. now rewrite Hin.
Qed.

Lemma groupBy_has_entry (items : list A) (x : A) :
  In x items ->
  In (key x, filter (hasKey key (key x)) items) (groupBy key items).
Proof.
  intros Hx. apply (mapGet_In _ _ _ _ (groupBy_NoDup items)).
  pose proof (groupBy_get key items (key x)) as Hget. unfold getOrEmpty in Hget.
  destruct (mapGet (groupBy key items) (key x)) as [l|] eqn:E.
  - now rewrite Hget.
  - exfalso. assert (Hin : In x (filter (hasKey key (key x)) items)).
    { apply filter_In. split; [assumption|]. unfold hasKey. apply eqb_refl. }
    rewrite <- Hget in Hin. destruct Hin.
Qed.

End GroupEntries.

(** ** Task Planner *)

Section PlannerFacts.
Import Planner.

Lemma push_keywords (c : jsstring) (ks : list jsstring) (acc : list Task) :
  fold_left (fun acc' keyword => acc' ++ [mkTask c keyword]) ks acc
  = acc ++ map (mkTask c) ks.
Proof.
  revert acc. induction ks as [|k ks IH]; intros acc; simpl.
  - now rewrite app_nil_r.
  - rewrite IH. now rewrite <- app_assoc.
Qed.

Lemma allTasks_from (plan : list Cluster) (acc : list Task) :
  fold_left
    (fun acc c =>
       fold_left (fun acc' keyword => acc' ++ [mkTask (cluster c) keyword])
                 (keywordsOrEmpty c) acc)
    plan acc
  = acc ++ pairsInOrder plan.
Proof.
  revert acc. induction plan as [|c plan IH]; intros acc; simpl.
  - now rewrite app_nil_r.
  - rewrite IH, push_keywords. now rewrite <- app_assoc.
Qed.

Lemma allTasks_flat (plan : list Cluster) : allTasks plan = pairsInOrder plan.
Proof. unfold allTasks. now rewrite allTasks_from. Qed.

(** C4. For every plan and every maximum [M >= 0], the task list has at most
    [M] tasks and is exactly the first [M] (cluster, keyword) pairs of the
    plan in cluster-major, keyword-minor order. *)
Theorem targetTasks_first_M (plan : list Cluster) (M : Z) :
  (0 <= M)%Z ->
  (Z.of_nat (length (targetTasks plan M)) <= M)%Z /\
  targetTasks plan M = firstn (Z.to_nat M) (pairsInOrder plan).
Proof.
  intros HM. unfold targetTasks.
  rewrite slice_prefix by assumption. rewrite allTasks_flat. split; [|reflexivity].
  pose proof (firstn_le_length (Z.to_nat M) (pairsInOrder plan)). lia.
Qed.

End PlannerFacts.

Lemma targetTasks_first_M_witness :
  let plan := [ Planner.mkCluster (js "A") (Some [js "a1"; js "a2"]);
                Planner.mkCluster (js "B") None;
                Planner.mkCluster (js "C") (Some [js "c1"; js "c2"]) ] in
  (Z.of_nat (length (Planner.targetTasks plan 3)) <= 3)%Z /\
  Planner.targetTasks plan 3 = firstn 3 (Planner.pairsInOrder plan).
Proof.
  intro plan. apply (targetTasks_first_M plan 3). lia.
Defined.

(** ** Multi-part content assembler *)

Section AssemblerFacts.
Import Assembler.

Variable Outline : Type.
Variable World : Type.
Variable gen : ContentPartArgs Outline -> World -> jsstring * World.

Lemma continuityContext_firstn (part1 part2 : jsstring) :
  continuityContext part1 part2 = firstn (Z.to_nat 6000) (part1 ++ nl2 ++ part2).
Proof.
  unfold continuityContext. rewrite slice_prefix by lia. reflexivity.
Qed.

(** What the third [generateContentPart] call receives as
    [previousContent]: the first 6000 code units of part 1, a blank line
    and part 2, that is a prefix of that concatenation, at most 6000 long,
    and the whole of it when it is that short. What is cut off is cut at
    the end. *)
Theorem part3_context_is_head (niche keyword : jsstring) (outline : Outline) (w w' : World)
    (calls : list (ContentPartArgs Outline)) (part1 part2 part3 : jsstring) :
  generateParts Outline World gen niche keyword outline w
    = (calls, (part1, part2, part3), w') ->
  exists a1 a2 a3 dropped,
    calls = [a1; a2; a3] /\
    partIndex a3 = 3%Z /\
    previousContent a2 = part1 /\
    part1 ++ nl2 ++ part2 = previousContent a3 ++ dropped /\
    Z.of_nat (length (previousContent a3))
      = Z.min 6000 (Z.of_nat (length (part1 ++ nl2 ++ part2))).
Proof.
  unfold generateParts.
  destruct (gen _ w) as [p1 w1] eqn:E1.
  destruct (gen _ w1) as [p2 w2] eqn:E2.
  destruct (gen _ w2) as [p3 w3] eqn:E3.
  intros H. injection H as <- <- <- <- <-.
  eexists _, _, _, (skipn (Z.to_nat 6000) (p1 ++ nl2 ++ p2)).
  split; [reflexivity|]. cbn [partIndex previousContent].
  rewrite continuityContext_firstn.
  repeat split.
  - now rewrite firstn_skipn.
  - rewrite length_firstn. lia.
Qed.

End AssemblerFacts.

Lemma part3_context_is_head_witness :
  exists a1 a2 a3 dropped,
    [ Assembler.mkArgs (js "cats") (js "cat food") tt 1 3 [];
      Assembler.mkArgs (js "cats") (js "cat food") tt 2 3 (js "one");
      Assembler.mkArgs (js "cats") (js "cat food") tt 3 3 (js "one" ++ nl2 ++ js "two") ]
      = [a1; a2; a3] /\
    Assembler.partIndex a3 = 3%Z /\
    Assembler.previousContent a2 = js "one" /\
    js "one" ++ nl2 ++ js "two" = Assembler.previousContent a3 ++ dropped /\
    Z.of_nat (length (Assembler.previousContent a3))
      = Z.min 6000 (Z.of_nat (length (js "one" ++ nl2 ++ js "two"))).
Proof.
  apply (part3_context_is_head unit (list jsstring) Assembler.scripted
           (js "cats") (js "cat food") tt [js "one"; js "two"; js "three"] []
           _ (js "one") (js "two") (js "three")).
  reflexivity.
Defined.

(** C1 fails on the code. The context of part 3 is meant to let the model
    "continue exactly where the previous part stopped", so it has to keep
    the end of what was written; [slice(0, 6000)] keeps the beginning.
    With a part 1 of 6000 code units and part 2 ["b"], the third call is
    handed part 1 alone, the very context the second call had, and nothing
    of part 2, while the last 6000 code units of the concatenation end in
    part 2. *)
Theorem part3_context_not_tail :
  let part1 := repeat 97%N (Z.to_nat 6000) in
  let part2 := js "b" in
  let calls := fst (fst (Assembler.generateParts unit (list jsstring) Assembler.scripted
                           (js "cats") (js "cat food") tt [part1; part2; js "c"])) in
  map Assembler.previousContent calls = [[]; part1; part1] /\
  part1 <> sliceFrom (part1 ++ nl2 ++ part2) (-6000).
Proof.
  cbv zeta. split.
  - vm_compute. reflexivity.
  - apply eqb_neq. vm_compute. reflexivity.
Qed.

(** ** Bounded concurrency executor *)

(** With nothing else scheduled, the hand-over works: when operation 0
    settles, the parked caller 1 takes its place. *)
Example semaphore_handover :
  let w := Semaphore.runScript
             [ [Semaphore.Call 0; Semaphore.Call 1]; [Semaphore.Settle 0] ]
             (Semaphore.init (Semaphore.new 1)) in
  Semaphore.inBody w = [1] /\ Semaphore.count (Semaphore.state w) = 1%Z /\
  Semaphore.jobs w = [].
Proof. vm_compute. repeat split. Qed.

(** C2 fails on the code. The program

      sem = new Semaphore(1);
      sem.run(fn0); sem.run(fn1);            // 0 runs, 1 is parked
      y.then(() => sem.run(fn2));
      ... later, in one synchronous block: resolve0(); resolveY();

    ends with the bodies of operations 2 and 1 both in flight under
    [max = 1]: the [finally] of operation 0 frees the slot and wakes caller 1,
    caller 2 (already in the job queue) takes the free slot, and caller 1
    then resumes at [this.count++] without testing the limit again. *)
Theorem semaphore_overrun :
  let w := Semaphore.runScript
             [ [Semaphore.Call 0; Semaphore.Call 1];
               [Semaphore.Settle 0; Semaphore.Fulfil 2] ]
             (Semaphore.init (Semaphore.new 1)) in
  Semaphore.max (Semaphore.state w) = 1%Z /\
  Semaphore.inBody w = [2; 1] /\
  Semaphore.count (Semaphore.state w) = 2%Z /\
  Semaphore.jobs w = [].
Proof. vm_compute. repeat split. Qed.

(** ** Similarity *)

Section SimilarityFacts.
Import Linker.

Lemma setHas_In (s : list jsstring) (t : jsstring) : setHas s t = true <-> In t s.
Proof.
  unfold setHas. rewrite existsb_exists. split.
  - intros [x [Hin Hx]]. apply eqb_eq in Hx. now subst.
  - intros Hin. exists t. split; [assumption|]. now apply eqb_eq.
Qed.

Lemma setAdd_NoDup (s : list jsstring) (t : jsstring) : NoDup s -> NoDup (setAdd s t).
Proof.
  intros Hs. unfold setAdd. destruct (setHas s t) eqn:E; [assumption|].
  apply NoDup_app; [assumption | repeat constructor; intros [] |].
  intros x Hx [<-|[]]. apply setHas_In in Hx. congruence.
Qed.

Lemma newSet_NoDup (elements : list jsstring) : NoDup (newSet elements).
Proof.
  unfold newSet.
  assert (G : forall acc, NoDup acc -> NoDup (fold_left setAdd elements acc)).
  { induction elements as [|t l IH]; intros acc Hacc; simpl; [assumption|].
    apply IH. now apply setAdd_NoDup. }
  apply G. constructor.
Qed.

Lemma interCount_from (A B : list jsstring) (z : Z) :
  fold_left (fun inter t => if setHas B t then (inter + 1)%Z else inter) A z
  = (z + Z.of_nat (length (filter (setHas B) A)))%Z.
Proof.
  revert z. induction A as [|t A IH]; intros z; simpl; [lia|].
  rewrite IH. destruct (setHas B t); simpl; lia.
Qed.

Lemma interCount_filter (A B : list jsstring) :
  interCount A B = Z.of_nat (length (filter (setHas B) A)).
Proof. unfold interCount. now rewrite interCount_from. Qed.

Lemma common_sym (A B : list jsstring) :
  NoDup A -> NoDup B ->
  length (filter (setHas B) A) = length (filter (setHas A) B).
Proof.
  intros HA HB. apply Permutation_length. apply NoDup_Permutation.
  - now apply NoDup_filter.
  - now apply NoDup_filter.
  - intros x. rewrite !filter_In, !setHas_In. tauto.
Qed.

Lemma interCount_sym (A B : list jsstring) :
  NoDup A -> NoDup B -> interCount A B = interCount B A.
Proof.
  intros HA HB. rewrite !interCount_filter. f_equal. now apply common_sym.
Qed.

Lemma interCount_le_left (A B : list jsstring) :
  (0 <= interCount A B <= size A)%Z.
Proof.
  rewrite interCount_filter. unfold size.
  pose proof (filter_length_le (setHas B) A). lia.
Qed.

Lemma denomOf_sym (A B : list jsstring) :
  NoDup A -> NoDup B -> denomOf A B = denomOf B A.
Proof.
  intros HA HB. unfold denomOf. rewrite (interCount_sym A B HA HB). f_equal. lia.
Qed.

(** C9. The score is symmetric in its two posts: the two token sets meet
    in the same number of tokens whichever is walked, and the denominator
    is symmetric in them, so the quotients are the same fraction. *)
Theorem similarity_sym (d p : Post) : similarity d p = similarity p d.
Proof.
  unfold similarity. cbv zeta.
  pose proof (newSet_NoDup (map normalizeToken (keywords d) ++ tokenize (title d))) as Hd.
  pose proof (newSet_NoDup (map normalizeToken (keywords p) ++ tokenize (title p))) as Hp.
  fold (tokenSet d) in Hd |- *. fold (tokenSet p) in Hp |- *.
  rewrite (interCount_sym _ _ Hd Hp), (denomOf_sym _ _ Hd Hp). reflexivity.
Qed.

Lemma denomOf_bounds (A B : list jsstring) :
  NoDup A -> NoDup B ->
  (1 <= denomOf A B)%Z /\ (0 <= interCount A B <= denomOf A B)%Z.
Proof.
  intros HA HB.
  pose proof (interCount_le_left A B) as HL.
  pose proof (interCount_le_left B A) as HR.
  rewrite <- (interCount_sym A B HA HB) in HR.
  unfold denomOf. lia.
Qed.

(** C10. [similarity] is defined on every pair of posts: the denominator it
    divides by is at least 1 (so the positive denominator of the fraction is
    that very number), the count of common tokens lies between 0 and the
    denominator, and the score lies in [0, 1]; two posts without keywords
    and with empty titles score [0 / 1]. *)
Theorem similarity_total_unit_interval (a b : Post) :
  let A := tokenSet a in
  let B := tokenSet b in
  (1 <= denomOf A B)%Z /\
  Zpos (Qden (similarity a b)) = denomOf A B /\
  Qnum (similarity a b) = interCount A B /\
  (0 <= interCount A B <= denomOf A B)%Z /\
  (0 <= similarity a b)%Q /\ (similarity a b <= 1)%Q /\
  (forall pa sa ca ta da pb sb cb tb db,
     similarity (mkPost pa sa [] ca [] ta da) (mkPost pb sb [] cb [] tb db)
     = Qmake 0 1).
Proof.
  intros A B.
  destruct (denomOf_bounds A B (newSet_NoDup _) (newSet_NoDup _)) as [H1 [H0 Hle]].
  assert (Hden : Zpos (Qden (similarity a b)) = denomOf A B).
  { unfold similarity. cbn [Qden]. fold A B. apply Z2Pos.id. lia. }
  assert (Hnum : Qnum (similarity a b) = interCount A B) by reflexivity.
  repeat split; try assumption.
  - unfold Qle. rewrite Hnum. cbn [Qnum Qden]. lia.
  - unfold Qle. rewrite Hnum, Hden. cbn [Qnum Qden]. lia.
Qed.

End SimilarityFacts.

(** ** Where [insertBlocks] puts the related blocks *)

Section InsertFacts.
Import Linker.

Lemma occursAt_fits (hay needle : jsstring) (i : Z) :
  occursAt hay needle i -> (i + Z.of_nat (length needle) <= Z.of_nat (length hay))%Z.
Proof.
  intros H. apply occursAt_split in H as [pre [post [-> <-]]].
  rewrite !length_app. lia.
Qed.

Lemma sliceFrom_skipn {A : Type} (l : list A) (i : Z) :
  (0 <= i <= Z.of_nat (length l))%Z -> sliceFrom l i = skipn (Z.to_nat i) l.
Proof.
  intros Hi. unfold sliceFrom, slice, relIndex.
  destruct (i <? 0)%Z eqn:E; [apply Z.ltb_lt in E; lia|].
  destruct (Z.of_nat (length l) <? 0)%Z eqn:E'; [apply Z.ltb_lt in E'; lia|].
  rewrite Z.min_id, Z.min_l by lia.
  apply firstn_all2. rewrite length_skipn. lia.
Qed.

Lemma nthIndexOf_2 (hay needle : jsstring) :
  nthIndexOf hay needle 2 =
  if (indexOf hay needle 0 =? -1)%Z then (-1)%Z
  else indexOf hay needle (indexOf hay needle 0 + 1).
Proof.
  unfold nthIndexOf. cbn [nthIndexOfFrom]. change (-1 + 1)%Z with 0%Z.
  destruct (indexOf hay needle 0 =? -1)%Z eqn:E.
  - now apply Z.eqb_eq in E.
  - destruct (indexOf hay needle (indexOf hay needle 0 + 1) =? -1)%Z eqn:E'; [|reflexivity].
    now apply Z.eqb_eq in E'.
Qed.

(** When [nthIndexOf ... 2] finds a position, it is that of the second
    occurrence: exactly one occurrence lies before it. *)
Lemma nthIndexOf_2_found (hay needle : jsstring) (idx : Z) :
  needle <> [] -> nthIndexOf hay needle 2 = idx -> idx <> (-1)%Z ->
  occursAt hay needle idx /\
  exists first, (0 <= first < idx)%Z /\ occursAt hay needle first /\
                forall j, (j < idx)%Z -> occursAt hay needle j -> j = first.
Proof.
  intros Hne Hidx Hfound. rewrite nthIndexOf_2 in Hidx.
  destruct (indexOf hay needle 0 =? -1)%Z eqn:E; [congruence|].
  apply Z.eqb_neq in E.
  destruct (indexOf_found hay needle 0 _ eq_refl E) as [_ [Hocc1 Hmin1]].
  set (first := indexOf hay needle 0) in *.
  rewrite <- Hidx in Hfound.
  destruct (indexOf_found hay needle (first + 1) _ eq_refl Hfound) as [Hlo [Hocc2 Hmin2]].
  rewrite Hidx in *.
  pose proof (occursAt_fits _ _ _ Hocc1) as Hfit.
  assert (0 < length needle) by (destruct needle; [congruence | simpl; lia]).
  destruct Hocc1 as [Hr1 Hp1].
  split; [assumption|]. exists first. repeat split; try lia; try assumption.
  intros j Hj Hocc.
  destruct (Z.lt_trichotomy j first) as [Hlt | [Heq | Hgt]]; [|assumption|].
  - exfalso. apply (Hmin1 j); [destruct Hocc; lia | assumption].
  - exfalso. apply (Hmin2 j); [lia | assumption].
Qed.

(** When it finds none, [needle] occurs at most once. *)
Lemma nthIndexOf_2_none (hay needle : jsstring) :
  nthIndexOf hay needle 2 = (-1)%Z ->
  forall i j, occursAt hay needle i -> occursAt hay needle j -> i = j.
Proof.
  intros Hnone. rewrite nthIndexOf_2 in Hnone.
  destruct (indexOf hay needle 0 =? -1)%Z eqn:E.
  - apply Z.eqb_eq in E. intros i j Hi _. exfalso.
    apply (indexOf_none hay needle 0 E i); [destruct Hi; lia | assumption].
  - apply Z.eqb_neq in E.
    destruct (indexOf_found hay needle 0 _ eq_refl E) as [_ [_ Hmin1]].
    set (first := indexOf hay needle 0) in *.
    assert (G : forall k, occursAt hay needle k -> k = first).
    { intros k Hk. destruct (Z.lt_trichotomy k first) as [Hlt | [Heq | Hgt]]; [|assumption|].
      - exfalso. apply (Hmin1 k); [destruct Hk; lia | assumption].
      - exfalso. apply (indexOf_none hay needle (first + 1) Hnone k); [lia | assumption]. }
    intros i j Hi Hj. rewrite (G i Hi), (G j Hj). reflexivity.
Qed.

Lemma blockWithLinks_marked (heading : jsstring) (items : list Post) :
  items <> [] ->
  nonEmpty (blockWithLinks heading items) = true /\
  includes (blockWithLinks heading items) EARLY_START = true.
Proof.
  intros Hne. destruct items as [|p items]; [congruence|].
  split; [reflexivity|].
  apply includes_iff. exists nl2. eexists. unfold blockWithLinks. reflexivity.
Qed.

(** Two ways of cutting one string: the longer left part extends the
    shorter one. *)
Lemma app_eq_app_le {A : Type} (a b c d : list A) :
  a ++ b = c ++ d -> length a <= length c ->
  exists m, c = a ++ m /\ b = m ++ d.
Proof.
  revert c. induction a as [|x a IH]; intros c H Hlen.
  - exists c. now split.
  - destruct c as [|y c]; [simpl in Hlen; lia|].
    simpl in H. injection H as -> H.
    destruct (IH c H) as [m [-> ->]]; [simpl in Hlen; lia|].
    exists m. now split.
Qed.

(** The line of a heading: after the marker ["\n## "] found at [idx], the
    first newline from [idx + 1] on closes the heading's line. *)
Lemma heading_line (c : jsstring) (idx at_ : Z) :
  occursAt c H2 idx -> indexOf c nl (idx + 1) = at_ -> at_ <> (-1)%Z ->
  exists head line rest,
    c = head ++ H2 ++ line ++ nl ++ rest /\
    Z.of_nat (length head) = idx /\
    Z.of_nat (length (head ++ H2 ++ line)) = at_ /\
    ~ In LF line.
Proof.
  intros Hocc Hat Hfound.
  destruct (indexOf_found c nl (idx + 1) at_ Hat Hfound) as [Hlo [Hnl Hmin]].
  pose proof (occursAt_fits _ _ _ Hocc) as Hfit1.
  pose proof (occursAt_fits _ _ _ Hnl) as Hfit2.
  change (length H2) with 4 in Hfit1. change (length nl) with 1 in Hfit2.
  apply occursAt_split in Hocc as [head [post [Hc Hhead]]].
  pose proof Hnl as Hnl'.
  apply occursAt_split in Hnl' as [pre [rest [Hc' Hpre]]].
  assert (Hle : length head <= length pre) by lia.
  rewrite Hc in Hc'.
  destruct (app_eq_app_le _ _ _ _ Hc' Hle) as [m [Hpm Hm]].
  (* [m] starts with the marker: none of its units after the first is LF *)
  assert (Hmlen : 1 <= length m).
  { subst pre. rewrite length_app in Hpre. lia. }
  unfold H2, nl in Hm. cbn [js map list_ascii_of_string app] in Hm.
  change (N_of_ascii "#") with 35%N in Hm. change (N_of_ascii " ") with 32%N in Hm.
  destruct m as [|m0 m]; [simpl in Hmlen; lia|].
  simpl in Hm. injection Hm as <- Hm.
  destruct m as [|m1 m]; [simpl in Hm; discriminate|].
  simpl in Hm. injection Hm as <- Hm.
  destruct m as [|m2 m]; [simpl in Hm; discriminate|].
  simpl in Hm. injection Hm as <- Hm.
  destruct m as [|m3 m]; [simpl in Hm; discriminate|].
  simpl in Hm. injection Hm as <- Hm.
  exists head, m, rest. repeat split.
  - rewrite Hc, Hm. reflexivity.
  - assumption.
  - rewrite <- Hpre, Hpm. reflexivity.
  - intros Hin. apply in_split in Hin as [l1 [l2 Hl]].
    apply (Hmin (idx + 4 + Z.of_nat (length l1))%Z).
    + subst pre m. rewrite !length_app in Hpre. cbn [length] in Hpre.
      rewrite length_app in Hpre. cbn [length] in Hpre. lia.
    + apply occursAt_split. exists (head ++ H2 ++ l1), (l2 ++ nl ++ rest). split.
      * rewrite Hc, Hm, Hl. unfold nl. rewrite <- !app_assoc. reflexivity.
      * rewrite !length_app. change (length H2) with 4. lia.
Qed.

Lemma insertEarly_cases (c e : jsstring) :
  includes e EARLY_START = true ->
  insertEarly c e = c \/ includes (insertEarly c e) EARLY_START = true.
Proof.
  intros He. unfold insertEarly.
  destruct (nonEmpty e); [|now left].
  destruct (negb (nthIndexOf c H2 2 =? -1)%Z && negb (includes c EARLY_START));
    [|now left].
  right. apply includes_app_r. now apply includes_app_l.
Qed.

(** X10. The related blocks of a document with content [c], both rendered by
    [blockWithLinks]:
    - when the early block is inserted (it has links, the marker is not in
      [c] yet, a second ["\n## "] is found, and the line of that heading is
      closed by a newline), it goes right at the end of the line of the
      second top-level heading, the position [nthIndexOf] returns being
      that of the second occurrence of the heading marker;
    - with fewer than two heading markers the content is left as it is;
    - the end block is not appended once the early marker is present;
    - the two steps never both add a block. *)
Theorem related_blocks_placement (c h1 h2 : jsstring) (items1 items2 : list Post) :
  let e := blockWithLinks h1 items1 in
  let n := blockWithLinks h2 items2 in
  let out1 := insertEarly c e in
  let out2 := appendEnd out1 n in
  (forall idx at_,
      items1 <> [] -> includes c EARLY_START = false ->
      nthIndexOf c H2 2 = idx -> idx <> (-1)%Z ->
      indexOf c nl (idx + 1) = at_ -> at_ <> (-1)%Z ->
      exists first head line rest,
        c = head ++ H2 ++ line ++ nl ++ rest /\
        Z.of_nat (length head) = idx /\ ~ In LF line /\
        ((0 <= first < idx)%Z /\ occursAt c H2 first /\
         forall j, (j < idx)%Z -> occursAt c H2 j -> j = first) /\
        out1 = head ++ H2 ++ line ++ e ++ nl ++ rest) /\
  ((forall i j, occursAt c H2 i -> occursAt c H2 j -> i = j) -> out1 = c) /\
  (includes out1 EARLY_START = true -> out2 = out1) /\
  (out2 = out1 \/ (out1 = c /\ out2 = c ++ n)).
Proof.
  intros e n out1 out2. repeat split.
  - intros idx at_ Hitems Hclean Hidx Hfound Hat Hterm.
    assert (HH2 : H2 <> []) by discriminate.
    destruct (nthIndexOf_2_found c H2 idx HH2 Hidx Hfound) as [Hocc [first Hfirst]].
    destruct (heading_line c idx at_ Hocc Hat Hterm)
      as [head [line [rest [Hc [Hhead [Hlen Hline]]]]]].
    exists first, head, line, rest.
    split; [exact Hc|]. split; [exact Hhead|]. split; [exact Hline|].
    split; [exact Hfirst|].
    unfold out1, insertEarly.
    destruct (blockWithLinks_marked h1 items1 Hitems) as [Hne _]. fold e in Hne.
    rewrite Hne, Hidx, Hclean, Hat.
    apply Z.eqb_neq in Hfound. rewrite Hfound. cbn [negb andb].
    assert (H0 : (0 <= at_)%Z) by lia.
    assert (Hle : (at_ <= Z.of_nat (length c))%Z).
    { rewrite <- Hlen, Hc, !length_app. lia. }
    rewrite slice_prefix by assumption. rewrite sliceFrom_skipn by lia.
    rewrite <- Hlen, Nat2Z.id.
    replace c with ((head ++ H2 ++ line) ++ nl ++ rest) at 1 2
      by (rewrite Hc, <- !app_assoc; reflexivity).
    rewrite firstn_app, firstn_all, Nat.sub_diag.
    rewrite skipn_app, skipn_all, Nat.sub_diag. simpl firstn. simpl skipn.
    rewrite app_nil_r. rewrite <- !app_assoc. reflexivity.
  - intros Hone. unfold out1, insertEarly.
    destruct (nonEmpty e); [|reflexivity].
    destruct (nthIndexOf c H2 2 =? -1)%Z eqn:E; [reflexivity|].
    apply Z.eqb_neq in E.
    assert (HH2 : H2 <> []) by discriminate.
    destruct (nthIndexOf_2_found c H2 _ HH2 eq_refl E) as [Hocc [first [Hr [Hf _]]]].
    specialize (Hone _ _ Hocc Hf). lia.
  - intros Hm. unfold out2, appendEnd. rewrite Hm. now rewrite andb_false_r.
  - unfold out2, appendEnd.
    destruct (nonEmpty n && negb (includes out1 EARLY_START)) eqn:E; [|now left].
    right. apply andb_true_iff in E as [_ E]. apply negb_true_iff in E.
    assert (Hout1 : out1 = c).
    { destruct items1 as [|p items1]; [reflexivity|].
      assert (Hp : p :: items1 <> []) by discriminate.
      destruct (blockWithLinks_marked h1 (p :: items1) Hp) as [_ He]. fold e in He.
      destruct (insertEarly_cases c e He) as [H | H]; [exact H|].
      fold out1 in H. congruence. }
    split; [exact Hout1|]. now rewrite Hout1.
Qed.

End InsertFacts.

Lemma related_blocks_placement_example :
  let p := Linker.mkPost (js "b.mdx") (js "b") (js "B") (js "C") [] [] [] in
  let c := nl ++ js "## One" ++ nl ++ js "text" ++ nl ++ js "## Two" ++ nl
              ++ js "more" ++ nl in
  let e := Linker.blockWithLinks (js "You might also like") [p] in
  exists first head line rest,
    c = head ++ Linker.H2 ++ line ++ nl ++ rest /\
    Z.of_nat (length head) = 12%Z /\ ~ In LF line /\
    ((0 <= first < 12)%Z /\ occursAt c Linker.H2 first /\
     forall j, (j < 12)%Z -> occursAt c Linker.H2 j -> j = first) /\
    Linker.insertEarly c e = head ++ Linker.H2 ++ line ++ e ++ nl ++ rest.
Proof.
  intros p c e.
  destruct (related_blocks_placement c (js "You might also like") (js "More in C") [p] [p])
    as [H _].
  apply (H 12%Z 19%Z).
  - discriminate.
  - reflexivity.
  - reflexivity.
  - discriminate.
  - reflexivity.
  - discriminate.
Defined.

(** C5 fails on the code where the second heading is the last line of the
    content and no newline closes it: [indexOf] then answers [-1], which
    [slice] reads as "one before the end", and the early block lands inside
    the heading's text, before its last character, instead of after the
    heading. *)
Theorem early_block_splits_unterminated_heading :
  let p := Linker.mkPost (js "b.mdx") (js "b") (js "B") (js "C") [] [] [] in
  let c := nl ++ js "## One" ++ nl ++ js "## Two" in
  let e := Linker.blockWithLinks (js "You might also like") [p] in
  includes c Linker.EARLY_START = false /\
  Linker.nthIndexOf c Linker.H2 2 = 7%Z /\
  indexOf c nl (7 + 1) = (-1)%Z /\
  Linker.insertEarly c e = nl ++ js "## One" ++ nl ++ js "## Tw" ++ e ++ js "o".
Proof. vm_compute. repeat split. Qed.

(** ** Sorting and prev/next *)

Section SortFacts.
Import Linker.

Variable A : Type.
Variable le : A -> A -> bool.

Lemma insert_perm (x : A) (l : list A) : Permutation (x :: l) (insert le x l).
Proof.
  induction l as [|y l IH]; simpl; [reflexivity|].
  destruct (le x y); [reflexivity|].
  rewrite perm_swap. now constructor.
Qed.

Lemma sortBy_perm (l : list A) : Permutation l (sortBy le l).
Proof.
  induction l as [|x l IH]; simpl; [constructor|].
  rewrite <- insert_perm. now constructor.
Qed.

Lemma sortBy_length (l : list A) : length (sortBy le l) = length l.
Proof. symmetry. apply Permutation_length, sortBy_perm. Qed.

Hypothesis le_total : forall a b, le a b = false -> le b a = true.

Lemma insert_sorted (x : A) (l : list A) :
  Sorted (fun a b => le a b = true) l ->
  Sorted (fun a b => le a b = true) (insert le x l).
Proof.
  induction l as [|y l IH]; intros Hs; simpl.
  - repeat constructor.
  - destruct (le x y) eqn:E.
    + constructor; [assumption | now constructor].
    + inversion Hs as [|? ? Hs' Hhd]; subst. constructor; [now apply IH|].
      destruct l as [|z l]; simpl.
      * constructor. now apply le_total.
      * destruct (le x z); constructor; [now apply le_total|].
        now inversion Hhd.
Qed.

Lemma sortBy_sorted (l : list A) : Sorted (fun a b => le a b = true) (sortBy le l).
Proof.
  induction l as [|x l IH]; simpl; [constructor|]. now apply insert_sorted.
Qed.

End SortFacts.

Section StableSort.
Import Linker.

Variable A : Type.
Variable le : A -> A -> bool.
Hypothesis le_trans : forall x y z, le x y = true -> le y z = true -> le x z = true.

(** Inserting [x] leaves the elements that compare equal to [w] in the
    order they had, with [x] before them if it is one of them. *)
Lemma insert_class (w x : A) (l : list A) :
  filter (fun y => le w y && le y w) (insert le x l)
  = filter (fun y => le w y && le y w) (x :: l).
Proof.
  induction l as [|y l IH]; [reflexivity|].
  cbn [insert]. destruct (le x y) eqn:Exy; [reflexivity|].
  cbn [filter] in *. rewrite IH.
  destruct (le w x && le x w) eqn:Ex; [|reflexivity].
  destruct (le w y && le y w) eqn:Ey; [|reflexivity].
  apply andb_true_iff in Ex as [_ Hxw]. apply andb_true_iff in Ey as [Hwy _].
  rewrite (le_trans x w y Hxw Hwy) in Exy. discriminate.
Qed.

Lemma sortBy_stable (w : A) (l : list A) :
  filter (fun y => le w y && le y w) (sortBy le l)
  = filter (fun y => le w y && le y w) l.
Proof.
  induction l as [|x l IH]; [reflexivity|].
  cbn [sortBy fold_right]. fold (sortBy le l). rewrite insert_class.
  cbn [filter]. now rewrite IH.
Qed.

End StableSort.

Section FindFacts.
Import Linker.

Variable A : Type.
Variable f : A -> bool.

Lemma findIndexFrom_spec (l : list A) (i : Z) :
  (findIndexFrom f l i = (-1)%Z /\ forall x, In x l -> f x = false) \/
  (exists before x after,
      l = before ++ x :: after /\ f x = true /\
      (forall y, In y before -> f y = false) /\
      findIndexFrom f l i = (i + Z.of_nat (length before))%Z) \/
  (i < 0)%Z.
Proof.
  destruct (Z.lt_ge_cases i 0) as [Hneg | Hpos]; [now right; right|].
  revert i Hpos. induction l as [|x l IH]; intros i Hpos; simpl.
  - left. split; [reflexivity | intros x []].
  - destruct (f x) eqn:E.
    + right; left. exists [], x, l. repeat split; auto.
      * intros y [].
      * simpl. lia.
    + destruct (IH (i + 1)%Z) as [[Hn Hall] | [[before [y [after [-> [Hy [Hb Hi]]]]]] | Hneg]];
        [lia | | | lia].
      * left. split; [assumption|]. intros y [<- | Hin]; auto.
      * right; left. exists (x :: before), y, after. repeat split; auto.
        -- intros z [<- | Hin]; auto.
        -- rewrite Hi. simpl length. lia.
Qed.

Lemma findIndex_spec (l : list A) :
  (findIndex f l = (-1)%Z /\ forall x, In x l -> f x = false) \/
  (exists before x after,
      l = before ++ x :: after /\ f x = true /\
      (forall y, In y before -> f y = false) /\
      findIndex f l = Z.of_nat (length before)).
Proof.
  unfold findIndex.
  destruct (findIndexFrom_spec l 0) as [H | [H | H]]; [now left | now right | lia].
Qed.

End FindFacts.

Section CompareFacts.
Import Linker.

Lemma compareUnits_range (a b : jsstring) :
  compareUnits a b = (-1)%Z \/ compareUnits a b = 0%Z \/ compareUnits a b = 1%Z.
Proof.
  revert b. induction a as [|x a IH]; intros [|y b]; simpl; auto.
  destruct (x <? y)%N; auto. destruct (y <? x)%N; auto.
Qed.

Lemma compareUnits_eq (a b : jsstring) : compareUnits a b = 0%Z <-> a = b.
Proof.
  revert b. induction a as [|x a IH]; intros [|y b]; simpl;
    try (split; [discriminate | discriminate]); try tauto.
  destruct (N.ltb_spec x y) as [Hxy | Hxy].
  - split; [discriminate | intros H; injection H as -> ->; lia].
  - destruct (N.ltb_spec y x) as [Hyx | Hyx].
    + split; [discriminate | intros H; injection H as -> ->; lia].
    + assert (x = y) by lia. subst. rewrite IH. split; [now intros -> | now intros [=]].
Qed.

Lemma compareUnits_flip (a b : jsstring) :
  compareUnits b a = (- compareUnits a b)%Z.
Proof.
  revert b. induction a as [|x a IH]; intros [|y b]; simpl; try reflexivity.
  destruct (N.ltb_spec x y) as [Hxy | Hxy]; destruct (N.ltb_spec y x) as [Hyx | Hyx];
    try reflexivity; try lia. apply IH.
Qed.

Lemma compareUnits_trans (a b c : jsstring) :
  (compareUnits a b <= 0)%Z -> (compareUnits b c <= 0)%Z -> (compareUnits a c <= 0)%Z.
Proof.
  revert b c. induction a as [|x a IH]; intros [|y b] [|z c]; simpl; try lia.
  destruct (N.ltb_spec x y) as [Hxy | Hxy]; destruct (N.ltb_spec y x) as [Hyx | Hyx];
    destruct (N.ltb_spec y z) as [Hyz | Hyz]; destruct (N.ltb_spec z y) as [Hzy | Hzy];
    destruct (N.ltb_spec x z) as [Hxz | Hxz]; destruct (N.ltb_spec z x) as [Hzx | Hzx];
    try lia.
  apply IH.
Qed.

Lemma compareEnglish_flip (a b : jsstring) :
  compareEnglish b a = (- compareEnglish a b)%Z.
Proof.
  unfold compareEnglish.
  rewrite (compareUnits_flip (map foldCase a) (map foldCase b)).
  rewrite (compareUnits_flip (map swapCase a) (map swapCase b)).
  destruct (Z.eqb_spec (compareUnits (map foldCase a) (map foldCase b)) 0) as [E | E].
  - rewrite E. reflexivity.
  - destruct (Z.eqb_spec (- compareUnits (map foldCase a) (map foldCase b)) 0); [lia|].
    reflexivity.
Qed.

Lemma compareEnglish_primary (a b : jsstring) :
  (compareEnglish a b <= 0)%Z ->
  (compareUnits (map foldCase a) (map foldCase b) <= 0)%Z.
Proof.
  unfold compareEnglish.
  destruct (Z.eqb_spec (compareUnits (map foldCase a) (map foldCase b)) 0); lia.
Qed.

Lemma compareEnglish_trans (a b c : jsstring) :
  (compareEnglish a b <= 0)%Z -> (compareEnglish b c <= 0)%Z -> (compareEnglish a c <= 0)%Z.
Proof.
  intros Hab Hbc.
  pose proof (compareEnglish_primary a b Hab) as Pab.
  pose proof (compareEnglish_primary b c Hbc) as Pbc.
  pose proof (compareUnits_trans _ _ _ Pab Pbc) as Pac.
  unfold compareEnglish in *.
  destruct (Z.eqb_spec (compareUnits (map foldCase a) (map foldCase c)) 0) as [Eac | Eac];
    [|exact Pac].
  apply compareUnits_eq in Eac.
  rewrite <- Eac in Pbc, Hbc.
  rewrite (compareUnits_flip (map foldCase a) (map foldCase b)) in Pbc, Hbc.
  assert (E0 : compareUnits (map foldCase a) (map foldCase b) = 0%Z) by lia.
  rewrite E0 in Hab, Hbc. cbn [Z.opp Z.eqb] in Hab, Hbc.
  eapply compareUnits_trans; eassumption.
Qed.

(** The English collation is one. *)
Lemma english_consistent : consistent english.
Proof.
  split.
  - intros a b. cbn [localeCompare english]. rewrite (compareEnglish_flip a b). lia.
  - intros a b c. cbn [localeCompare english]. apply compareEnglish_trans.
Qed.

End CompareFacts.

Section PrevNextFacts.
Import Linker.

Context {host : Collation}.

Lemma StronglySorted_impl {A : Type} (R R' : A -> A -> Prop) (l : list A) :
  (forall a b, R a b -> R' a b) -> StronglySorted R l -> StronglySorted R' l.
Proof.
  intros HR. induction 1 as [|x l Hs IH Hall]; constructor; [assumption|].
  eapply Forall_impl; [|exact Hall]. intros b. apply HR.
Qed.

Lemma StronglySorted_middle {A : Type} (R : A -> A -> Prop) (l1 l2 : list A) (x : A) :
  StronglySorted R (l1 ++ x :: l2) ->
  (forall y, In y l1 -> R y x) /\ (forall y, In y l2 -> R x y).
Proof.
  induction l1 as [|z l1 IH]; simpl; intros Hs.
  - inversion Hs as [|? ? _ Hall]; subst. split; [intros y []|].
    intros y Hy. rewrite Forall_forall in Hall. now apply Hall.
  - inversion Hs as [|? ? Hs' Hall]; subst.
    destruct (IH Hs') as [Hl Hr]. split; [|assumption].
    intros y [<- | Hy]; [|now apply Hl].
    rewrite Forall_forall in Hall. apply Hall. apply in_or_app. right. now left.
Qed.

Lemma item_before {A : Type} (before after : list A) (x : A) :
  before <> [] ->
  item (before ++ x :: after) (Z.of_nat (length before) - 1) = hd_error (rev before).
Proof.
  intros Hne. destruct (exists_last Hne) as [b' [y ->]].
  rewrite rev_app_distr. simpl hd_error. unfold item.
  rewrite length_app. simpl length.
  destruct (Z.of_nat (length b' + 1) - 1 <? 0)%Z eqn:E; [apply Z.ltb_lt in E; lia|].
  replace (Z.to_nat (Z.of_nat (length b' + 1) - 1)) with (length b' + 0) by lia.
  rewrite <- !app_assoc. rewrite nth_error_app2 by lia.
  replace (length b' + 0 - length b') with 0 by lia. reflexivity.
Qed.

Lemma item_after {A : Type} (before after : list A) (x : A) :
  item (before ++ x :: after) (Z.of_nat (length before) + 1) = hd_error after.
Proof.
  unfold item.
  destruct (Z.of_nat (length before) + 1 <? 0)%Z eqn:E; [apply Z.ltb_lt in E; lia|].
  replace (Z.to_nat (Z.of_nat (length before) + 1)) with (length before + 1) by lia.
  rewrite nth_error_app2 by lia.
  replace (length before + 1 - length before) with 1 by lia.
  destruct after; reflexivity.
Qed.

Lemma clusterPostsOf_other (byCluster : JsMap (list Post)) (post x : Post) :
  In x (clusterPostsOf byCluster post) -> slug x <> slug post.
Proof.
  unfold clusterPostsOf. rewrite filter_In. intros [_ H].
  apply negb_true_iff in H. now apply eqb_neq.
Qed.

(** How [prevNext] reads the sorted cluster, for any list of peers none of
    which has the post's slug, under any collation. *)
Lemma prevNext_split (peers : list Post) (post : Post) :
  (forall x, In x peers -> slug x <> slug post) ->
  exists before after,
    sortedBySlug peers post = before ++ post :: after /\
    Permutation peers (before ++ after) /\
    prevNext peers post = (hd_error (rev before), hd_error after).
Proof.
  intros Hother.
  pose proof (sortBy_perm Post slugLeb (peers ++ [post])) as Hperm.
  fold (sortedBySlug peers post) in Hperm.
  unfold prevNext. cbv zeta.
  destruct (findIndex_spec Post (fun x => JS.eqb (slug x) (slug post))
                           (sortedBySlug peers post))
    as [[_ Hnone] | [before [x [after [Hsplit [Hx [_ Hidx]]]]]]].
  - exfalso. assert (Hin : In post (sortedBySlug peers post)).
    { eapply Permutation_in; [exact Hperm|]. apply in_or_app. right. now left. }
    apply Hnone in Hin. apply eqb_neq in Hin. congruence.
  - apply eqb_eq in Hx.
    assert (Hxpost : x = post).
    { assert (Hin : In x (peers ++ [post])).
      { eapply Permutation_in; [symmetry; exact Hperm|]. rewrite Hsplit.
        apply in_or_app. right. now left. }
      apply in_app_or in Hin as [Hin | [<- | []]]; [|reflexivity].
      now destruct (Hother x Hin). }
    subst x. rewrite Hidx, Hsplit. rewrite Hsplit in Hperm. clear Hidx.
    assert (Hpeers : Permutation peers (before ++ after)).
    { apply Permutation_cons_app_inv with (a := post).
      rewrite <- Hperm. apply Permutation_cons_append. }
    exists before, after. split; [reflexivity|]. split; [exact Hpeers|].
    rewrite length_app. cbn [length]. f_equal.
    + destruct before as [|b0 before]; [reflexivity|].
      assert (Hne : b0 :: before <> []) by discriminate.
      rewrite Z.gtb_ltb.
      destruct (Z.ltb_spec 0 (Z.of_nat (length (b0 :: before)))) as [Hlt | Hge].
      * now apply item_before.
      * cbn [length] in Hge. lia.
    + match goal with
      | |- context [(?a <? ?b)%Z] => destruct (Z.ltb_spec a b) as [Hlt | Hge]
      end.
      * apply item_after.
      * destruct after as [|a0 after]; [reflexivity|]. cbn [length] in Hge. lia.
Qed.

Hypothesis host_consistent : consistent host.

Lemma localeCompare_refl (a : jsstring) : localeCompare a a = 0%Z.
Proof.
  destruct host_consistent as [Hflip _]. pose proof (Hflip a a) as H. lia.
Qed.

Lemma localeCompare_not_before (a b : jsstring) :
  ~ (localeCompare a b < 0)%Z -> (localeCompare b a <= 0)%Z.
Proof.
  destruct host_consistent as [Hflip _]. pose proof (Hflip a b) as H. lia.
Qed.

Lemma localeCompare_before_trans (a b c : jsstring) :
  (localeCompare a b < 0)%Z -> (localeCompare b c < 0)%Z -> (localeCompare a c < 0)%Z.
Proof.
  intros Hab Hbc. destruct host_consistent as [Hflip Htrans].
  destruct (Z.lt_ge_cases (localeCompare a c) 0) as [H | H]; [exact H|].
  exfalso.
  assert (Hca : (localeCompare c a <= 0)%Z) by (apply localeCompare_not_before; lia).
  assert (Hcb : (localeCompare c b <= 0)%Z) by (apply (Htrans c a b); lia).
  pose proof (Hflip b c) as H'. lia.
Qed.

Lemma slugLeb_total (a b : Post) : slugLeb a b = false -> slugLeb b a = true.
Proof.
  unfold slugLeb. rewrite Z.leb_gt, Z.leb_le. intros H.
  apply localeCompare_not_before. lia.
Qed.

Lemma slugLeb_trans (a b c : Post) :
  slugLeb a b = true -> slugLeb b c = true -> slugLeb a c = true.
Proof.
  unfold slugLeb. rewrite !Z.leb_le. destruct host_consistent as [_ Htrans]. apply Htrans.
Qed.

Lemma sortedBySlug_sorted (peers : list Post) (post : Post) :
  StronglySorted slugLe (sortedBySlug peers post).
Proof.
  apply (StronglySorted_impl (fun a b => slugLeb a b = true)).
  - intros a b H. now apply Z.leb_le in H.
  - apply Sorted_StronglySorted.
    + intros a b c. apply slugLeb_trans.
    + apply (sortBy_sorted Post slugLeb slugLeb_total).
Qed.

(** The order around the post: nothing before it compares greater, and,
    the sort being stable and the post the last element handed to it,
    everything after it compares greater. *)
Lemma prevNext_order (peers before after : list Post) (post : Post) :
  (forall x, In x peers -> slug x <> slug post) ->
  sortedBySlug peers post = before ++ post :: after ->
  (forall x, In x before -> (localeCompare (slug x) (slug post) <= 0)%Z) /\
  (forall x, In x after -> (localeCompare (slug post) (slug x) < 0)%Z).
Proof.
  intros Hother Hsplit.
  pose proof (sortedBySlug_sorted peers post) as Hsorted. rewrite Hsplit in Hsorted.
  destruct (StronglySorted_middle _ _ _ _ Hsorted) as [Hb Ha].
  split; [exact Hb|].
  intros x Hx.
  destruct (Z.lt_ge_cases (localeCompare (slug post) (slug x)) 0) as [H | H]; [exact H|].
  exfalso.
  pose proof (sortBy_stable Post slugLeb slugLeb_trans post (peers ++ [post])) as Hst.
  fold (sortedBySlug peers post) in Hst. rewrite Hsplit in Hst.
  rewrite !filter_app in Hst. cbn [filter] in Hst.
  assert (Hpp : slugLeb post post && slugLeb post post = true).
  { unfold slugLeb. rewrite localeCompare_refl. reflexivity. }
  rewrite Hpp in Hst.
  set (tied := fun y => slugLeb post y && slugLeb y post) in *.
  assert (Hxin : In x (filter tied after)).
  { apply filter_In. split; [exact Hx|]. unfold tied, slugLeb.
    apply andb_true_iff. split; apply Z.leb_le.
    - exact (Ha x Hx).
    - apply localeCompare_not_before. lia. }
  destruct (exists_last (l := filter tied after)) as [fa [z Hfa]].
  { intros E. rewrite E in Hxin. destruct Hxin. }
  rewrite Hfa in Hst.
  change (filter tied before ++ post :: fa ++ [z])
    with (filter tied before ++ (post :: fa) ++ [z]) in Hst.
  rewrite app_assoc in Hst. apply app_inj_tail in Hst as [_ Hz].
  assert (Hzin : In z (filter tied after)).
  { rewrite Hfa. apply in_or_app. right. now left. }
  apply filter_In in Hzin as [Hzin _].
  apply (Hother z); [|now rewrite Hz].
  pose proof (sortBy_perm Post slugLeb (peers ++ [post])) as Hperm.
  fold (sortedBySlug peers post) in Hperm. rewrite Hsplit in Hperm.
  assert (Hpeers : Permutation peers (before ++ after)).
  { apply Permutation_cons_app_inv with (a := post).
    rewrite <- Hperm. apply Permutation_cons_append. }
  apply (Permutation_in z (Permutation_sym Hpeers)). apply in_or_app. now right.
Qed.

(** A list sorted by slug is the only sorted arrangement of its elements
    when these can be put in strictly ascending order. *)
Lemma sorted_unique (l1 l2 : list Post) :
  StronglySorted slugLe l1 ->
  StronglySorted (fun a b => (localeCompare (slug a) (slug b) < 0)%Z) l2 ->
  Permutation l1 l2 -> l1 = l2.
Proof.
  revert l2. induction l1 as [|x l1 IH]; intros l2 Hs1 Hs2 Hperm.
  - apply Permutation_nil in Hperm. now subst.
  - destruct l2 as [|y l2].
    { apply Permutation_sym, Permutation_nil in Hperm. discriminate. }
    apply StronglySorted_inv in Hs1 as [Hs1 Hall1].
    apply StronglySorted_inv in Hs2 as [Hs2 Hall2].
    rewrite Forall_forall in Hall1, Hall2.
    assert (Hxy : x = y).
    { assert (Hx : In x (y :: l2)) by (apply (Permutation_in x Hperm); now left).
      assert (Hy : In y (x :: l1))
        by (apply (Permutation_in y (Permutation_sym Hperm)); now left).
      destruct Hx as [Hx | Hx]; [now symmetry|].
      destruct Hy as [Hy | Hy]; [assumption|].
      exfalso. pose proof (Hall1 y Hy) as H1. pose proof (Hall2 x Hx) as H2.
      unfold slugLe in H1. destruct host_consistent as [Hflip _].
      pose proof (Hflip (slug y) (slug x)) as H'. lia. }
    subst y. f_equal. apply IH; [assumption | assumption|].
    now apply Permutation_cons_inv in Hperm.
Qed.

End PrevNextFacts.

Section PrevNextClaim.
Import Linker.

Context {host : Collation}.

Hypothesis host_consistent : consistent host.

(** C8 (as the code has it). The order is the one [localeCompare] gives
    under the host's collation, whichever it is. For a post of a document
    set, the pass sorts the post together with its same-cluster peers (the
    posts of its cluster with another slug) by slug; in the sorted list no
    slug before the post compares greater than the post's and (the sort
    being stable) every slug after it compares greater; prev is the
    element right before the post, next the one right after it, each
    absent when there is none. For the cluster alpha, beta, gamma, on a
    host that puts alpha before beta and beta before gamma: beta has prev
    alpha and next gamma, alpha has no prev, gamma no next. *)
Theorem prev_next_by_slug_order :
  (forall (posts : list Post) (post : Post),
     let peers := clusterPostsOf (groupByCluster posts) post in
     (forall x, In x peers <->
                In x posts /\ cluster x = cluster post /\ slug x <> slug post) /\
     exists before after,
       sortedBySlug peers post = before ++ post :: after /\
       Permutation (peers ++ [post]) (before ++ post :: after) /\
       StronglySorted slugLe (before ++ post :: after) /\
       (forall x, In x before -> (localeCompare (slug x) (slug post) <= 0)%Z) /\
       (forall x, In x after -> (localeCompare (slug post) (slug x) < 0)%Z) /\
       prevNext peers post = (hd_error (rev before), hd_error after)) /\
  (let doc := fun s => mkPost (s ++ js ".mdx") s s (js "C") [] [] [] in
   let alpha := doc (js "alpha") in
   let beta := doc (js "beta") in
   let gamma := doc (js "gamma") in
   let byCluster := groupByCluster [alpha; beta; gamma] in
   (localeCompare (js "alpha") (js "beta") < 0)%Z ->
   (localeCompare (js "beta") (js "gamma") < 0)%Z ->
   prevNext (clusterPostsOf byCluster beta) beta = (Some alpha, Some gamma) /\
   prevNext (clusterPostsOf byCluster alpha) alpha = (None, Some beta) /\
   prevNext (clusterPostsOf byCluster gamma) gamma = (Some beta, None)).
Proof.
  split.
  - intros posts post peers. split; [intros x; apply clusterPostsOf_iff|].
    assert (Hother : forall x, In x peers -> slug x <> slug post).
    { intros x Hx. eapply clusterPostsOf_other. exact Hx. }
    destruct (prevNext_split peers post Hother) as [before [after [Hs [Hp Hpn]]]].
    destruct (prevNext_order host_consistent peers before after post Hother Hs) as [Hb Ha].
    exists before, after. repeat split; try assumption.
    + rewrite <- Hs. apply (sortBy_perm Post slugLeb).
    + rewrite <- Hs. now apply sortedBySlug_sorted.
  - intros doc alpha beta gamma byCluster Hab Hbg.
    pose proof (localeCompare_before_trans host_consistent _ _ _ Hab Hbg) as Hag.
    assert (Hstrict : StronglySorted
                        (fun a b => (localeCompare (slug a) (slug b) < 0)%Z)
                        [alpha; beta; gamma]).
    { repeat constructor; assumption. }
    assert (Hsorted : forall peers post,
               Permutation (peers ++ [post]) [alpha; beta; gamma] ->
               sortedBySlug peers post = [alpha; beta; gamma]).
    { intros peers post Hperm.
      apply (sorted_unique host_consistent); [now apply sortedBySlug_sorted | exact Hstrict|].
      rewrite <- Hperm. symmetry. apply (sortBy_perm Post slugLeb). }
    assert (Hb : clusterPostsOf byCluster beta = [alpha; gamma]) by reflexivity.
    assert (Ha : clusterPostsOf byCluster alpha = [beta; gamma]) by reflexivity.
    assert (Hg : clusterPostsOf byCluster gamma = [alpha; beta]) by reflexivity.
    assert (Sb : sortedBySlug [alpha; gamma] beta = [alpha; beta; gamma]).
    { apply Hsorted. cbn [app]. apply perm_skip, perm_swap. }
    assert (Sa : sortedBySlug [beta; gamma] alpha = [alpha; beta; gamma]).
    { apply Hsorted. cbn [app].
      etransitivity; [apply perm_skip, perm_swap | apply perm_swap]. }
    assert (Sg : sortedBySlug [alpha; beta] gamma = [alpha; beta; gamma]).
    { apply Hsorted. reflexivity. }
    rewrite Hb, Ha, Hg. unfold prevNext. rewrite Sb, Sa, Sg. repeat split.
Qed.

End PrevNextClaim.

Lemma prev_next_by_slug_order_witness :
  let doc := fun s => Linker.mkPost (s ++ js ".mdx") s s (js "C") [] [] [] in
  let alpha := doc (js "alpha") in
  let beta := doc (js "beta") in
  let gamma := doc (js "gamma") in
  let peers := fun post =>
    Linker.clusterPostsOf (Linker.groupByCluster [alpha; beta; gamma]) post in
  (exists before after,
     Linker.sortedBySlug (host := Linker.english) (peers beta) beta
       = before ++ beta :: after /\
     Linker.prevNext (host := Linker.english) (peers beta) beta
       = (hd_error (rev before), hd_error after)) /\
  Linker.prevNext (host := Linker.english) (peers beta) beta = (Some alpha, Some gamma) /\
  Linker.prevNext (host := Linker.english) (peers alpha) alpha = (None, Some beta) /\
  Linker.prevNext (host := Linker.english) (peers gamma) gamma = (Some beta, None).
Proof.
  intros doc alpha beta gamma peers.
  destruct (@prev_next_by_slug_order Linker.english english_consistent) as [Hgen Hinst].
  split.
  - destruct (Hgen [alpha; beta; gamma] beta) as [_ [before [after [Hs [_ [_ [_ [_ Hpn]]]]]]]].
    exists before, after. split; [exact Hs | exact Hpn].
  - apply Hinst; reflexivity.
Defined.

(** C8 (as the spec words it) fails: the order is not the lexicographic
    one. On an English-locale host the slugs a, B, c sort as a, B, c, so
    B has prev a and next c, while in the lexicographic order of the
    strings B comes first, before a. *)
Lemma prev_next_not_lexicographic :
  let doc := fun s => Linker.mkPost (s ++ js ".mdx") s s (js "C") [] [] [] in
  let a := doc (js "a") in
  let B := doc (js "B") in
  let c := doc (js "c") in
  let peers := Linker.clusterPostsOf (Linker.groupByCluster [a; B; c]) B in
  Linker.sortedBySlug (host := Linker.english) peers B = [a; B; c] /\
  Linker.prevNext (host := Linker.english) peers B = (Some a, Some c) /\
  Linker.compareUnits (js "B") (js "a") = (-1)%Z /\
  Linker.compareUnits (js "B") (js "c") = (-1)%Z.
Proof. vm_compute. repeat split. Qed.

(** ** Markers *)

Section MarkerFacts.
Import Linker.

Context {host : Collation}.

(** With both markers present, [insertBlocks] inserts nothing, whatever
    the blocks are. *)
Lemma insertBlocks_fixed (c e n v : jsstring) :
  includes c EARLY_START = true -> includes c NAV_START = true ->
  insertBlocks c e n v = c.
Proof.
  intros He Hv.
  assert (H1 : insertEarly c e = c).
  { unfold insertEarly. rewrite He. cbn [negb]. rewrite andb_false_r.
    now destruct (nonEmpty e). }
  unfold insertBlocks. rewrite H1. unfold appendEnd. rewrite He. cbn [negb].
  rewrite andb_false_r. unfold appendNav. rewrite Hv. cbn [negb].
  now rewrite andb_false_r.
Qed.

Lemma prevNextBlock_marked (prev next : option Post) :
  prev <> None \/ next <> None ->
  nonEmpty (prevNextBlock prev next) = true /\
  includes (prevNextBlock prev next) NAV_START = true.
Proof.
  intros H. unfold prevNextBlock.
  destruct prev as [p|]; [|destruct next as [q|]; [|destruct H; congruence]];
    cbn [app]; (split; [reflexivity|]);
    apply includes_iff; exists nl2; eexists; reflexivity.
Qed.

(** After [insertBlocks] with an end block and a nav block that carry
    their markers, both markers are in the content. *)
Lemma insertBlocks_marked (c e n v : jsstring) :
  nonEmpty n = true -> includes n EARLY_START = true ->
  nonEmpty v = true -> includes v NAV_START = true ->
  includes (insertBlocks c e n v) EARLY_START = true /\
  includes (insertBlocks c e n v) NAV_START = true.
Proof.
  intros Hn Hne Hv Hvn. unfold insertBlocks.
  set (out1 := insertEarly c e).
  assert (H2 : includes (appendEnd out1 n) EARLY_START = true).
  { unfold appendEnd. rewrite Hn. cbn [andb].
    destruct (includes out1 EARLY_START) eqn:E; cbn [negb]; [exact E|].
    now apply includes_app_r. }
  set (out2 := appendEnd out1 n) in *.
  unfold appendNav. rewrite Hv. cbn [andb].
  destruct (includes out2 NAV_START) eqn:E; cbn [negb].
  - now split.
  - split; [now apply includes_app_l | now apply includes_app_r].
Qed.

Lemma rankedOf_length (post : Post) (peers : list Post) :
  length (rankedOf post peers) = length peers.
Proof.
  unfold rankedOf. now rewrite length_map, sortBy_length, length_map.
Qed.

Lemma blocksFor_none (byCluster : JsMap (list Post)) (post : Post) :
  blocksFor byCluster post = None <-> clusterPostsOf byCluster post = [].
Proof.
  unfold blocksFor.
  destruct (clusterPostsOf byCluster post) as [|x peers] eqn:E; cbn [length Nat.eqb].
  - tauto.
  - destruct (prevNext (x :: peers) post). split; discriminate.
Qed.

(** Whenever a post has a peer, its end block and its nav block are not
    empty and carry their markers. *)
Lemma blocksFor_marked (byCluster : JsMap (list Post)) (post : Post)
    (e n v : jsstring) :
  blocksFor byCluster post = Some (e, n, v) ->
  (nonEmpty n = true /\ includes n EARLY_START = true) /\
  (nonEmpty v = true /\ includes v NAV_START = true).
Proof.
  unfold blocksFor.
  destruct (clusterPostsOf byCluster post) as [|x peers] eqn:E; cbn [length Nat.eqb];
    [discriminate|].
  rewrite <- E.
  destruct (prevNext_split (clusterPostsOf byCluster post) post)
    as [before [after [_ [Hperm Hpn]]]].
  { intros y Hy. eapply clusterPostsOf_other. exact Hy. }
  rewrite Hpn. intros H. injection H as <- <- <-.
  set (ranked := rankedOf post (clusterPostsOf byCluster post)).
  assert (Hranked : ranked <> []).
  { intros H0. apply (f_equal (@length Post)) in H0. unfold ranked in H0.
    rewrite rankedOf_length, E in H0. discriminate. }
  split.
  - apply blockWithLinks_marked.
    destruct (slice ranked 2 5) as [|z l]; [|discriminate].
    rewrite slice_prefix by lia. destruct ranked; [congruence | discriminate].
  - apply prevNextBlock_marked.
    rewrite E in Hperm.
    destruct before as [|b before].
    + right. destruct after as [|a after]; [|discriminate].
      apply Permutation_length in Hperm. discriminate.
    + left. destruct (exists_last (l := b :: before)) as [l' [y Hl]]; [discriminate|].
      rewrite Hl, rev_app_distr. discriminate.
Qed.

(** What the pass writes for a post with a peer holds both markers. *)
Lemma updatedContent_marked (byCluster : JsMap (list Post)) (post : Post) (u : jsstring) :
  updatedContent byCluster post = Some u ->
  includes u EARLY_START = true /\ includes u NAV_START = true.
Proof.
  unfold updatedContent.
  destruct (blocksFor byCluster post) as [[[e n] v]|] eqn:E; [|discriminate].
  intros H. injection H as <-.
  destruct (blocksFor_marked _ _ _ _ _ E) as [[Hn Hne] [Hv Hvn]].
  now apply insertBlocks_marked.
Qed.

Lemma updatedContent_none (byCluster : JsMap (list Post)) (post : Post) :
  updatedContent byCluster post = None <-> clusterPostsOf byCluster post = [].
Proof.
  rewrite <- blocksFor_none. unfold updatedContent.
  destruct (blocksFor byCluster post) as [[[e n] v]|]; split; congruence.
Qed.

End MarkerFacts.

(** ** The link pass, file by file *)

Section LinkPassFacts.
Import Files Linker.

Context {host : Collation}.

Variable M : Matter.

Lemma readPost_some (file : jsstring * jsstring) (post : Post) :
  readPost M file = Some (Some post) ->
  truthy (getProp (data post) (js "slug")) = true /\
  matter M (snd file) = Some (data post, content post) /\
  post = postOf (fst file) (data post) (content post).
Proof.
  unfold readPost. destruct (matter M (snd file)) as [[d body]|]; [|discriminate].
  destruct (truthy (getProp d (js "slug"))) eqn:E; [|discriminate].
  intros H. injection H as <-. cbn [data content postOf]. auto.
Qed.

Lemma readPosts_In (fs : store) (posts : list Post) (file : jsstring * jsstring)
    (post : Post) :
  readPosts M fs = Some posts -> In file fs -> readPost M file = Some (Some post) ->
  In post posts.
Proof.
  revert posts. induction fs as [|f fs IH]; intros posts Hread Hin Hr; [destruct Hin|].
  cbn [readPosts] in Hread.
  destruct (readPost M f) as [r|] eqn:Ef; [|discriminate].
  destruct (readPosts M fs) as [rest|]; [|discriminate].
  injection Hread as <-. destruct Hin as [-> | Hin].
  - rewrite Hr in Ef. injection Ef as <-. now left.
  - specialize (IH rest eq_refl Hin Hr). destruct r; [now right | exact IH].
Qed.

Lemma writeFile_middle (pre l : store) (p old text : jsstring) :
  ~ In p (map fst pre) ->
  writeFile (pre ++ (p, old) :: l) p text = pre ++ (p, text) :: l.
Proof.
  induction pre as [|[q t] pre IH]; intros Hnot.
  - cbn [app writeFile]. now rewrite eqb_refl.
  - cbn [app writeFile]. destruct (JS.eqb q p) eqn:E.
    + apply eqb_eq in E. subst q. exfalso. apply Hnot. now left.
    + rewrite IH; [reflexivity|]. intros Hin. apply Hnot. now right.
Qed.

Lemma linkedFile_path (byCluster : JsMap (list Post)) (file file' : jsstring * jsstring) :
  linkedFile M byCluster file = Some file' -> fst file' = fst file.
Proof.
  unfold linkedFile. destruct (readPost M file) as [[post|]|].
  - destruct (updatedContent byCluster post).
    + destruct (stringify M _ _); [|discriminate]. now intros [= <-].
    + now intros [= <-].
  - now intros [= <-].
  - now intros [= <-].
Qed.

(** What the link pass leaves of one file: the file itself, or the
    serialisation of its parsed data, as parsed, with the body the insertion
    of the blocks gives. *)
Lemma linkedFile_shape (byCluster : JsMap (list Post)) (file file' : jsstring * jsstring) :
  linkedFile M byCluster file = Some file' ->
  file' = file \/
  exists e n v d body text',
    matter M (snd file) = Some (d, body) /\
    stringify M (insertBlocks body e n v) d = Some text' /\
    file' = (fst file, text').
Proof.
  unfold linkedFile. destruct (readPost M file) as [[post|]|] eqn:Hr;
    [| intros [= <-]; now left | intros [= <-]; now left].
  destruct (readPost_some _ _ Hr) as [_ [Hm _]].
  unfold updatedContent.
  destruct (blocksFor byCluster post) as [[[e n] v]|]; [| intros [= <-]; now left].
  destruct (stringify M _ _) as [text'|] eqn:Hs; [|discriminate].
  intros [= <-]. right. now exists e, n, v, (data post), (content post), text'.
Qed.

Lemma Forall2_In_r {A B : Type} (R : A -> B -> Prop) (l : list A) (l' : list B) (y : B) :
  Forall2 R l l' -> In y l' -> exists x, In x l /\ R x y.
Proof.
  induction 1 as [|x x' l l' Hx _ IH]; intros Hin; [destruct Hin|].
  destruct Hin as [<- | Hin].
  - exists x. split; [now left | exact Hx].
  - destruct (IH Hin) as [z [Hz HR]]. exists z. split; [now right | exact HR].
Qed.

Lemma Forall2_In_l {A B : Type} (R : A -> B -> Prop) (l : list A) (l' : list B) (x : A) :
  Forall2 R l l' -> In x l -> exists y, In y l' /\ R x y.
Proof.
  induction 1 as [|x0 y0 l l' Hx _ IH]; intros Hin; [destruct Hin|].
  destruct Hin as [<- | Hin].
  - exists y0. split; [now left | exact Hx].
  - destruct (IH Hin) as [z [Hz HR]]. exists z. split; [now right | exact HR].
Qed.

(** Once [matter.stringify] has thrown, the loop writes nothing more. *)
Lemma linkStep_stopped (byCluster : JsMap (list Post)) (posts : list Post) (fs : store) :
  fold_left (linkStep M byCluster) posts (fs, false) = (fs, false).
Proof. induction posts as [|post posts IH]; [reflexivity | exact IH]. Qed.

(** With distinct paths, the writing loop replaces the files one by one,
    in the order read, by what [linkedFile] makes of them, up to the first
    file for which [matter.stringify] throws: that file and those after
    it stay as they were. *)
Lemma fold_linkStep (byCluster : JsMap (list Post)) (l pre : store) (posts : list Post) :
  NoDup (map fst (pre ++ l)) ->
  readPosts M l = Some posts ->
  exists l1 l1' l2,
    l = l1 ++ l2 /\
    Forall2 (fun file file' => linkedFile M byCluster file = Some file') l1 l1' /\
    fst (fold_left (linkStep M byCluster) posts (pre ++ l, true)) = pre ++ l1' ++ l2 /\
    (if snd (fold_left (linkStep M byCluster) posts (pre ++ l, true)) then l2 = []
     else exists file rest, l2 = file :: rest /\ linkedFile M byCluster file = None).
Proof.
  revert pre posts. induction l as [|file l IH]; intros pre posts Hnd Hread.
  - injection Hread as <-. exists [], [], []. cbn [fold_left fst snd app].
    repeat split. constructor.
  - cbn [readPosts] in Hread.
    destruct (readPost M file) as [r|] eqn:Hr; [|discriminate].
    destruct (readPosts M l) as [rest|] eqn:Hrest; [|discriminate].
    injection Hread as <-.
    assert (Hnext : forall file',
               fst file' = fst file -> linkedFile M byCluster file = Some file' ->
               exists l1 l1' l2,
                 file :: l = l1 ++ l2 /\
                 Forall2 (fun f f' => linkedFile M byCluster f = Some f') l1 l1' /\
                 fst (fold_left (linkStep M byCluster) rest (pre ++ file' :: l, true))
                 = pre ++ l1' ++ l2 /\
                 (if snd (fold_left (linkStep M byCluster) rest (pre ++ file' :: l, true))
                  then l2 = []
                  else exists f0 rest0, l2 = f0 :: rest0 /\ linkedFile M byCluster f0 = None)).
    { intros file' Hf Hlf.
      replace (pre ++ file' :: l) with ((pre ++ [file']) ++ l)
        by (rewrite <- app_assoc; reflexivity).
      destruct (IH (pre ++ [file']) rest) as [l1 [l1' [l2 [Hl [Hall [Hfst Hsnd]]]]]];
        [|reflexivity|].
      { rewrite <- app_assoc. cbn [app].
        rewrite map_app in *. cbn [map] in *. now rewrite Hf. }
      exists (file :: l1), (file' :: l1'), l2.
      split; [now rewrite Hl|]. split; [now constructor|].
      split; [|exact Hsnd]. rewrite Hfst, <- app_assoc. reflexivity. }
    assert (Hskip : linkedFile M byCluster file = Some file ->
               exists l1 l1' l2,
                 file :: l = l1 ++ l2 /\
                 Forall2 (fun f f' => linkedFile M byCluster f = Some f') l1 l1' /\
                 fst (fold_left (linkStep M byCluster) rest (pre ++ file :: l, true))
                 = pre ++ l1' ++ l2 /\
                 (if snd (fold_left (linkStep M byCluster) rest (pre ++ file :: l, true))
                  then l2 = []
                  else exists f0 rest0, l2 = f0 :: rest0 /\ linkedFile M byCluster f0 = None)).
    { now apply Hnext. }
    destruct r as [post|].
    + cbn [fold_left]. unfold linkStep at 2 4. cbn [fst snd].
      destruct (readPost_some _ _ Hr) as [_ [_ Hpost]].
      assert (Hpath : path post = fst file) by (rewrite Hpost; reflexivity).
      destruct (updatedContent byCluster post) as [u|] eqn:Hu.
      * destruct (stringify M u (data post)) as [text|] eqn:Hs.
        -- assert (Hlf : linkedFile M byCluster file = Some (fst file, text)).
           { unfold linkedFile. now rewrite Hr, Hu, Hs. }
           rewrite Hpath. destruct file as [p old]. cbn [fst] in *.
           rewrite writeFile_middle.
           ++ now apply Hnext.
           ++ rewrite map_app in Hnd. cbn [map fst] in Hnd.
              apply NoDup_remove_2 in Hnd. intros Hin. apply Hnd.
              apply in_or_app. now left.
        -- assert (Hlf : linkedFile M byCluster file = None).
           { unfold linkedFile. now rewrite Hr, Hu, Hs. }
           rewrite linkStep_stopped. cbn [fst snd].
           exists [], [], (file :: l). repeat split; [constructor|].
           now exists file, l.
      * apply Hskip. unfold linkedFile. now rewrite Hr, Hu.
    + apply Hskip. unfold linkedFile. now rewrite Hr.
Qed.

Lemma applyInternalLinks_unread (fs : store) :
  readPosts M fs = None -> applyInternalLinks M fs = (fs, false).
Proof. intros H. unfold applyInternalLinks. now rewrite H. Qed.

Lemma applyInternalLinks_spec (fs : store) (posts : list Post) :
  NoDup (map fst fs) ->
  readPosts M fs = Some posts ->
  exists l1 l1' l2,
    fs = l1 ++ l2 /\
    Forall2 (fun file file' =>
               linkedFile M (groupByCluster posts) file = Some file') l1 l1' /\
    fst (applyInternalLinks M fs) = l1' ++ l2 /\
    (if snd (applyInternalLinks M fs) then l2 = []
     else exists file rest,
         l2 = file :: rest /\ linkedFile M (groupByCluster posts) file = None).
Proof.
  intros Hnd Hread. unfold applyInternalLinks. rewrite Hread.
  exact (fold_linkStep (groupByCluster posts) fs [] posts Hnd Hread).
Qed.

End LinkPassFacts.

Lemma sample_paths_distinct : NoDup (map fst Sample.related1).
Proof.
  vm_compute. repeat constructor.
  - intros [H | []]. discriminate H.
  - intros [].
Qed.

(** C3 fails on the code. Three files with distinct paths: [a.mdx], whose
    front matter gives the slug only and whose body opens with a fenced
    block [cluster: C]; [b.mdx], beside it in no cluster; [x.mdx], alone
    in cluster C. The first run links [a] and [b] and leaves [x] alone.
    Writing [a], [matter.stringify] reads the fenced block at the head of
    the body as front matter and merges it into the data: the file it
    writes has [cluster: C] in its header. The second run therefore finds
    [a] in cluster C beside [x], and rewrites [x.mdx] with the blocks: a
    second run does not leave every file as the first left it. The markers
    do their part: with both present, [insertBlocks] inserts nothing. *)
Theorem applyInternalLinks_second_run_rewrites :
  let clusters := fun fs =>
    option_map (map Linker.cluster) (Linker.readPosts GrayMatter.reference fs) in
  NoDup (map fst Regroup.files) /\
  snd Regroup.once = true /\ snd Regroup.twice = true /\
  clusters Regroup.files = Some [js "Uncategorized"; js "Uncategorized"; js "C"] /\
  clusters (fst Regroup.once) = Some [js "C"; js "Uncategorized"; js "C"] /\
  Files.readFile (fst Regroup.once) Regroup.pathX = Some Regroup.textX /\
  (exists text,
      Files.readFile (fst Regroup.twice) Regroup.pathX = Some text /\
      text <> Regroup.textX /\
      includes Regroup.textX Linker.NAV_START = false /\
      includes text Linker.NAV_START = true) /\
  fst Regroup.twice <> fst Regroup.once /\
  (forall c e n v,
      includes c Linker.EARLY_START = true -> includes c Linker.NAV_START = true ->
      Linker.insertBlocks c e n v = c).
Proof.
  cbv zeta. split.
  { vm_compute. repeat constructor.
    - intros [H | [H | []]]; discriminate H.
    - intros [H | []]. discriminate H.
    - intros []. }
  split; [vm_compute; reflexivity|]. split; [vm_compute; reflexivity|].
  split; [vm_compute; reflexivity|]. split; [vm_compute; reflexivity|].
  split; [vm_compute; reflexivity|]. split.
  { eexists. split; [vm_compute; reflexivity|]. split.
    - apply eqb_neq. vm_compute. reflexivity.
    - split; vm_compute; reflexivity. }
  split.
  - intros E. apply (f_equal (fun fs => Files.readFile fs Regroup.pathX)) in E.
    revert E. vm_compute. discriminate.
  - apply insertBlocks_fixed.
Qed.

(** ** The related-links pass *)

Section RelatedFacts.
Import Files Related.

Lemma readFile_writeFile (fs : store) (p q text : jsstring) :
  readFile (writeFile fs p text) q = if JS.eqb p q then Some text else readFile fs q.
Proof.
  induction fs as [|[k old] fs IH]; cbn [writeFile readFile].
  - now destruct (JS.eqb p q).
  - destruct (JS.eqb k p) eqn:Ekp; cbn [readFile].
    + apply eqb_eq in Ekp. subst k. now destruct (JS.eqb p q).
    + destruct (JS.eqb k q) eqn:Ekq; [|exact IH].
      apply eqb_eq in Ekq. subst k.
      destruct (JS.eqb p q) eqn:Epq; [|reflexivity].
      apply eqb_eq in Epq. subst p. now rewrite eqb_refl in Ekp.
Qed.

Lemma extends_refl (fs : store) : extends fs fs.
Proof.
  intros p. destruct (readFile fs p) as [text|] eqn:E; [right | now left].
  exists text, []. now rewrite app_nil_r.
Qed.

Lemma extends_trans (fs1 fs2 fs3 : store) :
  extends fs1 fs2 -> extends fs2 fs3 -> extends fs1 fs3.
Proof.
  intros H12 H23 p.
  destruct (H12 p) as [[H1 H2] | [t [m [H1 H2]]]];
    destruct (H23 p) as [[H2' H3] | [t' [m' [H2' H3]]]]; try congruence.
  - now left.
  - right. exists t, (m ++ m'). split; [assumption|].
    rewrite H3. rewrite H2 in H2'. injection H2' as <-. now rewrite app_assoc.
Qed.

Lemma extends_append (fs : store) (p original more : jsstring) :
  readFile fs p = Some original -> extends fs (writeFile fs p (original ++ more)).
Proof.
  intros Hr q. rewrite readFile_writeFile.
  destruct (JS.eqb p q) eqn:E.
  - apply eqb_eq in E. subst q. right. now exists original, more.
  - destruct (readFile fs q) as [text|] eqn:Eq; [right | now left].
    exists text, []. now rewrite app_nil_r.
Qed.

Lemma setNth_length {A : Type} (l : list A) (i : nat) (x : A) :
  length (setNth l i x) = length l.
Proof.
  revert i. induction l as [|y l IH]; intros [|i]; simpl; auto.
Qed.

Lemma swap_length {A : Type} (a : list A) (i j : nat) : length (swap a i j) = length a.
Proof.
  unfold swap. destruct (nth_error a i); [|reflexivity].
  destruct (nth_error a j); [|reflexivity]. now rewrite !setNth_length.
Qed.

Lemma shuffle_length {A : Type} (a : list A) (rnd : draws) :
  length (fst (shuffle a rnd)) = length a.
Proof.
  unfold shuffle. generalize (length a - 1) as i. intros i.
  revert a rnd. induction i as [|i IH]; intros a rnd; cbn [shuffleFrom]; [reflexivity|].
  destruct (draw rnd) as [r rnd']. rewrite IH. apply swap_length.
Qed.

(** What one turn does: nothing when the meta has no other slug beside it
    in its cluster, otherwise the block is appended to the text found at
    the meta's path, whatever that text holds. *)
Lemma relateOne_spec (c : jsstring) (l : list PostMeta) (meta : PostMeta)
    (fs fs' : store) (rnd rnd' : draws) :
  relateOne c l meta (fs, rnd) = Some (fs', rnd') ->
  extends fs fs' /\
  (filter (fun m => negb (JS.eqb (slug m) (slug meta))) l <> [] ->
   exists original picks,
     picks <> [] /\
     readFile fs (mdxFilePath meta) = Some original /\
     readFile fs' (mdxFilePath meta) = Some (original ++ relatedBlock c picks)).
Proof.
  unfold relateOne.
  set (others := filter (fun m => negb (JS.eqb (slug m) (slug meta))) l).
  pose proof (shuffle_length others rnd) as Hlen.
  destruct (shuffle others rnd) as [shuffled rnd1]. cbn [fst] in Hlen.
  rewrite slice_prefix by lia.
  destruct (firstn (Z.to_nat 3) shuffled) as [|x picks] eqn:Epicks.
  - intros H. injection H as <- <-. split; [apply extends_refl|].
    intros Hne. exfalso. destruct shuffled as [|y shuffled]; [|discriminate].
    destruct others; [congruence | discriminate].
  - destruct (readFile fs (mdxFilePath meta)) as [original|] eqn:Er; [|discriminate].
    intros H. injection H as <- <-. split; [now apply extends_append|].
    intros _. exists original, (x :: picks). split; [discriminate|].
    split; [reflexivity|]. rewrite readFile_writeFile. now rewrite eqb_refl.
Qed.

Lemma relateStep_none (c : jsstring) (l metas : list PostMeta) :
  fold_left (relateStep c l) metas None = None.
Proof. induction metas as [|m metas IH]; [reflexivity | exact IH]. Qed.

Lemma relateCluster_none (entries : list (jsstring * list PostMeta)) :
  fold_left relateCluster entries None = None.
Proof.
  induction entries as [|e entries IH]; [reflexivity|].
  cbn [fold_left]. unfold relateCluster at 2. now rewrite relateStep_none.
Qed.

Lemma relateStep_extends (c : jsstring) (l metas : list PostMeta)
    (st st' : store * draws) :
  fold_left (relateStep c l) metas (Some st) = Some st' -> extends (fst st) (fst st').
Proof.
  revert st. induction metas as [|m metas IH]; intros st H; cbn [fold_left] in H.
  - injection H as <-. apply extends_refl.
  - cbn [relateStep] in H.
    destruct (relateOne c l m st) as [st1|] eqn:E; [|now rewrite relateStep_none in H].
    destruct st as [fs rnd], st1 as [fs1 rnd1].
    apply relateOne_spec in E as [E _].
    eapply extends_trans; [exact E | exact (IH (fs1, rnd1) H)].
Qed.

Lemma relateCluster_extends (entries : list (jsstring * list PostMeta))
    (st st' : store * draws) :
  fold_left relateCluster entries (Some st) = Some st' -> extends (fst st) (fst st').
Proof.
  revert st. induction entries as [|e entries IH]; intros st H; cbn [fold_left] in H.
  - injection H as <-. apply extends_refl.
  - destruct (relateCluster (Some st) e) as [st1|] eqn:E;
      [|now rewrite relateCluster_none in H].
    eapply extends_trans; [|exact (IH st1 H)].
    unfold relateCluster in E. now apply relateStep_extends in E.
Qed.

(** The related-links pass only ever appends to the files that are there. *)
Lemma addRelatedLinks_extends (metas : list PostMeta) (st st' : store * draws) :
  addRelatedLinks metas st = Some st' -> extends (fst st) (fst st').
Proof. apply relateCluster_extends. Qed.

End RelatedFacts.

Section RelatedClaim.
Import Files Related.











End RelatedClaim.



(** ** The metadata header through the later stages *)

Section HeaderFacts.
Import Files Linker.

Context {host : Collation}.

(** C7 (as the code has it). The related-links pass leaves every file's
    text in place and only appends below it, so the header it finds stays
    byte for byte. The link pass keeps each file's path and either leaves
    the file alone or replaces its text by [matter.stringify] of the data
    parsed from it (passed on as parsed) and of the body with the blocks
    inserted: the header is written anew from the data, not kept as text.
    This holds of the store the link pass leaves whether it returns or
    throws. *)
Theorem header_appended_below_then_reserialised (metas : list Related.PostMeta)
    (st st' : store * Related.draws) (M : Matter) (fs : store) :
  Related.addRelatedLinks metas st = Some st' ->
  NoDup (map fst fs) ->
  Related.extends (fst st) (fst st') /\
  map fst (fst (applyInternalLinks M fs)) = map fst fs /\
  (forall p text',
      In (p, text') (fst (applyInternalLinks M fs)) ->
      exists text,
        In (p, text) fs /\
        (text' = text \/
         exists e n v d body,
           matter M text = Some (d, body) /\
           stringify M (insertBlocks body e n v) d = Some text')).
Proof.
  intros Hrun Hnd. split; [exact (addRelatedLinks_extends metas st st' Hrun)|].
  destruct (readPosts M fs) as [posts|] eqn:Hread.
  - destruct (applyInternalLinks_spec M fs posts Hnd Hread)
      as [l1 [l1' [l2 [Hfs [Hall [Hout _]]]]]].
    rewrite Hout. split.
    + rewrite Hfs, !map_app. f_equal.
      clear Hfs Hout. induction Hall as [|f f' l l' Hf _ IH]; [reflexivity|].
      cbn [map]. rewrite IH. f_equal. exact (linkedFile_path M _ _ _ Hf).
    + intros p text' Hin. apply in_app_or in Hin as [Hin | Hin].
      * destruct (Forall2_In_r _ _ _ _ Hall Hin) as [[q text] [Hq Hlf]].
        assert (Hqfs : In (q, text) fs) by (rewrite Hfs; apply in_or_app; now left).
        destruct (linkedFile_shape M _ _ _ Hlf)
          as [H | [e [n [v [d [body [t [Hm [Hs H]]]]]]]]]; cbn [fst snd] in *.
        -- injection H as -> ->. exists text. split; [assumption | now left].
        -- injection H as -> ->. exists text. split; [assumption|].
           right. now exists e, n, v, d, body.
      * exists text'. split; [|now left]. rewrite Hfs. apply in_or_app. now right.
  - rewrite (applyInternalLinks_unread M fs Hread). cbn [fst].
    split; [reflexivity|]. intros p text' Hin. exists text'. split; [assumption | now left].
Qed.

End HeaderFacts.

Lemma header_appended_below_then_reserialised_witness :
  Related.extends Sample.written Sample.related1 /\
  map fst (fst (Linker.applyInternalLinks (host := Linker.english)
                  GrayMatter.reference Sample.related1))
    = map fst Sample.related1 /\
  (forall p text',
      In (p, text') (fst (Linker.applyInternalLinks (host := Linker.english)
                            GrayMatter.reference Sample.related1)) ->
      exists text,
        In (p, text) Sample.related1 /\
        (text' = text \/
         exists e n v d body,
           Linker.matter GrayMatter.reference text = Some (d, body) /\
           Linker.stringify GrayMatter.reference (Linker.insertBlocks body e n v) d
           = Some text')).
Proof.
  apply (@header_appended_below_then_reserialised Linker.english Sample.metas
           (Sample.written, []) (Sample.related1, [])
           GrayMatter.reference Sample.related1).
  - vm_compute. reflexivity.
  - exact sample_paths_distinct.
Defined.

(** C7 (as the spec words it) fails on the link pass: the header
    [stringifyFrontmatter] wrote opens the document before the pass (and
    after the related-links pass), and no longer after it: gray-matter
    writes [title: Cat Food] where the Assembler wrote the JSON string. *)
Lemma header_not_kept_by_link_pass :
  let header := Assembler.stringifyFrontmatter Sample.frontmatter1 in
  let linked :=
    fst (Linker.applyInternalLinks (host := Linker.english)
           GrayMatter.reference Sample.related1) in
  (exists text, Files.readFile Sample.written Sample.path1 = Some text /\
                isPrefix header text = true) /\
  (exists text, Files.readFile Sample.related1 Sample.path1 = Some text /\
                isPrefix header text = true) /\
  (exists text, Files.readFile linked Sample.path1 = Some text /\
                isPrefix header text = false /\
                isPrefix (js "---" ++ nl ++ js "title: Cat Food" ++ nl) text = true).
Proof.
  cbv zeta. repeat split; eexists; (split; [vm_compute; reflexivity|]);
    try split; vm_compute; reflexivity.
Qed.

(* ================================================================== *)
(** * Further properties of the code                                   *)
(* ================================================================== *)

(** ** [slice] in general *)

Lemma slice_length {A : Type} (l : list A) (a b : Z) :
  Z.of_nat (length (slice l a b))
  = Z.max 0 (relIndex (Z.of_nat (length l)) b - relIndex (Z.of_nat (length l)) a).
Proof.
  unfold slice. cbv zeta. set (len := Z.of_nat (length l)).
  assert (Ha : (0 <= relIndex len a <= len)%Z).
  { unfold relIndex, len. destruct (a <? 0)%Z eqn:E; [|apply Z.ltb_ge in E]; lia. }
  assert (Hb : (0 <= relIndex len b <= len)%Z).
  { unfold relIndex, len. destruct (b <? 0)%Z eqn:E; [|apply Z.ltb_ge in E]; lia. }
  rewrite length_firstn, length_skipn. unfold len in *. lia.
Qed.

Lemma slice_between {A : Type} (l : list A) (a b : Z) :
  (0 <= a <= Z.of_nat (length l))%Z -> (a <= b)%Z ->
  slice l a b = firstn (Z.to_nat (b - a)) (skipn (Z.to_nat a) l).
Proof.
  intros Ha Hab. unfold slice, relIndex.
  destruct (a <? 0)%Z eqn:Ea; [apply Z.ltb_lt in Ea; lia|].
  destruct (b <? 0)%Z eqn:Eb; [apply Z.ltb_lt in Eb; lia|].
  rewrite (Z.min_l a) by lia.
  destruct (Z.le_gt_cases b (Z.of_nat (length l))) as [Hle | Hgt].
  - now rewrite Z.min_l by lia.
  - rewrite Z.min_r by lia.
    rewrite !firstn_all2; [reflexivity | |]; rewrite length_skipn; lia.
Qed.

(** [slice(0, i)] and [slice(i)] cut a list in two, whatever [i] is. *)
Lemma slice_cut {A : Type} (l : list A) (i : Z) :
  slice l 0 i ++ sliceFrom l i = l.
Proof.
  unfold sliceFrom, slice. cbv zeta. set (len := Z.of_nat (length l)).
  assert (Hi : (0 <= relIndex len i <= len)%Z).
  { unfold relIndex, len. destruct (i <? 0)%Z eqn:E; [|apply Z.ltb_ge in E]; lia. }
  assert (H0 : relIndex len 0 = 0%Z).
  { unfold relIndex, len. cbn. lia. }
  assert (Hl : relIndex len len = len).
  { unfold relIndex, len. destruct (Z.of_nat (length l) <? 0)%Z eqn:E;
      [apply Z.ltb_lt in E|]; lia. }
  rewrite H0, Hl, Z.sub_0_r. cbn [Z.to_nat skipn].
  rewrite (firstn_all2 (n := Z.to_nat (len - relIndex len i)));
    [apply firstn_skipn|]. rewrite length_skipn. unfold len in *. lia.
Qed.

(** ** The planner's counts and the batch loop *)

Section BatchFacts.
Import Planner Batching.

Lemma totalKeywords_from (plan : list Cluster) (z : Z) :
  fold_left (fun total c => (total + Z.of_nat (length (keywordsOrEmpty c)))%Z) plan z
  = (z + Z.of_nat (length (pairsInOrder plan)))%Z.
Proof.
  revert z. induction plan as [|c plan IH]; intros z; cbn [fold_left pairsInOrder flat_map].
  - cbn. lia.
  - rewrite IH. fold (pairsInOrder plan). rewrite length_app, length_map. lia.
Qed.

(** X1. The number of keywords [main] logs is the number of tasks before the
    cut, and [slice(0, maxPosts)] keeps [min(maxPosts, total)] of them; a
    negative [maxPosts] does not empty the list but drops that many tasks
    from its end. *)
Theorem targetTasks_count (plan : list Cluster) (maxPosts : Z) :
  totalKeywords plan = Z.of_nat (length (allTasks plan)) /\
  targetTasks plan maxPosts
  = firstn (Z.to_nat (if (maxPosts <? 0)%Z then totalKeywords plan + maxPosts
                      else maxPosts))
      (allTasks plan) /\
  Z.of_nat (length (targetTasks plan maxPosts))
  = (if (maxPosts <? 0)%Z then Z.max 0 (totalKeywords plan + maxPosts)
     else Z.min maxPosts (totalKeywords plan)).
Proof.
  assert (Htotal : totalKeywords plan = Z.of_nat (length (allTasks plan))).
  { unfold totalKeywords. rewrite totalKeywords_from, allTasks_flat. lia. }
  assert (H0 : (0 <? 0)%Z = false) by reflexivity.
  split; [exact Htotal|]. split.
  - rewrite Htotal. unfold targetTasks, slice, relIndex. rewrite H0.
    rewrite (Z.min_l 0) by lia. cbn [Z.to_nat skipn]. rewrite Z.sub_0_r.
    destruct (maxPosts <? 0)%Z eqn:E; [apply Z.ltb_lt in E | apply Z.ltb_ge in E].
    + f_equal. lia.
    + destruct (Z.le_gt_cases maxPosts (Z.of_nat (length (allTasks plan)))) as [Hle | Hgt].
      * now rewrite Z.min_l by lia.
      * rewrite Z.min_r by lia. rewrite !firstn_all2; [reflexivity | lia | lia].
  - unfold targetTasks. rewrite slice_length, Htotal. unfold relIndex. rewrite H0.
    destruct (maxPosts <? 0)%Z eqn:E; [apply Z.ltb_lt in E | apply Z.ltb_ge in E]; lia.
Qed.

Lemma batchesFrom_spec {A : Type} (tasks : list A) (batchSize : Z) :
  (1 <= batchSize)%Z ->
  forall fuel i,
    (0 <= i)%Z -> (Z.of_nat (length tasks) - i <= Z.of_nat fuel)%Z ->
    exists bs,
      batchesFrom fuel tasks batchSize i = Some bs /\
      concat bs = skipn (Z.to_nat i) tasks /\
      Forall (fun b => (1 <= Z.of_nat (length b) <= batchSize)%Z) bs /\
      (Z.of_nat (length bs) * batchSize
       < Z.max 0 (Z.of_nat (length tasks) - i) + batchSize)%Z /\
      (Z.max 0 (Z.of_nat (length tasks) - i) <= Z.of_nat (length bs) * batchSize)%Z.
Proof.
  intros Hbs. induction fuel as [|fuel IH]; intros i Hi Hfuel.
  - cbn [batchesFrom].
    destruct (i <? Z.of_nat (length tasks))%Z eqn:E; [apply Z.ltb_lt in E; lia|].
    apply Z.ltb_ge in E. exists []. split; [reflexivity|]. split.
    + symmetry. apply skipn_all2. lia.
    + split; [constructor|]. cbn [length]. lia.
  - cbn [batchesFrom].
    destruct (i <? Z.of_nat (length tasks))%Z eqn:E.
    + apply Z.ltb_lt in E.
      destruct (IH (i + batchSize)%Z) as [bs [Hrun [Hcat [Hall [Hlt Hge]]]]]; [lia | lia |].
      rewrite Hrun. exists (slice tasks i (i + batchSize) :: bs).
      split; [reflexivity|].
      assert (Hslice : slice tasks i (i + batchSize)
                       = firstn (Z.to_nat batchSize) (skipn (Z.to_nat i) tasks)).
      { rewrite slice_between by lia. do 2 f_equal. lia. }
      split; [|split; [|split]].
      * cbn [concat]. rewrite Hcat, Hslice.
        replace (Z.to_nat (i + batchSize)) with (Z.to_nat batchSize + Z.to_nat i) by lia.
        rewrite <- skipn_skipn. apply firstn_skipn.
      * constructor; [|exact Hall]. rewrite Hslice, length_firstn, length_skipn. lia.
      * cbn [length]. rewrite Nat2Z.inj_succ.
        destruct (Z.le_gt_cases (Z.of_nat (length tasks) - (i + batchSize)) 0) as [Hend | Hmore].
        -- rewrite Z.max_l in Hlt by lia.
           assert (Hn : Z.of_nat (length bs) = 0%Z) by nia.
           rewrite Hn. lia.
        -- rewrite Z.max_r in Hlt by lia. lia.
      * cbn [length]. rewrite Nat2Z.inj_succ. lia.
    + apply Z.ltb_ge in E. exists []. split; [reflexivity|]. split.
      * symmetry. apply skipn_all2. lia.
      * split; [constructor|]. cbn [length]. lia.
Qed.

(** X2. With a batch size of at least 1 the loop ends within as many turns
    as there are tasks; the batches it hands to [processBatch] are the
    task list cut in order into non-empty pieces of at most [batchSize],
    [ceil(length / batchSize)] of them. *)
Theorem batches_partition {A : Type} (tasks : list A) (batchSize : Z) (fuel : nat) :
  (1 <= batchSize)%Z -> length tasks <= fuel ->
  exists bs,
    batches fuel tasks batchSize = Some bs /\
    concat bs = tasks /\
    Forall (fun b => (1 <= Z.of_nat (length b) <= batchSize)%Z) bs /\
    Z.of_nat (length bs) = ((Z.of_nat (length tasks) + batchSize - 1) / batchSize)%Z.
Proof.
  intros Hbs Hfuel.
  destruct (batchesFrom_spec tasks batchSize Hbs fuel 0)
    as [bs [Hrun [Hcat [Hall [Hlt Hge]]]]]; [lia | lia |].
  exists bs. split; [exact Hrun|]. split; [exact Hcat|]. split; [exact Hall|].
  rewrite Z.sub_0_r in Hlt, Hge. rewrite Z.max_r in Hlt, Hge by lia.
  apply Z.div_unique with
    (r := (Z.of_nat (length tasks) + batchSize - 1 - batchSize * Z.of_nat (length bs))%Z).
  - left. lia.
  - lia.
Qed.

(** X3. With a batch size of 0 or less and at least one task, [i] never
    reaches the length and the loop does not end. *)
Theorem batches_never_end {A : Type} (tasks : list A) (batchSize : Z) (fuel : nat) :
  (batchSize <= 0)%Z -> tasks <> [] -> batches fuel tasks batchSize = None.
Proof.
  intros Hbs Hne. unfold batches.
  assert (G : forall i, (i <= 0)%Z -> batchesFrom fuel tasks batchSize i = None).
  { induction fuel as [|fuel IH]; intros i Hi; cbn [batchesFrom].
    - destruct (i <? Z.of_nat (length tasks))%Z eqn:E; [reflexivity|].
      apply Z.ltb_ge in E. destruct tasks; [congruence | cbn [length] in E; lia].
    - destruct (i <? Z.of_nat (length tasks))%Z eqn:E.
      + rewrite IH by lia. reflexivity.
      + apply Z.ltb_ge in E. destruct tasks; [congruence | cbn [length] in E; lia]. }
  apply G. lia.
Qed.

End BatchFacts.

Lemma batches_partition_witness :
  exists bs,
    Batching.batches 5 [1; 2; 3; 4; 5] 2 = Some bs /\
    concat bs = [1; 2; 3; 4; 5] /\
    Forall (fun b => (1 <= Z.of_nat (length b) <= 2)%Z) bs /\
    Z.of_nat (length bs) = ((Z.of_nat (length [1; 2; 3; 4; 5]) + 2 - 1) / 2)%Z.
Proof.
  apply (batches_partition [1; 2; 3; 4; 5] 2 5); [lia | apply le_n].
Defined.

Lemma batches_never_end_witness :
  Batching.batches 7 [1; 2; 3] 0 = None.
Proof.
  apply (batches_never_end [1; 2; 3] 0 7); [lia | discriminate].
Defined.

(** ** [shuffle] and what the related-links pass picks *)

Section ShuffleFacts.
Import Related.

Lemma setNth_perm {A : Type} (a : list A) (i : nat) (x y : A) :
  nth_error a i = Some x -> Permutation (x :: setNth a i y) (y :: a).
Proof.
  revert i. induction a as [|z a IH]; intros [|i] H; cbn in H; try discriminate.
  - injection H as ->. cbn [setNth]. apply perm_swap.
  - cbn [setNth]. etransitivity; [apply perm_swap|].
    etransitivity; [apply perm_skip, (IH i H) | apply perm_swap].
Qed.

Lemma nth_error_setNth {A : Type} (a : list A) (i j : nat) (x y : A) :
  nth_error a i = Some x -> nth_error a j = Some y ->
  nth_error (setNth a i y) j = Some y.
Proof.
  revert i j. induction a as [|z a IH]; intros [|i] [|j] Hi Hj; cbn in Hi, Hj;
    try discriminate; cbn [setNth nth_error].
  - reflexivity.
  - assumption.
  - assumption.
  - now apply (IH i j).
Qed.

Lemma swap_perm {A : Type} (a : list A) (i j : nat) : Permutation (swap a i j) a.
Proof.
  unfold swap. destruct (nth_error a i) as [x|] eqn:Ei; [|reflexivity].
  destruct (nth_error a j) as [y|] eqn:Ej; [|reflexivity].
  apply Permutation_cons_inv with (a := y).
  etransitivity; [apply setNth_perm, (nth_error_setNth a i j x y Ei Ej)|].
  now apply setNth_perm.
Qed.

Lemma shuffleFrom_spec {A : Type} (i : nat) (a : list A) (rnd : draws) :
  Permutation (fst (shuffleFrom i a rnd)) a /\
  snd (shuffleFrom i a rnd) = skipn i rnd.
Proof.
  revert a rnd. induction i as [|i IH]; intros a rnd; cbn [shuffleFrom].
  - now split.
  - destruct rnd as [|r rnd]; cbn [draw].
    + destruct (IH (swap a (S i) (0 mod (S i + 1))) []) as [Hp Hd].
      split; [etransitivity; [exact Hp | apply swap_perm]|].
      rewrite Hd. now rewrite !skipn_nil.
    + destruct (IH (swap a (S i) (r mod (S i + 1))) rnd) as [Hp Hd].
      split; [etransitivity; [exact Hp | apply swap_perm]|].
      rewrite Hd. reflexivity.
Qed.

(** X4. [shuffle] hands back the elements it was given, each as often as it
    came in, in some order, and takes one draw of [Math.random] per
    element but the first. *)
Theorem shuffle_permutation {A : Type} (arr : list A) (rnd : draws) :
  Permutation (fst (shuffle arr rnd)) arr /\
  snd (shuffle arr rnd) = skipn (length arr - 1) rnd.
Proof.
  unfold shuffle. apply shuffleFrom_spec.
Qed.

End ShuffleFacts.

Section RelatedPicks.
Import Files Related.

Lemma firstn_incl {A : Type} (n : nat) (l : list A) : incl (firstn n l) l.
Proof.
  intros x Hx. rewrite <- (firstn_skipn n l). apply in_or_app. now left.
Qed.

Lemma firstn_NoDup {A : Type} (n : nat) (l : list A) : NoDup l -> NoDup (firstn n l).
Proof.
  intros H. rewrite <- (firstn_skipn n l) in H. now apply NoDup_app_remove_r in H.
Qed.

(** One turn, in full: the picks are the first three of a reordering of
    the other slugs of the list. *)
Lemma relateOne_picks (c : jsstring) (l : list PostMeta) (meta : PostMeta)
    (fs fs' : store) (rnd rnd' : draws) :
  relateOne c l meta (fs, rnd) = Some (fs', rnd') ->
  exists picks,
    Z.of_nat (length picks)
    = Z.min 3 (Z.of_nat (length (filter (fun m => negb (JS.eqb (slug m) (slug meta))) l))) /\
    incl picks (filter (fun m => negb (JS.eqb (slug m) (slug meta))) l) /\
    (NoDup (filter (fun m => negb (JS.eqb (slug m) (slug meta))) l) -> NoDup picks) /\
    match picks with
    | [] => fs' = fs
    | _ :: _ =>
        exists original,
          readFile fs (mdxFilePath meta) = Some original /\
          fs' = writeFile fs (mdxFilePath meta) (original ++ relatedBlock c picks)
    end.
Proof.
  unfold relateOne.
  set (others := filter (fun m => negb (JS.eqb (slug m) (slug meta))) l).
  assert (Hperm : Permutation (fst (shuffle others rnd)) others)
    by (unfold shuffle; apply shuffleFrom_spec).
  destruct (shuffle others rnd) as [shuffled rnd1]. cbn [fst] in Hperm.
  rewrite slice_prefix by lia.
  assert (Hlen : Z.of_nat (length (firstn (Z.to_nat 3) shuffled))
                 = Z.min 3 (Z.of_nat (length others))).
  { rewrite length_firstn, (Permutation_length Hperm). lia. }
  assert (Hincl : incl (firstn (Z.to_nat 3) shuffled) others).
  { intros x Hx. apply (Permutation_in x Hperm). now apply firstn_incl in Hx. }
  assert (Hnd : NoDup others -> NoDup (firstn (Z.to_nat 3) shuffled)).
  { intros H. apply firstn_NoDup. apply (Permutation_NoDup (Permutation_sym Hperm) H). }
  destruct (firstn (Z.to_nat 3) shuffled) as [|x picks] eqn:Epicks.
  - intros H. injection H as <- <-. exists []. now repeat split.
  - destruct (readFile fs (mdxFilePath meta)) as [original|] eqn:Er; [|discriminate].
    intros H. injection H as <- <-. exists (x :: picks).
    split; [exact Hlen|]. split; [exact Hincl|]. split; [exact Hnd|].
    now exists original.
Qed.

Lemma relateOne_frame (c : jsstring) (l : list PostMeta) (meta : PostMeta)
    (fs fs' : store) (rnd rnd' : draws) (p : jsstring) :
  relateOne c l meta (fs, rnd) = Some (fs', rnd') ->
  (p = mdxFilePath meta -> filter (fun m => negb (JS.eqb (slug m) (slug meta))) l = []) ->
  readFile fs' p = readFile fs p.
Proof.
  intros Hrun Hp. apply relateOne_picks in Hrun as [picks [Hlen [_ [_ Hfs]]]].
  destruct picks as [|x picks]; [now subst fs'|].
  destruct Hfs as [original [_ ->]]. rewrite readFile_writeFile.
  destruct (JS.eqb (mdxFilePath meta) p) eqn:E; [|reflexivity].
  apply eqb_eq in E. symmetry in E. rewrite (Hp E) in Hlen. cbn [length] in Hlen. lia.
Qed.

Lemma relateOne_total (c : jsstring) (l : list PostMeta) (meta : PostMeta)
    (fs : store) (rnd : draws) :
  readFile fs (mdxFilePath meta) <> None ->
  exists st', relateOne c l meta (fs, rnd) = Some st'.
Proof.
  intros Hfile. unfold relateOne.
  destruct (shuffle _ rnd) as [shuffled rnd1].
  destruct (slice shuffled 0 3); [eexists; reflexivity|].
  destruct (readFile fs (mdxFilePath meta)); [eexists; reflexivity | congruence].
Qed.

Lemma extends_keeps (fs fs' : store) (p : jsstring) :
  extends fs fs' -> readFile fs p <> None -> readFile fs' p <> None.
Proof.
  intros H Hp. destruct (H p) as [[H1 _] | [t [m [_ H2]]]]; congruence.
Qed.

Lemma relateStep_total (c : jsstring) (l metas : list PostMeta) (st : store * draws) :
  (forall m, In m metas -> readFile (fst st) (mdxFilePath m) <> None) ->
  exists st', fold_left (relateStep c l) metas (Some st) = Some st'.
Proof.
  revert st. induction metas as [|m metas IH]; intros [fs rnd] Hfiles; cbn [fold_left].
  - now eexists.
  - cbn [relateStep].
    destruct (relateOne_total c l m fs rnd) as [[fs1 rnd1] H1];
      [apply Hfiles; now left|].
    rewrite H1. apply IH. intros m' Hm'. cbn [fst].
    apply relateOne_spec in H1 as [Hext _].
    apply (extends_keeps fs fs1); [exact Hext|]. apply Hfiles. now right.
Qed.

Lemma relateCluster_total (entries : list (jsstring * list PostMeta)) (st : store * draws) :
  (forall e m, In e entries -> In m (snd e) -> readFile (fst st) (mdxFilePath m) <> None) ->
  exists st', fold_left relateCluster entries (Some st) = Some st'.
Proof.
  revert st. induction entries as [|e entries IH]; intros st Hfiles; cbn [fold_left].
  - now eexists.
  - destruct (relateStep_total (fst e) (snd e) (snd e) st) as [st1 H1].
    { intros m Hm. apply (Hfiles e m); [now left | exact Hm]. }
    unfold relateCluster at 2. rewrite H1. apply IH. intros e' m He' Hm.
    apply (extends_keeps (fst st) (fst st1)).
    + exact (relateStep_extends _ _ _ _ _ H1).
    + apply (Hfiles e' m); [now right | exact Hm].
Qed.

(** X6. The pass runs to the end whenever every meta's file is there: the
    only failure is a read of a missing file. *)
Theorem addRelatedLinks_completes (metas : list PostMeta) (fs : store) (rnd : draws) :
  (forall meta, In meta metas -> readFile fs (mdxFilePath meta) <> None) ->
  exists st', addRelatedLinks metas (fs, rnd) = Some st'.
Proof.
  intros Hfiles. apply relateCluster_total. intros [c l] m He Hm. cbn [fst snd] in *.
  apply Hfiles. apply (groupBy_entry PostMeta cluster) in He. subst l.
  now apply filter_In in Hm as [Hm _].
Qed.

Lemma relateStep_frame (c : jsstring) (l metas : list PostMeta)
    (st st' : store * draws) (p : jsstring) :
  (forall m, In m metas -> p = mdxFilePath m ->
             filter (fun m' => negb (JS.eqb (slug m') (slug m))) l = []) ->
  fold_left (relateStep c l) metas (Some st) = Some st' ->
  readFile (fst st') p = readFile (fst st) p.
Proof.
  revert st. induction metas as [|m metas IH]; intros st Hp H; cbn [fold_left] in H.
  - now injection H as <-.
  - cbn [relateStep] in H.
    destruct (relateOne c l m st) as [st1|] eqn:E; [|now rewrite relateStep_none in H].
    destruct st as [fs rnd], st1 as [fs1 rnd1].
    rewrite (IH (fs1, rnd1)); [| intros m' Hm'; apply Hp; now right | exact H].
    cbn [fst]. apply (relateOne_frame _ _ _ _ _ _ _ _ E). apply Hp. now left.
Qed.

Lemma relateCluster_frame (entries : list (jsstring * list PostMeta))
    (st st' : store * draws) (p : jsstring) :
  (forall e m, In e entries -> In m (snd e) -> p = mdxFilePath m ->
               filter (fun m' => negb (JS.eqb (slug m') (slug m))) (snd e) = []) ->
  fold_left relateCluster entries (Some st) = Some st' ->
  readFile (fst st') p = readFile (fst st) p.
Proof.
  revert st. induction entries as [|e entries IH]; intros st Hp H; cbn [fold_left] in H.
  - now injection H as <-.
  - destruct (relateCluster (Some st) e) as [st1|] eqn:E;
      [|now rewrite relateCluster_none in H].
    rewrite (IH st1); [| intros e' m He' Hm; apply Hp; [now right | exact Hm] | exact H].
    unfold relateCluster in E. apply (relateStep_frame _ _ _ _ _ p) in E; [exact E|].
    intros m Hm. apply (Hp e m); [now left | exact Hm].
Qed.

(** X7. The pass leaves a path alone unless a meta with that path has a peer
    to link to: a file of no meta, and the file of a meta that is alone in
    its cluster (or shares its slug with all of it), reads after the pass
    as it did before. *)
Theorem addRelatedLinks_frame (metas : list PostMeta) (fs fs' : store)
    (rnd rnd' : draws) (p : jsstring) :
  addRelatedLinks metas (fs, rnd) = Some (fs', rnd') ->
  (forall meta peer, In meta metas -> mdxFilePath meta = p -> In peer metas ->
                     cluster peer = cluster meta -> slug peer = slug meta) ->
  readFile fs' p = readFile fs p.
Proof.
  intros Hrun Halone.
  apply (relateCluster_frame _ _ _ p) in Hrun; [exact Hrun|].
  intros [c l] m He Hm Hp. cbn [snd] in *.
  apply (groupBy_entry PostMeta cluster) in He. subst l.
  apply filter_In in Hm as [Hm Hc]. unfold hasKey in Hc. apply eqb_eq in Hc.
  destruct (filter _ (filter _ metas)) as [|peer rest] eqn:E; [reflexivity|].
  exfalso. assert (Hin : In peer (peer :: rest)) by now left.
  rewrite <- E in Hin. apply filter_In in Hin as [Hin Hs].
  apply filter_In in Hin as [Hin Hc']. unfold hasKey in Hc'. apply eqb_eq in Hc'.
  apply negb_true_iff in Hs. apply eqb_neq in Hs. apply Hs.
  apply (Halone m peer); [exact Hm | now symmetry | exact Hin | congruence].
Qed.


End RelatedPicks.

Lemma addRelatedLinks_completes_witness :
  exists st', Related.addRelatedLinks Sample.metas (Sample.written, [1; 0]) = Some st'.
Proof.
  apply (addRelatedLinks_completes Sample.metas Sample.written [1; 0]).
  intros meta [<- | [<- | []]]; vm_compute; discriminate.
Defined.

Lemma addRelatedLinks_frame_witness :
  Files.readFile (fst Litter.related) (js "content/dog-a.mdx")
  = Files.readFile Litter.written (js "content/dog-a.mdx").
Proof.
  apply (addRelatedLinks_frame Litter.metas Litter.written (fst Litter.related)
           Litter.rnd (snd Litter.related) (js "content/dog-a.mdx")).
  - vm_compute. reflexivity.
  - intros meta peer [<- | [<- | [<- | [<- | [<- | [<- | []]]]]]] Hp;
      try (vm_compute in Hp; discriminate Hp);
      intros [<- | [<- | [<- | [<- | [<- | [<- | []]]]]]] Hc;
      try (vm_compute in Hc; discriminate Hc); reflexivity.
Defined.


(** ** [insertBlocks] only adds text *)

Section InsertMore.
Import Linker.

Lemma insertEarly_adds (c e : jsstring) :
  exists pre rest e',
    c = pre ++ rest /\ insertEarly c e = pre ++ e' ++ rest /\ (e' = [] \/ e' = e).
Proof.
  unfold insertEarly.
  destruct (nonEmpty e);
    [|exists [], c, []; cbn [app]; repeat split; now left].
  destruct (negb (nthIndexOf c H2 2 =? -1)%Z && negb (includes c EARLY_START));
    [|exists [], c, []; cbn [app]; repeat split; now left].
  exists (slice c 0 (indexOf c nl (nthIndexOf c H2 2 + 1))),
         (sliceFrom c (indexOf c nl (nthIndexOf c H2 2 + 1))), e.
  split; [symmetry; apply slice_cut|]. split; [reflexivity | now right].
Qed.

(** X8. [insertBlocks] never removes or reorders a character of the content:
    the content is cut in two at one place, where the early block may go,
    and the end block and the nav block may follow the second part. This
    holds also where the early block goes to the wrong place. *)
Theorem insertBlocks_only_adds (content earlyBlock endBlock navBlock : jsstring) :
  exists pre rest e n v,
    content = pre ++ rest /\
    insertBlocks content earlyBlock endBlock navBlock = pre ++ e ++ rest ++ n ++ v /\
    (e = [] \/ e = earlyBlock) /\
    (n = [] \/ n = endBlock) /\
    (v = [] \/ v = navBlock).
Proof.
  destruct (insertEarly_adds content earlyBlock) as [pre [rest [e [Hc [He Hee]]]]].
  unfold insertBlocks. rewrite He.
  set (out1 := pre ++ e ++ rest).
  assert (Hn : exists n, appendEnd out1 endBlock = out1 ++ n /\ (n = [] \/ n = endBlock)).
  { unfold appendEnd.
    destruct (nonEmpty endBlock && negb (includes out1 EARLY_START)).
    - exists endBlock. split; [reflexivity | now right].
    - exists []. rewrite app_nil_r. split; [reflexivity | now left]. }
  destruct Hn as [n [Hn Hnn]]. rewrite Hn.
  set (out2 := out1 ++ n).
  assert (Hv : exists v, appendNav out2 navBlock = out2 ++ v /\ (v = [] \/ v = navBlock)).
  { unfold appendNav.
    destruct (nonEmpty navBlock && negb (includes out2 NAV_START)).
    - exists navBlock. split; [reflexivity | now right].
    - exists []. rewrite app_nil_r. split; [reflexivity | now left]. }
  destruct Hv as [v [Hv Hvv]]. rewrite Hv.
  exists pre, rest, e, n, v. split; [exact Hc|]. split.
  - unfold out2, out1. now rewrite <- !app_assoc.
  - now repeat split.
Qed.

(** X9. In content that ends with a newline, as every file [processBatch]
    writes does, the line of each heading is closed: when the early block
    is inserted it goes right after the line of the second top-level
    heading, and the rest of the content follows it unchanged. *)
Theorem early_block_follows_second_heading (body h : jsstring) (items : list Post)
    (idx : Z) :
  items <> [] ->
  includes (body ++ nl) EARLY_START = false ->
  nthIndexOf (body ++ nl) H2 2 = idx -> idx <> (-1)%Z ->
  exists head line rest,
    body ++ nl = head ++ H2 ++ line ++ nl ++ rest /\
    Z.of_nat (length head) = idx /\ ~ In LF line /\
    insertEarly (body ++ nl) (blockWithLinks h items)
    = head ++ H2 ++ line ++ blockWithLinks h items ++ nl ++ rest.
Proof.
  intros Hitems Hclean Hidx Hfound.
  set (c := body ++ nl) in *.
  assert (HH2 : H2 <> []) by discriminate.
  destruct (nthIndexOf_2_found c H2 idx HH2 Hidx Hfound) as [Hocc _].
  assert (Hterm : indexOf c nl (idx + 1) <> (-1)%Z).
  { intros Hnone. pose proof (occursAt_fits _ _ _ Hocc) as Hfit.
    change (length H2) with 4 in Hfit.
    apply (indexOf_none c nl (idx + 1) Hnone (Z.of_nat (length body))).
    - unfold c in Hfit. rewrite length_app in Hfit. change (length nl) with 1 in Hfit. lia.
    - apply occursAt_split. exists body, []. now rewrite app_nil_r. }
  destruct (heading_line c idx _ Hocc eq_refl Hterm)
    as [head [line [rest [Hc [Hhead [Hlen Hline]]]]]].
  exists head, line, rest.
  split; [exact Hc|]. split; [exact Hhead|]. split; [exact Hline|].
  unfold insertEarly.
  destruct (blockWithLinks_marked h items Hitems) as [Hne _].
  rewrite Hne, Hidx, Hclean.
  apply Z.eqb_neq in Hfound. rewrite Hfound. cbn [negb andb].
  set (at_ := indexOf c nl (idx + 1)) in *.
  assert (H0 : (0 <= at_)%Z) by lia.
  assert (Hle : (at_ <= Z.of_nat (length c))%Z).
  { rewrite <- Hlen, Hc, !length_app. lia. }
  rewrite slice_prefix by assumption. rewrite sliceFrom_skipn by lia.
  rewrite <- Hlen, Nat2Z.id.
  replace c with ((head ++ H2 ++ line) ++ nl ++ rest) at 1 2
    by (rewrite Hc, <- !app_assoc; reflexivity).
  rewrite firstn_app, firstn_all, Nat.sub_diag.
  rewrite skipn_app, skipn_all, Nat.sub_diag. simpl firstn. simpl skipn.
  rewrite app_nil_r. rewrite <- !app_assoc. reflexivity.
Qed.

End InsertMore.

Lemma early_block_follows_second_heading_witness :
  let p := Linker.mkPost (js "b.mdx") (js "b") (js "B") (js "C") [] [] [] in
  let body := nl ++ js "## One" ++ nl ++ js "text" ++ nl ++ js "## Two" in
  exists head line rest,
    body ++ nl = head ++ Linker.H2 ++ line ++ nl ++ rest /\
    Z.of_nat (length head) = 12%Z /\ ~ In LF line /\
    Linker.insertEarly (body ++ nl) (Linker.blockWithLinks (js "You might also like") [p])
    = head ++ Linker.H2 ++ line
        ++ Linker.blockWithLinks (js "You might also like") [p] ++ nl ++ rest.
Proof.
  intros p body.
  apply (early_block_follows_second_heading body (js "You might also like") [p] 12%Z).
  - discriminate.
  - reflexivity.
  - reflexivity.
  - discriminate.
Defined.

(** ** The extremes of the similarity score *)

Section SimilarityMore.
Import Linker.

Lemma filter_length_all {A : Type} (f : A -> bool) (l : list A) :
  length (filter f l) = length l <-> forall x, In x l -> f x = true.
Proof.
  induction l as [|y l IH]; cbn [filter].
  - split; [intros _ x [] | reflexivity].
  - pose proof (filter_length_le f l) as Hle.
    destruct (f y) eqn:E; cbn [length].
    + split.
      * intros H x [<- | Hx]; [exact E|]. apply IH; [lia | exact Hx].
      * intros H. f_equal. apply IH. intros x Hx. apply H. now right.
    + split; [lia|]. intros H. specialize (H y (or_introl eq_refl)). congruence.
Qed.

Lemma filter_length_none {A : Type} (f : A -> bool) (l : list A) :
  length (filter f l) = 0 <-> forall x, In x l -> f x = false.
Proof.
  induction l as [|y l IH]; cbn [filter].
  - split; [intros _ x [] | reflexivity].
  - destruct (f y) eqn:E; cbn [length].
    + split; [lia|]. intros H. specialize (H y (or_introl eq_refl)). congruence.
    + rewrite IH. split.
      * intros H x [<- | Hx]; [exact E | now apply H].
      * intros H x Hx. apply H. now right.
Qed.

Lemma interCount_zero (A B : list jsstring) :
  interCount A B = 0%Z <-> forall t, In t A -> ~ In t B.
Proof.
  rewrite interCount_filter.
  assert (H : Z.of_nat (length (filter (setHas B) A)) = 0%Z
              <-> length (filter (setHas B) A) = 0) by lia.
  rewrite H, filter_length_none. split.
  - intros G t Ht Hb. apply setHas_In in Hb. rewrite (G t Ht) in Hb. discriminate.
  - intros G t Ht. destruct (setHas B t) eqn:E; [|reflexivity].
    apply setHas_In in E. now destruct (G t Ht).
Qed.

Lemma interCount_full (A B : list jsstring) :
  NoDup A -> NoDup B ->
  (interCount A B = denomOf A B <-> A <> [] /\ forall t, In t A <-> In t B).
Proof.
  intros HA HB.
  pose proof (interCount_le_left A B) as HL.
  pose proof (interCount_le_left B A) as HR.
  pose proof (interCount_sym A B HA HB) as Hsym.
  split.
  - intros Heq. unfold denomOf in Heq.
    assert (Hsizes : interCount A B = size A /\ interCount A B = size B /\
                     (1 <= size A)%Z) by lia.
    destruct Hsizes as [HsA [HsB Hpos]].
    split; [intros ->; cbn in Hpos; lia|].
    rewrite interCount_filter in HsA. unfold size in HsA.
    rewrite Hsym, interCount_filter in HsB. unfold size in HsB.
    apply Nat2Z.inj in HsA, HsB.
    pose proof (proj1 (filter_length_all _ _) HsA) as H1.
    pose proof (proj1 (filter_length_all _ _) HsB) as H2.
    intros t. split; intros Ht; apply setHas_In; auto.
  - intros [Hne Hsame].
    assert (HsA : interCount A B = size A).
    { rewrite interCount_filter. unfold size. f_equal. apply filter_length_all.
      intros t Ht. apply setHas_In. now apply Hsame. }
    assert (HsB : size B = size A).
    { unfold size. f_equal. apply Permutation_length. apply NoDup_Permutation; auto.
      intros t. symmetry. apply Hsame. }
    unfold denomOf. rewrite HsA, HsB.
    assert (1 <= size A)%Z by (unfold size; destruct A; [congruence | cbn [length]; lia]).
    lia.
Qed.

(** X11. The score is 0 exactly when the two token sets share no token, and 1
    exactly when they are one and the same non-empty set. *)
Theorem similarity_extremes (a b : Post) :
  ((similarity a b == 0)%Q <->
   forall t, In t (tokenSet a) -> ~ In t (tokenSet b)) /\
  ((similarity a b == 1)%Q <->
   tokenSet a <> [] /\ forall t, In t (tokenSet a) <-> In t (tokenSet b)).
Proof.
  pose proof (newSet_NoDup (map normalizeToken (keywords a) ++ tokenize (title a))) as Ha.
  pose proof (newSet_NoDup (map normalizeToken (keywords b) ++ tokenize (title b))) as Hb.
  fold (tokenSet a) in Ha. fold (tokenSet b) in Hb.
  destruct (denomOf_bounds _ _ Ha Hb) as [Hden _].
  unfold similarity, Qeq. cbn [Qnum Qden]. split.
  - rewrite <- interCount_zero. lia.
  - rewrite <- (interCount_full _ _ Ha Hb). rewrite Z2Pos.id by lia. lia.
Qed.

End SimilarityMore.

(** ** The ranking of the peers *)

Section RankFacts.
Import Linker.

Lemma byScore_true (a b : Post * Q) :
  Qle_bool (snd b - snd a) 0 = true <-> (snd b <= snd a)%Q.
Proof.
  rewrite Qle_bool_iff. split; intros H.
  - apply Qle_minus_iff in H. apply Qle_minus_iff.
    setoid_replace (snd a + - snd b)%Q with (0 + - (snd b - snd a))%Q by ring. exact H.
  - apply Qle_minus_iff in H. apply Qle_minus_iff.
    setoid_replace (0 + - (snd b - snd a))%Q with (snd a + - snd b)%Q by ring. exact H.
Qed.

Lemma byScore_total (a b : Post * Q) :
  Qle_bool (snd b - snd a) 0 = false -> Qle_bool (snd a - snd b) 0 = true.
Proof.
  intros H. apply byScore_true. destruct (Qlt_le_dec (snd b) (snd a)) as [Hlt | Hle].
  - apply Qlt_le_weak in Hlt. apply (proj2 (byScore_true a b)) in Hlt. congruence.
  - exact Hle.
Qed.

Lemma byScore_trans (x y z : Post * Q) :
  Qle_bool (snd y - snd x) 0 = true -> Qle_bool (snd z - snd y) 0 = true ->
  Qle_bool (snd z - snd x) 0 = true.
Proof.
  rewrite !byScore_true. intros H1 H2. now apply Qle_trans with (snd y).
Qed.

Lemma Sorted_StronglySorted_bool {A : Type} (le : A -> A -> bool) (l : list A) :
  (forall x y z, le x y = true -> le y z = true -> le x z = true) ->
  Sorted (fun a b => le a b = true) l -> StronglySorted (fun a b => le a b = true) l.
Proof.
  intros Htrans. apply Sorted_StronglySorted. intros x y z. apply Htrans.
Qed.

Lemma StronglySorted_map {A B : Type} (f : A -> B) (R : B -> B -> Prop) (l : list A) :
  StronglySorted (fun x y => R (f x) (f y)) l -> StronglySorted R (map f l).
Proof.
  induction 1 as [|x l Hs IH Hall]; cbn [map]; constructor; [exact IH|].
  apply Forall_forall. intros y Hy. apply in_map_iff in Hy as [y' [<- Hy']].
  rewrite Forall_forall in Hall. now apply Hall.
Qed.

Lemma filter_map_swap {A B : Type} (f : A -> B) (P : B -> bool) (l : list A) :
  filter P (map f l) = map f (filter (fun x => P (f x)) l).
Proof.
  induction l as [|x l IH]; [reflexivity|]. cbn [map filter].
  destruct (P (f x)); cbn [map]; now rewrite IH.
Qed.

(** X12. [rankedOf] hands back the peers it was given, ordered by score from
    the highest down, and peers of equal score stay in the order they came
    in. *)
Theorem ranking_sorted_and_stable (post : Post) (peers : list Post) :
  Permutation peers (rankedOf post peers) /\
  StronglySorted (fun p q => (similarity post q <= similarity post p)%Q)
    (rankedOf post peers) /\
  (forall s : Q,
     filter (fun q => Qeq_bool (similarity post q) s) (rankedOf post peers)
     = filter (fun q => Qeq_bool (similarity post q) s) peers).
Proof.
  unfold rankedOf.
  set (scored := map (fun p => (p, similarity post p)) peers).
  set (byScore := fun a b : Post * Q => Qle_bool (snd b - snd a) 0).
  pose proof (sortBy_perm (Post * Q) byScore scored) as Hperm.
  assert (Hshape : forall x, In x (sortBy byScore scored) -> snd x = similarity post (fst x)).
  { intros x Hx. apply (Permutation_in x (Permutation_sym Hperm)) in Hx.
    unfold scored in Hx. apply in_map_iff in Hx as [p [<- _]]. reflexivity. }
  assert (Hback : map fst scored = peers).
  { unfold scored. rewrite map_map. cbn [fst]. apply map_id. }
  split; [|split].
  - rewrite <- Hback at 1. now apply Permutation_map.
  - pose proof (sortBy_sorted (Post * Q) byScore byScore_total scored) as Hsorted.
    apply (Sorted_StronglySorted_bool byScore _ byScore_trans) in Hsorted.
    apply StronglySorted_map.
    revert Hshape Hsorted. generalize (sortBy byScore scored) as l.
    induction l as [|x l IH]; intros Hshape Hs; [constructor|].
    apply StronglySorted_inv in Hs as [Hs' Hall]. constructor.
    + apply IH; [intros y Hy; apply Hshape; now right | exact Hs'].
    + rewrite Forall_forall in *. intros y Hy. specialize (Hall y Hy).
      unfold byScore in Hall. apply byScore_true in Hall.
      rewrite <- (Hshape x (or_introl eq_refl)), <- (Hshape y (or_intror Hy)). exact Hall.
  - intros s.
    assert (Hclass : forall x : Post * Q,
               snd x = similarity post (fst x) ->
               Qeq_bool (similarity post (fst x)) s
               = byScore (post, s) x && byScore x (post, s)).
    { intros x Hx. unfold byScore. cbn [snd]. rewrite <- Hx.
      destruct (Qeq_bool (snd x) s) eqn:E.
      - apply Qeq_bool_iff in E. symmetry. apply andb_true_iff. split.
        + apply (byScore_true (post, s) x). cbn [snd]. rewrite E. apply Qle_refl.
        + apply (byScore_true x (post, s)). cbn [snd]. rewrite E. apply Qle_refl.
      - symmetry. apply not_true_iff_false. intros H.
        apply andb_true_iff in H as [H1 H2].
        apply (byScore_true (post, s) x) in H1. apply (byScore_true x (post, s)) in H2.
        cbn [snd] in H1, H2.
        assert (Heq : (snd x == s)%Q) by now apply Qle_antisym.
        apply Qeq_bool_iff in Heq. congruence. }
    rewrite filter_map_swap.
    rewrite (filter_ext_in _ (fun x => byScore (post, s) x && byScore x (post, s)));
      [|intros x Hx; apply Hclass, Hshape, Hx].
    rewrite (sortBy_stable (Post * Q) byScore byScore_trans (post, s) scored).
    rewrite <- (filter_ext_in (fun x => Qeq_bool (similarity post (fst x)) s));
      [|intros x Hx; apply Hclass; unfold scored in Hx;
        apply in_map_iff in Hx as [p [<- _]]; reflexivity].
    transitivity (filter (fun q => Qeq_bool (similarity post q) s) (map fst scored));
      [symmetry; apply filter_map_swap | now rewrite Hback].
Qed.

End RankFacts.

(** ** What the blocks link to, and which files the link pass rewrites *)

Section LinkTargets.
Import Files Linker.

Context {host : Collation}.

Lemma rankedOf_perm (post : Post) (peers : list Post) :
  Permutation peers (rankedOf post peers).
Proof.
  unfold rankedOf.
  pose proof (sortBy_perm (Post * Q) (fun a b => Qle_bool (snd b - snd a) 0)
                (map (fun p => (p, similarity post p)) peers)) as Hperm.
  apply (Permutation_map fst) in Hperm. rewrite map_map in Hperm. cbn [fst] in Hperm.
  now rewrite map_id in Hperm.
Qed.

Lemma slice_2_5 {A : Type} (l : list A) : slice l 2 5 = firstn 3 (skipn 2 l).
Proof.
  destruct (Z.le_gt_cases 2 (Z.of_nat (length l))) as [Hle | Hgt].
  - rewrite slice_between by lia. reflexivity.
  - unfold slice, relIndex. cbn [Z.ltb Z.compare].
    rewrite !Z.min_r by lia. rewrite Z.sub_diag, Nat2Z.id. cbn [Z.to_nat firstn].
    rewrite (skipn_all2 (n := 2)) by lia. reflexivity.
Qed.

Lemma hd_error_In {A : Type} (l : list A) (x : A) : hd_error l = Some x -> In x l.
Proof. destruct l; [discriminate|]. intros H. injection H as ->. now left. Qed.

(** X13. The blocks prepared for a post link only to posts of its own cluster
    with another slug, never to the post itself: the early block to the
    two best ranked, the end block to the three after them (or, with two
    peers or fewer, to the same ones again), the navigation to the slug
    neighbours among them. *)
Theorem blocks_link_cluster_peers (posts : list Post) (post : Post) (e n v : jsstring) :
  blocksFor (groupByCluster posts) post = Some (e, n, v) ->
  e = blockWithLinks (js "You might also like")
        (firstn 2 (rankedOf post (clusterPostsOf (groupByCluster posts) post))) /\
  n = blockWithLinks (js "More in " ++ cluster post)
        (if length (clusterPostsOf (groupByCluster posts) post) <=? 2
         then rankedOf post (clusterPostsOf (groupByCluster posts) post)
         else firstn 3 (skipn 2 (rankedOf post (clusterPostsOf (groupByCluster posts) post)))) /\
  exists prev next,
    v = prevNextBlock prev next /\
    forall q,
      In q (rankedOf post (clusterPostsOf (groupByCluster posts) post))
      \/ prev = Some q \/ next = Some q ->
      In q posts /\ cluster q = cluster post /\ slug q <> slug post.
Proof.
  unfold blocksFor.
  set (peers := clusterPostsOf (groupByCluster posts) post).
  set (ranked := rankedOf post peers).
  destruct (length peers =? 0) eqn:E0; [discriminate|].
  destruct (prevNext peers post) as [prev next] eqn:Epn.
  intros H. injection H as <- <- <-.
  pose proof (rankedOf_length post peers) as Hlen. fold ranked in Hlen.
  split; [now rewrite slice_prefix by lia|]. split.
  - f_equal. rewrite slice_2_5.
    destruct (length peers <=? 2) eqn:E2.
    + apply Nat.leb_le in E2. rewrite (skipn_all2 (n := 2)) by lia. cbn [firstn].
      rewrite slice_prefix by lia. apply firstn_all2. lia.
    + apply Nat.leb_gt in E2.
      destruct (firstn 3 (skipn 2 ranked)) as [|x rest] eqn:Ef; [|reflexivity].
      exfalso. assert (Hl : length (firstn 3 (skipn 2 ranked)) = 0) by now rewrite Ef.
      rewrite length_firstn, length_skipn in Hl. lia.
  - exists prev, next. split; [reflexivity|].
    destruct (prevNext_split peers post) as [before [after [_ [Hperm Hpn]]]].
    { intros y Hy. eapply clusterPostsOf_other. exact Hy. }
    rewrite Epn in Hpn. injection Hpn as Hprev Hnext.
    assert (Hpeer : forall q, In q ranked \/ prev = Some q \/ next = Some q -> In q peers).
    { intros q [Hq | [Hq | Hq]].
      - apply (Permutation_in q (Permutation_sym (rankedOf_perm post peers))). exact Hq.
      - apply (Permutation_in q (Permutation_sym Hperm)). apply in_or_app. left.
        apply in_rev. apply hd_error_In. congruence.
      - apply (Permutation_in q (Permutation_sym Hperm)). apply in_or_app. right.
        apply hd_error_In. congruence. }
    intros q Hq. apply Hpeer in Hq. now apply clusterPostsOf_iff in Hq.
Qed.

Lemma has_peer_blocks (posts : list Post) (post peer : Post) :
  In peer posts -> cluster peer = cluster post -> slug peer <> slug post ->
  exists e n v, blocksFor (groupByCluster posts) post = Some (e, n, v).
Proof.
  intros Hpeer Hc Hs.
  destruct (blocksFor (groupByCluster posts) post) as [[[e n] v]|] eqn:E;
    [now exists e, n, v|].
  exfalso. apply blocksFor_none in E.
  assert (Hx : In peer (clusterPostsOf (groupByCluster posts) post))
    by (apply clusterPostsOf_iff; auto).
  rewrite E in Hx. destruct Hx.
Qed.

Lemma no_peer_no_update (posts : list Post) (post : Post) :
  (forall other, In other posts -> cluster other = cluster post -> slug other = slug post) ->
  updatedContent (groupByCluster posts) post = None.
Proof.
  intros Halone. apply updatedContent_none.
  destruct (clusterPostsOf (groupByCluster posts) post) as [|x l] eqn:E; [reflexivity|].
  exfalso. assert (Hx : In x (clusterPostsOf (groupByCluster posts) post))
    by (rewrite E; now left).
  apply clusterPostsOf_iff in Hx as [Hx [Hc Hs]]. now apply Hs, Halone.
Qed.

(** X14. Which files the link pass touches, the paths being distinct. When
    [matter] throws on a file, the pass throws and every file is as it
    was. Otherwise a file without a slug in its front matter, and a file
    whose cluster holds no other slug, stays as it is, whether the pass
    returns or throws later on; a file with a peer is replaced by
    [matter.stringify] of its body with the prepared blocks inserted and
    of its front-matter data whenever the pass returns, and when the pass
    throws (on this file or on another) it is either so replaced or still
    as it was. *)
Theorem link_pass_rewrites_only_posts_with_peers (M : Matter) (fs : store)
    (file : jsstring * jsstring) :
  NoDup (map fst fs) -> In file fs ->
  (readPosts M fs = None -> applyInternalLinks M fs = (fs, false)) /\
  (forall posts,
     readPosts M fs = Some posts ->
     (readPost M file = Some None -> In file (fst (applyInternalLinks M fs))) /\
     (forall post,
        readPost M file = Some (Some post) ->
        (forall other, In other posts ->
                       cluster other = cluster post -> slug other = slug post) ->
        In file (fst (applyInternalLinks M fs))) /\
     (forall post peer,
        readPost M file = Some (Some post) ->
        In peer posts -> cluster peer = cluster post -> slug peer <> slug post ->
        exists e n v,
          blocksFor (groupByCluster posts) post = Some (e, n, v) /\
          (snd (applyInternalLinks M fs) = true ->
           exists fileText,
             stringify M (insertBlocks (content post) e n v) (data post) = Some fileText /\
             In (fst file, fileText) (fst (applyInternalLinks M fs))) /\
          (snd (applyInternalLinks M fs) = false ->
           In file (fst (applyInternalLinks M fs)) \/
           exists fileText,
             stringify M (insertBlocks (content post) e n v) (data post) = Some fileText /\
             In (fst file, fileText) (fst (applyInternalLinks M fs))))).
Proof.
  intros Hnd Hin. split; [apply applyInternalLinks_unread|].
  intros posts Hread.
  destruct (applyInternalLinks_spec M fs posts Hnd Hread)
    as [l1 [l1' [l2 [Hfs [Hall [Hout Hflag]]]]]].
  rewrite Hout. rewrite Hfs in Hin. apply in_app_or in Hin.
  assert (Hkept : linkedFile M (groupByCluster posts) file = Some file ->
                  In file (l1' ++ l2)).
  { intros Hlf. apply in_or_app. destruct Hin as [Hin | Hin]; [left | now right].
    destruct (Forall2_In_l _ _ _ _ Hall Hin) as [file' [Hin' Hlf']].
    rewrite Hlf in Hlf'. now injection Hlf' as <-. }
  split; [|split].
  - intros Hr. apply Hkept. unfold linkedFile. now rewrite Hr.
  - intros post Hr Halone. apply Hkept. unfold linkedFile.
    now rewrite Hr, (no_peer_no_update posts post Halone).
  - intros post peer Hr Hpeer Hc Hs.
    destruct (has_peer_blocks posts post peer Hpeer Hc Hs) as [e [n [v Hb]]].
    exists e, n, v. split; [exact Hb|].
    assert (Hlf : linkedFile M (groupByCluster posts) file
                  = match stringify M (insertBlocks (content post) e n v) (data post) with
                    | Some fileText => Some (fst file, fileText)
                    | None => None
                    end).
    { unfold linkedFile, updatedContent. now rewrite Hr, Hb. }
    assert (Hwritten : In file l1 ->
               exists fileText,
                 stringify M (insertBlocks (content post) e n v) (data post)
                 = Some fileText /\
                 In (fst file, fileText) (l1' ++ l2)).
    { intros Hin1. destruct (Forall2_In_l _ _ _ _ Hall Hin1) as [file' [Hin' Hlf']].
      rewrite Hlf in Hlf'.
      destruct (stringify M (insertBlocks (content post) e n v) (data post))
        as [fileText|]; [|discriminate].
      injection Hlf' as <-. exists fileText. split; [reflexivity|].
      apply in_or_app. now left. }
    split.
    + intros Hok. rewrite Hok in Hflag. subst l2.
      destruct Hin as [Hin | []]. now apply Hwritten.
    + intros _. destruct Hin as [Hin | Hin].
      * right. now apply Hwritten.
      * left. apply in_or_app. now right.
Qed.

End LinkTargets.

Lemma blocks_link_cluster_peers_witness :
  let post := Shelf.doc (js "cat-food") (js "Cat Food Guide") (js "Cats") [js "cat food"] in
  let peers := Linker.clusterPostsOf (Linker.groupByCluster Shelf.posts) post in
  fst (fst Shelf.blocks)
  = Linker.blockWithLinks (js "You might also like") (firstn 2 (Linker.rankedOf post peers)) /\
  snd (fst Shelf.blocks)
  = Linker.blockWithLinks (js "More in " ++ Linker.cluster post)
      (if length peers <=? 2 then Linker.rankedOf post peers
       else firstn 3 (skipn 2 (Linker.rankedOf post peers))) /\
  exists prev next,
    snd Shelf.blocks = Linker.prevNextBlock prev next /\
    forall q,
      In q (Linker.rankedOf post peers) \/ prev = Some q \/ next = Some q ->
      In q Shelf.posts /\ Linker.cluster q = Linker.cluster post
      /\ Linker.slug q <> Linker.slug post.
Proof.
  intros post peers.
  apply (@blocks_link_cluster_peers Linker.english Shelf.posts post
           (fst (fst Shelf.blocks)) (snd (fst Shelf.blocks)) (snd Shelf.blocks)).
  vm_compute. reflexivity.
Defined.

Lemma link_pass_rewrites_only_posts_with_peers_witness :
  let M := GrayMatter.reference in
  let fs := Sample.related1 ++ [(js "content/notes.mdx", js "no header")] in
  let linked := Linker.applyInternalLinks (host := Linker.english) M fs in
  snd linked = true /\
  In (js "content/notes.mdx", js "no header") (fst linked) /\
  exists posts post e n v fileText,
    Linker.readPosts M fs = Some posts /\
    Linker.readPost M Sample.file1 = Some (Some post) /\
    Linker.blocksFor (host := Linker.english) (Linker.groupByCluster posts) post
    = Some (e, n, v) /\
    Linker.stringify M (Linker.insertBlocks (Linker.content post) e n v) (Linker.data post)
    = Some fileText /\
    In (fst Sample.file1, fileText) (fst linked).
Proof.
  intros M fs linked.
  assert (Hnd : NoDup (map fst fs)).
  { vm_compute. repeat constructor.
    - intros [H | [H | []]]; discriminate H.
    - intros [H | []]. discriminate H.
    - intros []. }
  assert (Hok : snd linked = true) by (vm_compute; reflexivity).
  pose (posts := match Linker.readPosts M fs with Some l => l | None => [] end).
  assert (Hread : Linker.readPosts M fs = Some posts) by (vm_compute; reflexivity).
  split; [exact Hok|]. split.
  - destruct (@link_pass_rewrites_only_posts_with_peers Linker.english M fs
                (js "content/notes.mdx", js "no header") Hnd) as [_ H].
    { apply in_or_app. right. left. reflexivity. }
    destruct (H posts Hread) as [H1 _]. 
    apply H1. 
    vm_compute. reflexivity.
  - pose (nobody := Linker.mkPost [] [] [] [] [] [] []).
    pose (post := match Linker.readPost M Sample.file1 with
                  | Some (Some p) => p
                  | _ => nobody
                  end).
    assert (Hr : Linker.readPost M Sample.file1 = Some (Some post))
      by (vm_compute; reflexivity).
    pose (peer := nth 1 posts nobody).
    destruct (@link_pass_rewrites_only_posts_with_peers Linker.english M fs
                Sample.file1 Hnd) as [_ H].
    { left. reflexivity. }
    destruct (H posts Hread) as [_ [_ H3]].
    destruct (H3 post peer Hr) as [e [n [v [Hb [Hdone _]]]]].
    + vm_compute. right. left. reflexivity.
    + vm_compute. reflexivity.
    + apply eqb_neq. vm_compute. reflexivity.
    + destruct (Hdone Hok) as [fileText [Hstr Hout]].
      exists posts, post, e, n, v, fileText. split; [exact Hread|]. split; [exact Hr|]. split; [exact Hb|]. split; [exact Hstr | exact Hout].
Defined.

(** ** [normalizeToken] and [tokenize] *)

Section TokenFacts.
Import Linker Words.

Lemma isAlnum_range (c : unit16) :
  isAlnum c = true <-> ((97 <= c <= 122) \/ (48 <= c <= 57))%N.
Proof.
  unfold isAlnum. rewrite orb_true_iff, !andb_true_iff, !N.leb_le. tauto.
Qed.

Lemma isAlnum_not_space (c : unit16) : isAlnum c = true -> isSpace c = false.
Proof.
  intros H. apply isAlnum_range in H. unfold isSpace. cbn [existsb].
  repeat match goal with
         | |- context [N.eqb c ?k] => destruct (N.eqb_spec c k) as [E | _]; [lia|]
         end.
  reflexivity.
Qed.

Lemma isAlnum_lower (c : unit16) : isAlnum c = true -> lowerUnit c = [c].
Proof.
  intros H. apply isAlnum_range in H. unfold lowerUnit.
  destruct ((65 <=? c)%N && (c <=? 90)%N) eqn:E.
  - apply andb_true_iff in E as [E1 E2]. apply N.leb_le in E1, E2. lia.
  - destruct (N.eqb_spec c 8490) as [E1 | _]; [lia|].
    destruct (N.eqb_spec c 304) as [E2 | _]; [lia | reflexivity].
Qed.

Lemma join_cons (sep p : jsstring) (rest : list jsstring) :
  rest <> [] -> join sep (p :: rest) = p ++ sep ++ join sep rest.
Proof. destruct rest; [congruence | reflexivity]. Qed.

Lemma join_cons_hd (sep : jsstring) (c : unit16) (w : jsstring) (ws : list jsstring) :
  join sep ((c :: w) :: ws) = c :: join sep (w :: ws).
Proof. destruct ws; reflexivity. Qed.

Lemma isWord_cons (c : unit16) (w : jsstring) :
  isAlnum c = true -> (forall d, In d w -> isAlnum d = true) -> isWord (c :: w).
Proof.
  intros Hc Hw. split; [discriminate|]. intros d [<- | Hd]; auto.
Qed.

(** What [replace(/[^a-z0-9]+/g, ' ')] leaves: words with one space
    between them, and at most one space before and after. *)
Lemma squash_shape (l : jsstring) (b : bool) :
  exists lead words trail,
    squash l b = lead ++ join [32%N] words ++ trail /\
    (lead = [] \/ (lead = [32%N] /\ b = false)) /\
    (trail = [] \/ (trail = [32%N] /\ words <> [])) /\
    Forall isWord words.
Proof.
  revert b. induction l as [|c l IH]; intros b.
  - exists [], [], []. cbn. repeat split; auto.
  - cbn [squash]. destruct (isAlnum c) eqn:Ec.
    + destruct (IH false) as [lead [words [trail [Hs [Hlead [Htrail Hwords]]]]]].
      rewrite Hs. destruct Hlead as [-> | [-> _]].
      * destruct words as [|w ws].
        -- destruct Htrail as [-> | [_ Hne]]; [|congruence].
           exists [], [[c]], []. cbn. repeat split; auto.
           constructor; [|constructor]. apply isWord_cons; [exact Ec | intros d []].
        -- exists [], ((c :: w) :: ws), trail. split.
           { cbn [app]. now rewrite join_cons_hd. }
           split; [now left|]. split.
           { destruct Htrail as [-> | [-> _]]; [now left | right; split; [reflexivity | discriminate]]. }
           inversion Hwords as [|? ? [_ Hw] Hws]; subst. constructor; [|exact Hws].
           now apply isWord_cons.
      * destruct words as [|w ws].
        -- destruct Htrail as [-> | [_ Hne]]; [|congruence].
           exists [], [[c]], [32%N]. cbn. repeat split; auto.
           ++ right. split; [reflexivity | discriminate].
           ++ constructor; [|constructor]. apply isWord_cons; [exact Ec | intros d []].
        -- exists [], ([c] :: w :: ws), trail. split.
           { reflexivity. }
           split; [now left|]. split.
           { destruct Htrail as [-> | [-> _]]; [now left | right; split; [reflexivity | discriminate]]. }
           constructor; [|exact Hwords]. apply isWord_cons; [exact Ec | intros d []].
    + destruct b.
      * destruct (IH true) as [lead [words [trail [Hs [Hlead [Htrail Hwords]]]]]].
        destruct Hlead as [-> | [_ Hb]]; [|discriminate].
        exists [], words, trail. repeat split; auto.
      * destruct (IH true) as [lead [words [trail [Hs [Hlead [Htrail Hwords]]]]]].
        destruct Hlead as [-> | [_ Hb]]; [|discriminate].
        exists [32%N], words, trail. rewrite Hs. repeat split; auto.
Qed.

Lemma join_words_head (w : jsstring) (ws : list jsstring) :
  isWord w ->
  exists c rest, join [32%N] (w :: ws) = c :: rest /\ isAlnum c = true.
Proof.
  intros [Hne Hw]. destruct w as [|c w]; [congruence|].
  exists c, (join [32%N] (w :: ws)). split; [apply join_cons_hd|].
  apply Hw. now left.
Qed.

Lemma join_words_last (words : list jsstring) :
  Forall isWord words -> words <> [] ->
  exists init d, join [32%N] words = init ++ [d] /\ isAlnum d = true.
Proof.
  induction words as [|w ws IH]; intros Hall Hne; [congruence|].
  inversion Hall as [|? ? [Hw Halnum] Hws]; subst.
  destruct ws as [|w2 ws].
  - destruct (exists_last Hw) as [init [d ->]]. exists init, d. split; [reflexivity|].
    apply Halnum. apply in_or_app. right. now left.
  - destruct (IH Hws) as [init [d [Hj Hd]]]; [discriminate|].
    exists (w ++ [32%N] ++ init), d. split; [|exact Hd].
    rewrite (join_cons [32%N] w (w2 :: ws)) by discriminate.
    rewrite Hj. now rewrite <- !app_assoc.
Qed.

Lemma dropSpaces_lead (lead s : jsstring) :
  lead = [] \/ lead = [32%N] -> dropSpaces (lead ++ s) = dropSpaces s.
Proof. intros [-> | ->]; reflexivity. Qed.

Lemma dropSpaces_word (c : unit16) (s : jsstring) :
  isAlnum c = true -> dropSpaces (c :: s) = c :: s.
Proof. intros H. cbn [dropSpaces]. now rewrite (isAlnum_not_space c H). Qed.

Lemma trim_shape (lead trail : jsstring) (words : list jsstring) :
  lead = [] \/ lead = [32%N] -> trail = [] \/ trail = [32%N] ->
  Forall isWord words ->
  trim (lead ++ join [32%N] words ++ trail) = join [32%N] words.
Proof.
  intros Hlead Htrail Hwords. unfold trim. rewrite (dropSpaces_lead lead _ Hlead).
  destruct words as [|w ws].
  - cbn [join app]. destruct Htrail as [-> | ->]; reflexivity.
  - assert (Hw : isWord w) by now inversion Hwords.
    destruct (join_words_head w ws Hw) as [c [rest [Hj Hc]]].
    destruct (join_words_last (w :: ws) Hwords) as [init [d [Hl Hd]]]; [discriminate|].
    rewrite Hj. cbn [app]. rewrite (dropSpaces_word c _ Hc).
    replace (c :: rest ++ trail) with ((c :: rest) ++ trail) by reflexivity.
    rewrite <- Hj, Hl. rewrite rev_app_distr, rev_app_distr. cbn [rev app].
    rewrite (dropSpaces_lead (rev trail)); [|destruct Htrail as [-> | ->]; auto].
    rewrite (dropSpaces_word d _ Hd).
    change (d :: rev init) with ([d] ++ rev init).
    rewrite rev_app_distr, rev_involutive. reflexivity.
Qed.

Lemma splitSpaces_word (w rest cur : jsstring) (b : bool) :
  w <> [] -> (forall c, In c w -> isAlnum c = true) ->
  splitSpaces (w ++ rest) cur b = splitSpaces rest (cur ++ w) false.
Proof.
  revert cur b. induction w as [|c w IH]; intros cur b Hne Hw; [congruence|].
  cbn [app splitSpaces]. rewrite (isAlnum_not_space c) by (apply Hw; now left).
  destruct w as [|c2 w]; [reflexivity|].
  rewrite IH; [|discriminate | intros d Hd; apply Hw; now right].
  now rewrite <- app_assoc.
Qed.

Lemma splitSpaces_join (w : jsstring) (ws : list jsstring) (cur : jsstring) (b : bool) :
  Forall isWord (w :: ws) ->
  splitSpaces (join [32%N] (w :: ws)) cur b = (cur ++ w) :: ws.
Proof.
  revert w cur b. induction ws as [|w2 ws IH]; intros w cur b Hall;
    inversion Hall as [|? ? [Hne Hw] Hws]; subst.
  - cbn [join]. rewrite <- (app_nil_r w) at 1. now rewrite splitSpaces_word.
  - rewrite (join_cons [32%N] w (w2 :: ws)) by discriminate.
    rewrite splitSpaces_word by assumption.
    cbn [app splitSpaces]. change (isSpace 32%N) with true. cbn iota.
    rewrite (IH w2 [] true Hws). reflexivity.
Qed.

Lemma squash_word (w rest : jsstring) (b : bool) :
  w <> [] -> (forall c, In c w -> isAlnum c = true) ->
  squash (w ++ rest) b = w ++ squash rest false.
Proof.
  revert b. induction w as [|c w IH]; intros b Hne Hw; [congruence|].
  cbn [app squash]. rewrite (Hw c) by now left. f_equal.
  destruct w as [|c2 w]; [reflexivity|].
  apply IH; [discriminate | intros d Hd; apply Hw; now right].
Qed.

Lemma squash_join (words : list jsstring) (b : bool) :
  Forall isWord words -> words <> [] ->
  squash (join [32%N] words) b = join [32%N] words.
Proof.
  revert b. induction words as [|w ws IH]; intros b Hall Hne; [congruence|].
  inversion Hall as [|? ? [Hw Halnum] Hws]; subst.
  destruct ws as [|w2 ws].
  - cbn [join]. rewrite <- (app_nil_r w) at 1. rewrite squash_word by assumption.
    cbn [squash]. apply app_nil_r.
  - rewrite (join_cons [32%N] w (w2 :: ws)) by discriminate.
    rewrite squash_word by assumption.
    cbn [app squash]. change (isAlnum 32%N) with false. cbn iota.
    rewrite (IH true Hws) by discriminate. reflexivity.
Qed.

Lemma toLowerCase_join (words : list jsstring) :
  Forall isWord words -> toLowerCase (join [32%N] words) = join [32%N] words.
Proof.
  unfold toLowerCase.
  assert (Hword : forall w, (forall c, In c w -> isAlnum c = true) ->
                            flat_map lowerUnit w = w).
  { induction w as [|c w IH]; intros Hw; [reflexivity|]. cbn [flat_map].
    rewrite (isAlnum_lower c) by (apply Hw; now left).
    cbn [app]. f_equal. apply IH. intros d Hd. apply Hw. now right. }
  induction words as [|w ws IH]; intros Hall; [reflexivity|].
  inversion Hall as [|? ? [_ Halnum] Hws]; subst.
  destruct ws as [|w2 ws]; [now apply Hword|].
  rewrite (join_cons [32%N] w (w2 :: ws)) by discriminate. rewrite !flat_map_app.
  rewrite (Hword w Halnum), (IH Hws). reflexivity.
Qed.

(** X15. What the two functions compute: [normalizeToken] gives words of
    [[a-z0-9]] with one space between them and none around, [tokenize]
    gives exactly those words, and normalising a normalised string
    changes nothing. *)
Theorem normalizeToken_words (s : jsstring) :
  exists words,
    Forall isWord words /\
    normalizeToken s = join (js " ") words /\
    tokenize s = words /\
    normalizeToken (normalizeToken s) = normalizeToken s.
Proof.
  change (js " ") with [32%N].
  destruct (squash_shape (toLowerCase s) false)
    as [lead [words [trail [Hs [Hlead [Htrail Hwords]]]]]].
  assert (Hnorm : normalizeToken s = join [32%N] words).
  { unfold normalizeToken. rewrite Hs. apply trim_shape; [tauto | tauto | exact Hwords]. }
  exists words. split; [exact Hwords|]. split; [exact Hnorm|]. split.
  - unfold tokenize. rewrite Hnorm. destruct words as [|w ws]; [reflexivity|].
    rewrite splitSpaces_join by exact Hwords. cbn [app].
    apply forallb_filter_id. apply forallb_forall. intros x Hx.
    rewrite Forall_forall in Hwords. destruct (Hwords x Hx) as [Hne _].
    destruct x; [congruence | reflexivity].
  - rewrite Hnorm. unfold normalizeToken. rewrite (toLowerCase_join words Hwords).
    destruct words as [|w ws]; [reflexivity|].
    rewrite squash_join by (assumption || discriminate).
    apply (trim_shape [] [] (w :: ws)) in Hwords; [|now left | now left].
    cbn [app] in Hwords. now rewrite app_nil_r in Hwords.
Qed.

End TokenFacts.

(** ** The semaphore under direct calls *)

Section SemaphoreBound.
Import Semaphore Direct.

Lemma new_max (m : Z) : (1 <= max (new m))%Z.
Proof. unfold new. cbn [max]. lia. Qed.

Lemma safe_init (m : Z) : safe (init (new m)).
Proof.
  unfold safe, init, new. cbn [jobs inBody state count max forallb filter length]. lia.
Qed.

Lemma filter_removes (c : caller) (l : list caller) :
  existsb (Nat.eqb c) l = true ->
  length (filter (fun x => negb (Nat.eqb c x)) l) < length l.
Proof.
  induction l as [|x l IH]; cbn [existsb filter]; [discriminate|].
  destruct (Nat.eqb c x); cbn [negb orb filter length].
  - intros _. apply Nat.lt_succ_r. apply filter_length_le.
  - intros H. apply -> Nat.succ_lt_mono. exact (IH H).
Qed.

(** A direct call or a settlement, made while no woken waiter is
    pending, keeps the invariant and wakes nobody. *)
Lemma act_safe (a : action) (w : world) :
  direct a = true -> safe w -> filter isResume (jobs w) = [] ->
  safe (act a w) /\ filter isResume (jobs (act a w)) = [] /\
  max (state (act a w)) = max (state w).
Proof.
  intros Ha [Hu [Hin Hc]] Hres. rewrite Hres in Hc. cbn [length] in Hc.
  destruct a as [c | c | c]; [| |discriminate]; cbn [act].
  - unfold callRun. destruct (count (state w) >=? max (state w))%Z eqn:E.
    + unfold safe. cbn [jobs inBody state count max]. rewrite Hres. cbn [length].
      repeat split; auto; lia.
    + rewrite Z.geb_leb in E. apply Z.leb_gt in E.
      unfold safe, enter. cbn [jobs inBody state count max]. rewrite Hres, length_app.
      cbn [length]. repeat split; auto; lia.
  - destruct (existsb (Nat.eqb c) (inBody w)) eqn:E.
    + apply filter_removes in E.
      unfold safe. cbn [jobs inBody state]. rewrite !filter_app, forallb_app, !length_app.
      cbn [filter isFinally isResume isUserCall forallb negb andb length].
      rewrite Hu, Hres. cbn [app length]. unfold caller in *. repeat split; auto; lia.
    + unfold safe. rewrite Hres. cbn [length]. repeat split; auto; lia.
Qed.

Lemma acts_safe (acts : list action) (w : world) :
  forallb direct acts = true -> safe w -> filter isResume (jobs w) = [] ->
  safe (fold_left (fun w a => act a w) acts w) /\
  filter isResume (jobs (fold_left (fun w a => act a w) acts w)) = [] /\
  max (state (fold_left (fun w a => act a w) acts w)) = max (state w).
Proof.
  revert w. induction acts as [|a acts IH]; intros w Hd Hs Hr; cbn [fold_left].
  - auto.
  - cbn [forallb] in Hd. apply andb_true_iff in Hd as [Ha Hd].
    destruct (act_safe a w Ha Hs Hr) as [Hs1 [Hr1 Hm1]].
    destruct (IH (act a w) Hd Hs1 Hr1) as [Hs2 [Hr2 Hm2]].
    split; [exact Hs2|]. split; [exact Hr2 | congruence].
Qed.

(** One promise job, with no call of the program among the jobs. *)
Lemma runJob_safe (j : job) (rest : list job) (w : world) :
  jobs w = j :: rest -> safe w ->
  safe (runJob j (mkWorld (state w) (inBody w) rest)) /\
  max (state (runJob j (mkWorld (state w) (inBody w) rest))) = max (state w) /\
  (2 * Z.of_nat (length (filter isFinally
        (jobs (runJob j (mkWorld (state w) (inBody w) rest)))))
   + Z.of_nat (length (filter isResume
        (jobs (runJob j (mkWorld (state w) (inBody w) rest)))))
   < 2 * Z.of_nat (length (filter isFinally (jobs w)))
     + Z.of_nat (length (filter isResume (jobs w))))%Z.
Proof.
  intros Hj [Hu [Hin Hc]]. rewrite Hj in Hu, Hin, Hc |- *.
  cbn [forallb] in Hu. apply andb_true_iff in Hu as [Hj0 Hu].
  destruct j as [c | c | c]; [discriminate | |];
    cbn [filter isFinally isResume length] in Hin, Hc |- *; cbn [runJob].
  - unfold safe, enter. cbn [jobs inBody state count max]. rewrite length_app.
    cbn [length]. repeat split; auto; lia.
  - unfold finally. cbn [state jobs inBody].
    destruct (queue (state w)) as [|next q];
      unfold safe; cbn [jobs inBody state count max].
    + repeat split; auto; lia.
    + rewrite !filter_app, forallb_app, !length_app.
      cbn [filter isFinally isResume isUserCall forallb negb andb length].
      rewrite Hu. repeat split; auto; lia.
Qed.

Lemma drain_safe (fuel : nat) (w : world) :
  safe w ->
  safe (drain fuel w) /\ max (state (drain fuel w)) = max (state w) /\
  ((2 * Z.of_nat (length (filter isFinally (jobs w)))
    + Z.of_nat (length (filter isResume (jobs w))) <= Z.of_nat fuel)%Z ->
   jobs (drain fuel w) = []).
Proof.
  revert w. induction fuel as [|fuel IH]; intros w Hs; cbn [drain].
  - split; [exact Hs|]. split; [reflexivity|]. intros Hm. destruct Hs as [Hu _].
    destruct (jobs w) as [|[c | c | c] rest]; [reflexivity | discriminate | |];
      cbn [filter isFinally isResume length] in Hm; lia.
  - destruct (jobs w) as [|j rest] eqn:Hj;
      [split; [exact Hs|]; split; [reflexivity | intros _; exact Hj]|].
    destruct (runJob_safe j rest w Hj Hs) as [Hs1 [Hm1 Hdec]].
    destruct (IH _ Hs1) as [Hs2 [Hm2 Hend]].
    split; [exact Hs2|]. split; [congruence|].
    intros Hm. apply Hend. rewrite Hj in Hdec. lia.
Qed.

Lemma macrotask_safe (acts : list action) (w : world) :
  forallb direct acts = true -> safe w -> jobs w = [] ->
  safe (macrotask acts w) /\ jobs (macrotask acts w) = [] /\
  max (state (macrotask acts w)) = max (state w).
Proof.
  intros Hd Hs Hj. unfold macrotask. cbv zeta.
  destruct (acts_safe acts w Hd Hs) as [Hs1 [Hr1 Hm1]]; [now rewrite Hj|].
  set (w1 := fold_left (fun w a => act a w) acts w) in *.
  destruct (drain_safe (2 * length (jobs w1)) w1 Hs1) as [Hs2 [Hm2 Hend]].
  split; [exact Hs2|]. split; [|congruence].
  apply Hend. rewrite Hr1. cbn [length].
  pose proof (filter_length_le isFinally (jobs w1)). lia.
Qed.

Lemma runScript_safe (script : list (list action)) (w : world) :
  forallb (forallb direct) script = true -> safe w -> jobs w = [] ->
  safe (runScript script w) /\ jobs (runScript script w) = [] /\
  max (state (runScript script w)) = max (state w).
Proof.
  unfold runScript. revert w.
  induction script as [|acts script IH]; intros w Hd Hs Hj; cbn [fold_left].
  - auto.
  - cbn [forallb] in Hd. apply andb_true_iff in Hd as [Ha Hd].
    destruct (macrotask_safe acts w Ha Hs Hj) as [Hs1 [Hj1 Hm1]].
    destruct (IH _ Hd Hs1 Hj1) as [Hs2 [Hj2 Hm2]].
    split; [exact Hs2|]. split; [exact Hj2 | congruence].
Qed.

(** X16. When every [run] is called directly from the program's synchronous
    code, the limit holds at every moment: after any number of complete
    turns of the event loop, any further calls and settlements, and any
    number of promise jobs, the bodies in flight are at most [count], and
    [count] is at most [max], which is at least 1. Every complete turn
    ends with the promise-job queue empty. *)
Theorem semaphore_bound_under_direct_calls (m : Z) (script : list (list action))
    (acts : list action) (fuel : nat) :
  forallb (forallb direct) script = true -> forallb direct acts = true ->
  jobs (runScript script (init (new m))) = [] /\
  (Z.of_nat (length (inBody
      (drain fuel (fold_left (fun w a => act a w) acts (runScript script (init (new m)))))))
   <= count (state
      (drain fuel (fold_left (fun w a => act a w) acts (runScript script (init (new m))))))
   <= max (new m))%Z /\
  (1 <= max (new m))%Z.
Proof.
  intros Hscript Hacts.
  destruct (runScript_safe script (init (new m)) Hscript (safe_init m) eq_refl)
    as [Hs1 [Hj1 Hm1]].
  set (w1 := runScript script (init (new m))) in *.
  destruct (acts_safe acts w1 Hacts Hs1) as [Hs2 [_ Hm2]]; [now rewrite Hj1|].
  set (w2 := fold_left (fun w a => act a w) acts w1) in *.
  destruct (drain_safe fuel w2 Hs2) as [[_ [Hin Hc]] [Hm3 _]].
  split; [exact Hj1|]. split; [|apply new_max].
  cbn [init state] in Hm1. rewrite <- Hm1, <- Hm2, <- Hm3. lia.
Qed.

End SemaphoreBound.

Lemma semaphore_bound_under_direct_calls_witness :
  let script :=
    [ [Semaphore.Call 0; Semaphore.Call 1; Semaphore.Call 2]; [Semaphore.Settle 0] ] in
  let acts := [Semaphore.Settle 1; Semaphore.Call 3] in
  let w := Semaphore.drain 1
             (fold_left (fun w a => Semaphore.act a w) acts
                (Semaphore.runScript script (Semaphore.init (Semaphore.new 2)))) in
  Semaphore.jobs (Semaphore.runScript script (Semaphore.init (Semaphore.new 2))) = [] /\
  (Z.of_nat (length (Semaphore.inBody w)) <= Semaphore.count (Semaphore.state w)
   <= Semaphore.max (Semaphore.new 2))%Z /\
  (1 <= Semaphore.max (Semaphore.new 2))%Z.
Proof.
  apply (semaphore_bound_under_direct_calls 2
           [ [Semaphore.Call 0; Semaphore.Call 1; Semaphore.Call 2]; [Semaphore.Settle 0] ]
           [Semaphore.Settle 1; Semaphore.Call 3] 1); reflexivity.
Defined.

(** ** [composeMdxBody]: the inline images *)

Section ComposerFacts.
Import Composer.

Lemma dropSpaces_keeps (pre post r : jsstring) (c : unit16) :
  Linker.isSpace c = false ->
  exists pre', Linker.dropSpaces (pre ++ (c :: r) ++ post) = pre' ++ (c :: r) ++ post.
Proof.
  intros Hc. induction pre as [|x pre IH].
  - exists []. cbn [app Linker.dropSpaces]. now rewrite Hc.
  - cbn [app Linker.dropSpaces]. destruct (Linker.isSpace x).
    + exact IH.
    + now exists (x :: pre).
Qed.

(** [trim] keeps every occurrence of a text that neither starts nor ends
    with white space. *)
Lemma trim_keeps (s ref r r' : jsstring) (c d : unit16) :
  ref = c :: r -> ref = r' ++ [d] ->
  Linker.isSpace c = false -> Linker.isSpace d = false ->
  includes s ref = true -> includes (Linker.trim s) ref = true.
Proof.
  intros Hc Hd Hsc Hsd Hin. apply includes_iff in Hin as [pre [post ->]].
  apply includes_iff. unfold Linker.trim.
  rewrite Hc. destruct (dropSpaces_keeps pre post r c Hsc) as [pre' ->]. rewrite <- Hc.
  assert (Hrev : rev (pre' ++ ref ++ post) = rev post ++ (d :: rev r') ++ rev pre').
  { rewrite !rev_app_distr, Hd, rev_app_distr. cbn [rev app].
    now rewrite <- app_assoc. }
  rewrite Hrev.
  destruct (dropSpaces_keeps (rev post) (rev pre') (rev r') d Hsd) as [post' ->].
  exists pre', (rev post').
  rewrite !rev_app_distr. cbn [rev]. rewrite !rev_involutive.
  rewrite <- Hd. now rewrite <- app_assoc.
Qed.

Lemma imageTarget_ends (slug : jsstring) (k : nat) :
  exists r r',
    imageTarget slug k = 93%N :: r /\ imageTarget slug k = r' ++ [41%N].
Proof.
  eexists. exists (js "](/images/" ++ slug ++ js "/img"
                   ++ Linker.decimal (Z.of_nat k) ++ js ".webp").
  split; [reflexivity|]. unfold imageTarget. now rewrite <- !app_assoc.
Qed.

Lemma imageLine_includes (alt slug : jsstring) (k : nat) :
  includes (imageLine alt slug k) (imageTarget slug k) = true.
Proof.
  apply includes_iff. exists (nl ++ js "![" ++ alt), nl2.
  unfold imageLine. now rewrite <- !app_assoc.
Qed.

(** Every prompt pushed so far has its image line in [md]. *)
Lemma push_image (slug md line prompt : jsstring) (prompts : list jsstring)
    (alt : jsstring) :
  (forall k, 1 <= k <= length prompts -> includes md (imageTarget slug k) = true) ->
  forall k, 1 <= k <= length (prompts ++ [prompt]) ->
    includes ((md ++ line) ++ imageLine alt slug (length (prompts ++ [prompt])))
             (imageTarget slug k) = true.
Proof.
  intros Hinv k Hk. rewrite length_app in *. cbn [length] in *.
  destruct (Nat.eq_dec k (length prompts + 1)) as [-> | Hne].
  - apply includes_app_r. apply imageLine_includes.
  - apply includes_app_l, includes_app_l. apply Hinv. lia.
Qed.

Lemma sectionStep_spec (slug : jsstring) (st : jsstring * list jsstring) (sec : Sec) :
  (forall k, 1 <= k <= length (snd st) -> includes (fst st) (imageTarget slug k) = true) ->
  (forall k, 1 <= k <= length (snd (sectionStep slug st sec)) ->
     includes (fst (sectionStep slug st sec)) (imageTarget slug k) = true) /\
  length (snd (sectionStep slug st sec))
  = length (snd st) + (if suggestImage sec then 1 else 0).
Proof.
  destruct st as [md prompts]. cbn [fst snd]. intros Hinv. unfold sectionStep.
  set (md1 := md ++ nl2 ++ js "## " ++ title sec ++ nl2).
  assert (H1 : exists line, match points sec with
                            | Some ps => md1 ++ join nl (map (fun p => js "- " ++ p) ps) ++ nl2
                            | None => md1
                            end = md ++ line).
  { unfold md1. destruct (points sec) as [ps|]; eexists; rewrite <- ?app_assoc; reflexivity. }
  destruct H1 as [line ->].
  destruct (suggestImage sec); cbn [fst snd].
  - split; [|rewrite length_app; reflexivity].
    apply push_image. exact Hinv.
  - split; [|lia]. intros k Hk. apply includes_app_l. now apply Hinv.
Qed.

Lemma sections_spec (slug : jsstring) (secs : list Sec) (st : jsstring * list jsstring) :
  (forall k, 1 <= k <= length (snd st) -> includes (fst st) (imageTarget slug k) = true) ->
  (forall k, 1 <= k <= length (snd (fold_left (sectionStep slug) secs st)) ->
     includes (fst (fold_left (sectionStep slug) secs st)) (imageTarget slug k) = true) /\
  length (snd (fold_left (sectionStep slug) secs st))
  = length (snd st) + length (filter suggestImage secs).
Proof.
  revert st. induction secs as [|sec secs IH]; intros st Hinv; cbn [fold_left filter].
  - split; [exact Hinv | cbn [length]; lia].
  - destruct (sectionStep_spec slug st sec Hinv) as [Hinv1 Hlen1].
    destruct (IH _ Hinv1) as [Hinv2 Hlen2]. split; [exact Hinv2|].
    rewrite Hlen2, Hlen1. destruct (suggestImage sec); cbn [length]; lia.
Qed.

Lemma partsFrom_spec (secs : list Sec) (keyword slug : jsstring) (total : nat)
    (parts : list jsstring) (i : nat) (st : jsstring * list jsstring) :
  (forall k, 1 <= k <= length (snd st) -> includes (fst st) (imageTarget slug k) = true) ->
  (forall k, 1 <= k <= length (snd (partsFrom secs keyword slug total parts i st)) ->
     includes (fst (partsFrom secs keyword slug total parts i st))
              (imageTarget slug k) = true) /\
  length (snd (partsFrom secs keyword slug total parts i st))
  = length (snd st)
    + (Nat.min (i + length parts) (total - 1) - Nat.min i (total - 1)).
Proof.
  revert i st. induction parts as [|part rest IH]; intros i st Hinv; cbn [partsFrom].
  - split; [exact Hinv | cbn [length]; lia].
  - destruct st as [md prompts]. cbn [fst snd] in Hinv.
    destruct (i <? total - 1) eqn:E.
    + apply Nat.ltb_lt in E.
      match goal with
      | |- context [partsFrom _ _ _ _ rest (S i) ?st'] =>
          destruct (IH (S i) st') as [Hinv2 Hlen2]
      end.
      { cbn [fst snd]. rewrite app_assoc. apply push_image. exact Hinv. }
      split; [exact Hinv2|]. rewrite Hlen2. cbn [snd length].
      rewrite length_app. cbn [length]. lia.
    + apply Nat.ltb_ge in E.
      match goal with
      | |- context [partsFrom _ _ _ _ rest (S i) ?st'] =>
          destruct (IH (S i) st') as [Hinv2 Hlen2]
      end.
      { cbn [fst snd]. intros k Hk. apply includes_app_l. now apply Hinv. }
      split; [exact Hinv2|]. rewrite Hlen2. cbn [snd length]. lia.
Qed.

Lemma composeRaw_spec (sections : option (list Sec)) (parts : list jsstring)
    (keyword slug : jsstring) :
  (forall k, 1 <= k <= length (snd (composeRaw sections parts keyword slug)) ->
     includes (fst (composeRaw sections parts keyword slug)) (imageTarget slug k) = true) /\
  length (snd (composeRaw sections parts keyword slug))
  = length (filter suggestImage (match sections with Some l => l | None => [] end))
    + (length parts - 1).
Proof.
  unfold composeRaw. cbv zeta.
  set (secs := match sections with Some l => l | None => [] end).
  destruct (sections_spec slug secs ([], [])) as [Hinv1 Hlen1].
  { cbn [snd length]. intros k Hk. lia. }
  destruct (partsFrom_spec secs keyword slug (length parts) parts 0 _ Hinv1)
    as [Hinv2 Hlen2].
  split; [exact Hinv2|]. rewrite Hlen2, Hlen1. cbn [snd length]. lia.
Qed.

Lemma composeMdxBody_raw (sections : option (list Sec)) (parts : list jsstring)
    (keyword slug : jsstring) :
  composeMdxBody sections parts keyword slug
  = (Linker.trim (fst (composeRaw sections parts keyword slug)),
     snd (composeRaw sections parts keyword slug)).
Proof.
  unfold composeMdxBody. now destruct (composeRaw sections parts keyword slug).
Qed.

(** X17. The inline images of a document: [composeMdxBody] returns one prompt
    per section flagged [suggestImage] and one per gap between two parts,
    and for each of them, numbered from 1 in that order, the body it
    returns holds the reference to [img<k>.webp] and [processBatch] writes
    a file of that name. *)
Theorem composed_images_are_referenced (sections : option (list Sec))
    (parts : list jsstring) (keyword slug : jsstring) :
  length (snd (composeMdxBody sections parts keyword slug))
  = length (filter suggestImage (match sections with Some l => l | None => [] end))
    + (length parts - 1) /\
  length (inlineImageFiles (snd (composeMdxBody sections parts keyword slug)))
  = length (snd (composeMdxBody sections parts keyword slug)) /\
  forall k,
    1 <= k <= length (snd (composeMdxBody sections parts keyword slug)) ->
    In (js "img" ++ Linker.decimal (Z.of_nat k) ++ js ".webp")
       (inlineImageFiles (snd (composeMdxBody sections parts keyword slug))) /\
    includes (fst (composeMdxBody sections parts keyword slug))
      (js "](/images/" ++ slug ++ js "/img" ++ Linker.decimal (Z.of_nat k) ++ js ".webp)")
    = true.
Proof.
  rewrite composeMdxBody_raw. cbn [fst snd].
  destruct (composeRaw_spec sections parts keyword slug) as [Hinv Hlen].
  split; [exact Hlen|]. split.
  - unfold inlineImageFiles. now rewrite length_map, length_seq.
  - intros k Hk. split.
    + unfold inlineImageFiles. apply in_map_iff. exists (k - 1). split.
      * replace (k - 1 + 1) with k by lia. reflexivity.
      * apply in_seq. lia.
    + destruct (imageTarget_ends slug k) as [r [r' [Hc Hd]]].
      apply (trim_keeps _ (imageTarget slug k) r r' 93%N 41%N Hc Hd);
        [reflexivity | reflexivity |].
      now apply Hinv.
Qed.

(** X18. With the mock backend's outline and the three parts [processBatch]
    passes, every document gets five inline images, whatever the keyword
    and the parts are. *)
Theorem mock_documents_have_five_images (keyword slug part1 part2 part3 : jsstring) :
  length (snd (composeMdxBody (Some (Mock.generateOutline keyword))
                 [part1; part2; part3] keyword slug)) = 5 /\
  map suggestImage (Mock.generateOutline keyword)
  = [false; true; false; true; false; true].
Proof.
  rewrite composeMdxBody_raw. cbn [fst snd].
  destruct (composeRaw_spec (Some (Mock.generateOutline keyword))
              [part1; part2; part3] keyword slug) as [_ Hlen].
  split; [|reflexivity]. rewrite Hlen. reflexivity.
Qed.

End ComposerFacts.

(** ** [slugifyString]: what the two [replace] calls guarantee *)

Section SlugFacts.
Import Slug.

Lemma noDouble_cons (c : unit16) (t : jsstring) :
  (forall pre post, t <> pre ++ hyphen :: hyphen :: post) ->
  c <> hyphen \/ hd_error t <> Some hyphen ->
  forall pre post, c :: t <> pre ++ hyphen :: hyphen :: post.
Proof.
  intros Ht Hc [|x pre] post E; cbn [app] in E.
  - assert (E1 : c = hyphen) by congruence.
    assert (E2 : t = hyphen :: post) by congruence.
    destruct Hc as [Hc | Hc]; [congruence | apply Hc; now rewrite E2].
  - apply (Ht pre post). congruence.
Qed.

Lemma collapse_spec (s : jsstring) (b : bool) :
  (forall pre post, collapse s b <> pre ++ hyphen :: hyphen :: post) /\
  (b = true -> hd_error (collapse s b) <> Some hyphen).
Proof.
  revert b. induction s as [|c s IH]; intros b; cbn [collapse].
  - split; [intros [|x pre] post; discriminate | discriminate].
  - destruct (N.eqb_spec c hyphen) as [-> | Hc].
    + destruct b.
      * apply IH.
      * split; [|discriminate]. apply noDouble_cons; [apply IH|].
        right. now apply IH.
    + split.
      * apply noDouble_cons; [apply IH | now left].
      * intros _. cbn [hd_error]. congruence.
Qed.

Lemma collapse_keeps (s : jsstring) (b : bool) :
  filter (fun c => negb (c =? hyphen)%N) (collapse s b)
  = filter (fun c => negb (c =? hyphen)%N) s.
Proof.
  revert b. induction s as [|c s IH]; intros b; cbn [collapse filter]; [reflexivity|].
  destruct (c =? hyphen)%N eqn:E; cbn [negb].
  - destruct b; [apply IH|]. cbn [filter]. change (hyphen =? hyphen)%N with true.
    cbn [negb]. apply IH.
  - cbn [filter]. rewrite E. cbn [negb]. f_equal. apply IH.
Qed.

(** A string with no two hyphens in a row is left as it is. *)
Lemma collapse_id (s : jsstring) (b : bool) :
  (forall pre post, s <> pre ++ hyphen :: hyphen :: post) ->
  (b = true -> hd_error s <> Some hyphen) ->
  collapse s b = s.
Proof.
  revert b. induction s as [|c s IH]; intros b Hs Hb; cbn [collapse]; [reflexivity|].
  assert (Hs' : forall pre post, s <> pre ++ hyphen :: hyphen :: post).
  { intros pre post E. apply (Hs (c :: pre) post). cbn [app]. now f_equal. }
  destruct (N.eqb_spec c hyphen) as [-> | Hc].
  - destruct b; [exfalso; now apply Hb|]. f_equal. apply IH; [exact Hs'|].
    intros _ Hhd. destruct s as [|d s]; [discriminate|]. injection Hhd as ->.
    now apply (Hs [] s).
  - f_equal. apply IH; [exact Hs' | discriminate].
Qed.

Lemma stripLeading_cases (s : jsstring) :
  (s = hyphen :: stripLeading s) \/ (stripLeading s = s /\ hd_error s <> Some hyphen).
Proof.
  destruct s as [|c s]; [right; split; [reflexivity | discriminate]|].
  cbn [stripLeading]. destruct (N.eqb_spec c hyphen) as [-> | Hc].
  - now left.
  - right. split; [reflexivity|]. cbn [hd_error]. congruence.
Qed.

(** [stripEnds] takes the string between at most one hyphen at each end. *)
Lemma stripEnds_cases (s : jsstring) :
  exists lead trail,
    s = lead ++ stripEnds s ++ trail /\
    (lead = [] /\ hd_error s <> Some hyphen \/ lead = [hyphen]) /\
    (trail = [] /\ hd_error (rev (stripEnds s)) <> Some hyphen \/ trail = [hyphen]).
Proof.
  unfold stripEnds. set (s1 := stripLeading s).
  assert (H1 : exists lead, s = lead ++ s1 /\
                 (lead = [] /\ hd_error s <> Some hyphen \/ lead = [hyphen])).
  { destruct (stripLeading_cases s) as [Hs | [Hs Hhd]]; fold s1 in Hs.
    - exists [hyphen]. split; [exact Hs | now right].
    - exists []. split; [now rewrite Hs | now left]. }
  destruct H1 as [lead [Hs Hlead]].
  assert (H2 : exists trail, s1 = rev (stripLeading (rev s1)) ++ trail /\
                 (trail = [] /\ hd_error (rev (rev (stripLeading (rev s1)))) <> Some hyphen
                  \/ trail = [hyphen])).
  { destruct (stripLeading_cases (rev s1)) as [Hr | [Hr Hhd]].
    - exists [hyphen]. split; [|now right].
      rewrite <- (rev_involutive s1) at 1. rewrite Hr at 1. reflexivity.
    - exists []. split; [now rewrite Hr, rev_involutive, app_nil_r|].
      left. split; [reflexivity|]. now rewrite Hr, rev_involutive. }
  destruct H2 as [trail [Hs1 Htrail]].
  exists lead, trail. split; [|split; assumption].
  rewrite Hs at 1. now rewrite Hs1 at 1.
Qed.

Lemma noDouble_middle (a t b : jsstring) :
  (forall pre post, a ++ t ++ b <> pre ++ hyphen :: hyphen :: post) ->
  forall pre post, t <> pre ++ hyphen :: hyphen :: post.
Proof.
  intros H pre post ->. apply (H (a ++ pre) (post ++ b)).
  rewrite <- !app_assoc. reflexivity.
Qed.

Lemma hd_error_rev_last {A : Type} (l : list A) (x : A) :
  hd_error (rev (l ++ [x])) = Some x.
Proof. now rewrite rev_app_distr. Qed.

(** X19. The result of the two [replace] calls, whatever [slugify] returned:
    no two hyphens in a row, no hyphen at the start or at the end; only
    hyphens were removed; and a string of that shape is left unchanged. *)
Theorem slugifyString_tidy (slugify : jsstring -> jsstring) (input : jsstring) :
  (forall pre post,
      slugifyString slugify input <> pre ++ js "--" ++ post) /\
  (forall rest, slugifyString slugify input <> js "-" ++ rest) /\
  (forall rest, slugifyString slugify input <> rest ++ js "-") /\
  filter (fun c => negb (c =? hyphen)%N) (slugifyString slugify input)
  = filter (fun c => negb (c =? hyphen)%N) (slugify input) /\
  tidy (slugifyString slugify input) = slugifyString slugify input.
Proof.
  unfold slugifyString, tidy. set (u := collapse (slugify input) false).
  destruct (collapse_spec (slugify input) false) as [Hu _]. fold u in Hu.
  destruct (stripEnds_cases u) as [lead [trail [Hcut [Hlead Htrail]]]].
  set (t := stripEnds u) in *.
  assert (Hdouble : forall pre post, t <> pre ++ hyphen :: hyphen :: post).
  { apply (noDouble_middle lead t trail). now rewrite <- Hcut. }
  assert (Hstart : forall rest, t <> hyphen :: rest).
  { intros rest Ht. destruct Hlead as [[-> Hhd] | ->].
    - rewrite Hcut, Ht in Hhd. now apply Hhd.
    - apply (Hu [] (rest ++ trail)). rewrite Hcut, Ht. reflexivity. }
  assert (Hend : forall rest, t <> rest ++ [hyphen]).
  { intros rest Ht. destruct Htrail as [[-> Hhd] | ->].
    - rewrite Ht, hd_error_rev_last in Hhd. now apply Hhd.
    - apply (Hu (lead ++ rest) []). rewrite Hcut, Ht. now rewrite <- !app_assoc. }
  split; [exact Hdouble|]. split; [exact Hstart|]. split; [exact Hend|]. split.
  - rewrite <- (collapse_keeps (slugify input) false). fold u.
    transitivity (filter (fun c => negb (c =? hyphen)%N) (lead ++ t ++ trail));
      [|now rewrite <- Hcut].
    rewrite !filter_app.
    destruct Hlead as [[-> _] | ->]; destruct Htrail as [[-> _] | ->];
      cbn [filter app]; change (hyphen =? hyphen)%N with true; cbn [negb app];
      now rewrite ?app_nil_r.
  - rewrite collapse_id; [|exact Hdouble | discriminate].
    unfold stripEnds.
    assert (H1 : stripLeading t = t).
    { destruct (stripLeading_cases t) as [E | [E _]]; [|exact E].
      now destruct (Hstart _ E). }
    rewrite H1.
    assert (H2 : stripLeading (rev t) = rev t).
    { destruct (stripLeading_cases (rev t)) as [E | [E _]]; [|exact E].
      exfalso. apply (Hend (rev (stripLeading (rev t)))).
      rewrite <- (rev_involutive t) at 1. rewrite E at 1. reflexivity. }
    rewrite H2. apply rev_involutive.
Qed.

End SlugFacts.

(** ** [_completeJson]: which part of the reply is parsed *)

Section JsonReplyFacts.
Import JsonReply.

Lemma occursAt_unit_In (hay : jsstring) (c : unit16) (k : Z) :
  occursAt hay [c] k ->
  exists p q, hay = p ++ c :: q /\ Z.of_nat (length p) = k.
Proof.
  intros H. apply occursAt_split in H as [p [q [H Hk]]]. now exists p, q.
Qed.

Lemma indexOf_unit_absent (hay : jsstring) (c : unit16) :
  ~ In c hay -> indexOf hay [c] 0 = (-1)%Z.
Proof.
  intros Hc. destruct (Z.eq_dec (indexOf hay [c] 0) (-1)) as [E | E]; [exact E|].
  exfalso. destruct (indexOf_found hay [c] 0 _ eq_refl E) as [_ [Hocc _]].
  apply occursAt_unit_In in Hocc as [p [q [-> _]]].
  apply Hc, in_or_app. right. now left.
Qed.

Lemma indexOf_unit_first (pre rest : jsstring) (c : unit16) :
  ~ In c pre -> indexOf (pre ++ c :: rest) [c] 0 = Z.of_nat (length pre).
Proof.
  intros Hc. set (hay := pre ++ c :: rest).
  assert (Hhere : occursAt hay [c] (Z.of_nat (length pre))).
  { apply occursAt_split. now exists pre, rest. }
  destruct (Z.eq_dec (indexOf hay [c] 0) (-1)) as [E | E].
  { exfalso. apply (indexOf_none hay [c] 0 E (Z.of_nat (length pre))); [lia | exact Hhere]. }
  destruct (indexOf_found hay [c] 0 _ eq_refl E) as [_ [Hocc Hmin]].
  destruct (Z.lt_trichotomy (indexOf hay [c] 0) (Z.of_nat (length pre)))
    as [Hlt | [Heq | Hgt]]; [|exact Heq|].
  - exfalso. apply occursAt_unit_In in Hocc as [p [q [Hpq Hk]]].
    unfold hay in Hpq. symmetry in Hpq.
    destruct (app_eq_app_le p (c :: q) pre (c :: rest) Hpq) as [m [Hm Hq]]; [lia|].
    destruct m as [|x m].
    + rewrite app_nil_r in Hm. subst p. lia.
    + cbn [app] in Hq. injection Hq as <- _. apply Hc. rewrite Hm.
      apply in_or_app. right. now left.
  - exfalso. apply (Hmin (Z.of_nat (length pre))); [lia | exact Hhere].
Qed.

Lemma searchLast_absent (hay : jsstring) (c : unit16) (pos : nat) :
  ~ In c hay -> searchLast [c] hay pos = (-1)%Z.
Proof.
  revert pos. induction hay as [|x hay IH]; intros pos Hc; cbn [searchLast isPrefix];
    [reflexivity|].
  rewrite IH by (intros H; apply Hc; now right). rewrite Z.eqb_refl.
  destruct (N.eqb_spec c x) as [-> | _]; [|reflexivity].
  exfalso. apply Hc. now left.
Qed.

Lemma searchLast_last (pre post : jsstring) (c : unit16) (pos : nat) :
  ~ In c post ->
  searchLast [c] (pre ++ c :: post) pos = Z.of_nat (pos + length pre).
Proof.
  intros Hc. revert pos. induction pre as [|x pre IH]; intros pos;
    cbn [app searchLast isPrefix length].
  - rewrite searchLast_absent by exact Hc. rewrite Z.eqb_refl.
    rewrite N.eqb_refl. cbn [andb]. f_equal. lia.
  - rewrite IH.
    destruct (Z.of_nat (S pos + length pre) =? -1)%Z eqn:E;
      [apply Z.eqb_eq in E; lia|]. f_equal. lia.
Qed.

(** A closing unit that does not occur after position [length a] is not
    found beyond it. *)
Lemma searchLast_below (a b : jsstring) (c : unit16) (pos : nat) :
  ~ In c b ->
  (searchLast [c] (a ++ b) pos < Z.of_nat (pos + length a))%Z.
Proof.
  intros Hc. revert pos. induction a as [|x a IH]; intros pos; cbn [app length].
  - rewrite searchLast_absent by exact Hc. lia.
  - cbn [searchLast]. specialize (IH (S pos)).
    destruct (searchLast [c] (a ++ b) (S pos) =? -1)%Z; [|lia].
    destruct (isPrefix [c] (x :: a ++ b)); lia.
Qed.

Lemma closing_last (text pre mid post : jsstring) (close : unit16) :
  text = pre ++ mid ++ close :: post ->
  close = 93%N \/ close = 125%N -> ~ In 93%N post -> ~ In 125%N post ->
  Z.max (lastIndexOf text (js "]")) (lastIndexOf text (js "}"))
  = Z.of_nat (length (pre ++ mid)).
Proof.
  intros -> Hclose H93 H125. unfold lastIndexOf.
  change (js "]") with [93%N]. change (js "}") with [125%N].
  assert (E : pre ++ mid ++ close :: post = (pre ++ mid) ++ close :: post)
    by now rewrite app_assoc.
  rewrite E. clear E.
  pose proof (searchLast_last (pre ++ mid) post) as HL.
  pose proof (searchLast_below (pre ++ mid)) as HB.
  unfold unit16, jsstring in *.
  destruct Hclose as [-> | ->].
  - rewrite (HL 93%N 0 H93).
    assert (H : ~ In 125%N (93%N :: post)) by (intros [E | E]; [discriminate | auto]).
    specialize (HB (93%N :: post) 125%N 0 H). cbn [Nat.add] in *. lia.
  - rewrite (HL 125%N 0 H125).
    assert (H : ~ In 93%N (125%N :: post)) by (intros [E | E]; [discriminate | auto]).
    specialize (HB (125%N :: post) 93%N 0 H). cbn [Nat.add] in *. lia.
Qed.

Lemma slice_middle {A : Type} (pre mid post : list A) :
  slice (pre ++ mid ++ post) (Z.of_nat (length pre)) (Z.of_nat (length (pre ++ mid)))
  = mid.
Proof.
  rewrite slice_between; [| rewrite !length_app; lia | rewrite length_app; lia].
  rewrite Nat2Z.id, skipn_app, skipn_all, Nat.sub_diag. cbn [skipn app].
  replace (Z.to_nat (Z.of_nat (length (pre ++ mid)) - Z.of_nat (length pre)))
    with (length mid) by (rewrite length_app; lia).
  now rewrite firstn_app, firstn_all, Nat.sub_diag, app_nil_r.
Qed.

Lemma jsonBody_from (text pre mid post : jsstring) (close : unit16) :
  text = pre ++ mid ++ close :: post ->
  close = 93%N \/ close = 125%N -> ~ In 93%N post -> ~ In 125%N post ->
  (if (indexOf text (js "[") 0 >=? 0)%Z
   then indexOf text (js "[") 0 else indexOf text (js "{") 0) = Z.of_nat (length pre) ->
  jsonBody text = mid ++ [close].
Proof.
  intros Htext Hclose H93 H125 Hstart. unfold jsonBody. cbv zeta.
  rewrite Hstart, (closing_last text pre mid post close Htext Hclose H93 H125).
  destruct (Z.of_nat (length pre) >=? 0)%Z eqn:E1;
    [|rewrite Z.geb_leb in E1; apply Z.leb_gt in E1; lia].
  destruct (Z.of_nat (length (pre ++ mid)) >=? 0)%Z eqn:E2;
    [|rewrite Z.geb_leb in E2; apply Z.leb_gt in E2; lia].
  cbn [andb]. rewrite Htext.
  replace (pre ++ mid ++ close :: post) with (pre ++ (mid ++ [close]) ++ post)
    by (now rewrite <- !app_assoc).
  replace (Z.of_nat (length (pre ++ mid)) + 1)%Z
    with (Z.of_nat (length (pre ++ mid ++ [close])))
    by (rewrite !length_app; cbn [length]; lia).
  apply slice_middle.
Qed.

(** X20. The text [_completeJson] hands to [JSON.parse]:
    - when the reply holds a ['['], the text from the first ['['] to the
      last [']'] or ['}'], whichever comes later;
    - when it holds no ['['] but a ['{'], the text from the first ['{'] to
      that last closing unit;
    - so of a reply that is an object with an array inside, the part from
      the array's ['['] to the object's ['}'] is parsed, not the object,
      and when [JSON.parse] rejects that part the result is the fallback
      [[]]. *)
Theorem jsonBody_extraction :
  (forall pre mid post close,
      ~ In 91%N pre -> close = 93%N \/ close = 125%N ->
      ~ In 93%N post -> ~ In 125%N post ->
      jsonBody (pre ++ js "[" ++ mid ++ [close] ++ post) = js "[" ++ mid ++ [close]) /\
  (forall pre mid post close,
      ~ In 91%N (pre ++ js "{" ++ mid ++ [close] ++ post) -> ~ In 123%N pre ->
      close = 93%N \/ close = 125%N -> ~ In 93%N post -> ~ In 125%N post ->
      jsonBody (pre ++ js "{" ++ mid ++ [close] ++ post) = js "{" ++ mid ++ [close]) /\
  (forall pre a b c post (Value : Type) (parse : jsstring -> option Value) (fallback : Value),
      ~ In 91%N pre -> ~ In 91%N a -> ~ In 93%N post -> ~ In 125%N post ->
      jsonBody (pre ++ js "{" ++ a ++ js "[" ++ b ++ js "]" ++ c ++ js "}" ++ post)
      = js "[" ++ b ++ js "]" ++ c ++ js "}" /\
      (parse (js "[" ++ b ++ js "]" ++ c ++ js "}") = None ->
       completeJson Value parse fallback
         (pre ++ js "{" ++ a ++ js "[" ++ b ++ js "]" ++ c ++ js "}" ++ post)
       = fallback)).
Proof.
  assert (Bracket : forall pre mid post close,
             ~ In 91%N pre -> close = 93%N \/ close = 125%N ->
             ~ In 93%N post -> ~ In 125%N post ->
             jsonBody (pre ++ js "[" ++ mid ++ [close] ++ post)
             = js "[" ++ mid ++ [close]).
  { intros pre mid post close Hpre Hclose H93 H125.
    assert (Hi : indexOf (pre ++ js "[" ++ mid ++ [close] ++ post) (js "[") 0
                 = Z.of_nat (length pre))
      by exact (indexOf_unit_first pre (mid ++ close :: post) 91%N Hpre).
    apply (jsonBody_from (pre ++ js "[" ++ mid ++ [close] ++ post)
             pre (91%N :: mid) post close); [reflexivity | assumption..|].
    rewrite Hi.
    destruct (Z.of_nat (length pre) >=? 0)%Z eqn:E; [reflexivity|].
    rewrite Z.geb_leb in E. apply Z.leb_gt in E. lia. }
  split; [exact Bracket|]. split.
  - intros pre mid post close Hno Hpre Hclose H93 H125.
    assert (Hi : indexOf (pre ++ js "{" ++ mid ++ [close] ++ post) (js "[") 0 = (-1)%Z)
      by exact (indexOf_unit_absent _ 91%N Hno).
    assert (Hb : indexOf (pre ++ js "{" ++ mid ++ [close] ++ post) (js "{") 0
                 = Z.of_nat (length pre))
      by exact (indexOf_unit_first pre (mid ++ close :: post) 123%N Hpre).
    apply (jsonBody_from (pre ++ js "{" ++ mid ++ [close] ++ post)
             pre (123%N :: mid) post close); [reflexivity | assumption..|].
    rewrite Hi, Hb. reflexivity.
  - intros pre a b c post Value parse fallback Hpre Ha H93 H125.
    assert (Hbody : jsonBody (pre ++ js "{" ++ a ++ js "[" ++ b ++ js "]" ++ c
                                ++ js "}" ++ post)
                    = js "[" ++ b ++ js "]" ++ c ++ js "}").
    { pose proof (Bracket (pre ++ js "{" ++ a) (b ++ js "]" ++ c) post 125%N) as H.
      rewrite <- !app_assoc in H. apply H; auto.
      intros Hin. apply in_app_or in Hin as [Hin | Hin]; [now apply Hpre|].
      cbn [js map list_ascii_of_string app] in Hin. destruct Hin as [E | Hin];
        [discriminate E | now apply Ha]. }
    split; [exact Hbody|]. intros Hparse. unfold completeJson.
    now rewrite Hbody, Hparse.
Qed.

End JsonReplyFacts.

Lemma jsonBody_extraction_example :
  let q := [34%N] in
  JsonReply.jsonBody
    (js "{" ++ q ++ js "title" ++ q ++ js ": " ++ q ++ js "T" ++ q ++ js ", "
       ++ q ++ js "lsi" ++ q ++ js ": [" ++ q ++ js "a" ++ q ++ js "]}")
  = js "[" ++ q ++ js "a" ++ q ++ js "]}".
Proof.
  intros q. destruct jsonBody_extraction as [_ [_ H]].
  exact (proj1 (H [] (q ++ js "title" ++ q ++ js ": " ++ q ++ js "T" ++ q ++ js ", "
                        ++ q ++ js "lsi" ++ q ++ js ": ")
                  (q ++ js "a" ++ q) [] [] unit (fun _ => None) tt
                  ltac:(vm_compute; intuition discriminate)
                  ltac:(vm_compute; intuition discriminate)
                  ltac:(vm_compute; intuition discriminate)
                  ltac:(vm_compute; intuition discriminate))).
Defined.

(** ** The RSS items *)

Section RssFacts.
Import Linker Rss.

(** X21. The filter [(i) => !!i.link] of the RSS endpoint drops nothing: the
    link is built as ["/" + slug + "/"] and is never empty, so every
    loaded module gets an item, and one without a slug gets the link
    ["/undefined/"]. *)
Theorem rss_filter_keeps_every_item (now : Z) (loaded : list Loaded) :
  items now loaded = map (itemOf now) loaded /\
  length (items now loaded) = length loaded /\
  (forall m, field m (js "slug") = VUndefined ->
             link (itemOf now m) = js "/undefined/").
Proof.
  assert (Hall : items now loaded = map (itemOf now) loaded).
  { unfold items. apply forallb_filter_id. apply forallb_forall.
    intros i Hi. apply in_map_iff in Hi as [m [<- _]]. reflexivity. }
  split; [exact Hall|]. split.
  - now rewrite Hall, length_map.
  - intros m Hm. unfold itemOf. cbn [link]. now rewrite Hm.
Qed.

End RssFacts.

(** ** The mock plan *)

Section MockFacts.
Import Planner.

Lemma mock_tasks_length (f : nat -> Cluster) (l : list nat) :
  (forall i, length (keywordsOrEmpty (f i)) = 5) ->
  length (pairsInOrder (map f l)) = 5 * length l.
Proof.
  intros Hf. induction l as [|i l IH]; [reflexivity|].
  cbn [map pairsInOrder flat_map]. fold (pairsInOrder (map f l)).
  rewrite length_app, length_map, Hf, IH. cbn [length]. lia.
Qed.

(** X22. The mock plan, which is also the fallback of [main] when the backend
    returns an empty plan (with 10 clusters): as many clusters as asked
    for, five keywords each, so five tasks per cluster, of which
    [slice(0, maxPosts)] keeps the first [min(maxPosts, 5 * clusters)]. *)
Theorem mock_plan_size (niche : jsstring) (clustersTarget : Z) (maxPosts : nat) :
  length (Mock.generateSitePlan niche clustersTarget) = Z.to_nat clustersTarget /\
  Forall (fun c => exists ks, keywords c = Some ks /\ length ks = 5)
    (Mock.generateSitePlan niche clustersTarget) /\
  length (allTasks (Mock.generateSitePlan niche clustersTarget))
  = 5 * Z.to_nat clustersTarget /\
  length (targetTasks (Mock.generateSitePlan niche clustersTarget) (Z.of_nat maxPosts))
  = Nat.min maxPosts (5 * Z.to_nat clustersTarget).
Proof.
  assert (Hlen : length (allTasks (Mock.generateSitePlan niche clustersTarget))
                 = 5 * Z.to_nat clustersTarget).
  { rewrite allTasks_flat. unfold Mock.generateSitePlan.
    rewrite mock_tasks_length; [now rewrite length_seq | reflexivity]. }
  split; [|split; [|split]].
  - unfold Mock.generateSitePlan. now rewrite length_map, length_seq.
  - unfold Mock.generateSitePlan. apply Forall_forall. intros c Hc.
    apply in_map_iff in Hc as [i [<- _]]. eexists. split; reflexivity.
  - exact Hlen.
  - unfold targetTasks. rewrite slice_prefix by lia.
    rewrite length_firstn, Hlen. lia.
Qed.

End MockFacts.

(** ** The metadata header: one line per field *)

Section HeaderLines.
Import Assembler.

Lemma hexDigit_printable (n : N) : (32 <= hexDigit n)%N.
Proof. unfold hexDigit. destruct (n <? 10)%N; lia. Qed.

Lemma jsonUnit_printable (c x : unit16) : In x (jsonUnit c) -> (32 <= x)%N.
Proof.
  unfold jsonUnit.
  repeat match goal with
         | |- context [if ?b then _ else _] => destruct b eqn:?
         end;
    cbn [In]; intros H;
    repeat match goal with
           | H : _ \/ _ |- _ => destruct H as [H | H]
           end;
    try contradiction; try (subst x; try apply hexDigit_printable; lia).
  subst x. apply N.ltb_ge. assumption.
Qed.

Lemma unicodeEscape_printable (c x : unit16) : In x (unicodeEscape c) -> (32 <= x)%N.
Proof.
  unfold unicodeEscape. cbn [In]. intros H.
  repeat match goal with
         | H : _ \/ _ |- _ => destruct H as [H | H]
         end;
    try contradiction; subst x; try apply hexDigit_printable; lia.
Qed.

Lemma quoteUnits_printable (s : jsstring) (x : unit16) :
  In x (quoteUnits s) -> (32 <= x)%N.
Proof.
  remember (length s) as n eqn:Hn. revert s Hn x.
  induction n as [n IH] using lt_wf_ind. intros s Hn x.
  destruct s as [|c s]; [intros []|]. cbn [quoteUnits].
  assert (Hrest : forall y, In y (quoteUnits s) -> (32 <= y)%N).
  { intros y. apply (IH (length s)); [subst n; cbn [length]; lia | reflexivity]. }
  destruct (isLeading c) eqn:Ec.
  - destruct s as [|d s'].
    + apply unicodeEscape_printable.
    + destruct (isTrailing d) eqn:Ed.
      * intros [<- | [<- | H]].
        -- unfold isLeading in Ec. apply andb_prop in Ec as [Ec _].
           apply N.leb_le in Ec. lia.
        -- unfold isTrailing in Ed. apply andb_prop in Ed as [Ed _].
           apply N.leb_le in Ed. lia.
        -- revert H. apply (IH (length s')); [subst n; cbn [length]; lia | reflexivity].
      * intros H. apply in_app_or in H as [H | H];
          [now apply unicodeEscape_printable in H | now apply Hrest].
  - destruct (isTrailing c).
    + intros H. apply in_app_or in H as [H | H];
        [now apply unicodeEscape_printable in H | now apply Hrest].
    + intros H. apply in_app_or in H as [H | H];
        [now apply jsonUnit_printable in H | now apply Hrest].
Qed.

Lemma jsonString_printable (s : jsstring) (x : unit16) :
  In x (jsonString s) -> (32 <= x)%N.
Proof.
  unfold jsonString. intros H. apply in_app_or in H as [[<- | []] | H]; [lia|].
  apply in_app_or in H as [H | [<- | []]]; [|lia].
  now apply quoteUnits_printable in H.
Qed.

Lemma In_join (sep : jsstring) (parts : list jsstring) (x : unit16) :
  In x (join sep parts) -> In x sep \/ exists p, In p parts /\ In x p.
Proof.
  induction parts as [|p parts IH]; [intros []|].
  destruct parts as [|p2 parts].
  - cbn [join]. intros H. right. exists p. split; [now left | exact H].
  - change (join sep (p :: p2 :: parts)) with (p ++ sep ++ join sep (p2 :: parts)).
    intros H. apply in_app_or in H as [H | H].
    + right. exists p. split; [now left | exact H].
    + apply in_app_or in H as [H | H]; [now left|].
      destruct (IH H) as [Hs | [q [Hq Hx]]]; [now left|].
      right. exists q. split; [now right | exact Hx].
Qed.

Lemma frontmatterLine_one_line (entry : jsstring * fmValue) :
  ~ In LF (fst entry) -> ~ In LF (frontmatterLine entry).
Proof.
  intros Hkey Hin. unfold frontmatterLine in Hin.
  destruct (snd entry) as [s | items].
  - apply in_app_or in Hin as [Hin | Hin]; [now apply Hkey|].
    apply in_app_or in Hin as [Hin | Hin].
    + cbn in Hin. unfold LF in Hin. intuition discriminate.
    + apply jsonString_printable in Hin. unfold LF in Hin. lia.
  - apply in_app_or in Hin as [Hin | Hin]; [now apply Hkey|].
    apply in_app_or in Hin as [Hin | Hin].
    { cbn in Hin. unfold LF in Hin. intuition discriminate. }
    apply in_app_or in Hin as [Hin | Hin].
    + apply In_join in Hin as [Hin | [p [Hp Hin]]].
      * cbn in Hin. unfold LF in Hin. intuition discriminate.
      * apply in_map_iff in Hp as [s [<- _]].
        apply jsonString_printable in Hin. unfold LF in Hin. lia.
    + cbn in Hin. unfold LF in Hin. intuition discriminate.
Qed.

Lemma count_occ_absent (l : jsstring) :
  ~ In LF l -> count_occ N.eq_dec l LF = 0.
Proof. intros H. now apply count_occ_not_In. Qed.

Lemma count_join_lines (lines : list jsstring) :
  (forall l, In l lines -> ~ In LF l) ->
  count_occ N.eq_dec (join nl lines) LF = length lines - 1.
Proof.
  induction lines as [|l lines IH]; intros Hlines; [reflexivity|].
  destruct lines as [|l2 lines].
  - cbn [join length]. apply count_occ_absent. apply Hlines. now left.
  - change (join nl (l :: l2 :: lines)) with (l ++ nl ++ join nl (l2 :: lines)).
    rewrite !count_occ_app.
    assert (IH' := IH (fun x Hx => Hlines x (or_intror Hx))).
    assert (Hl := count_occ_absent l (Hlines l (or_introl eq_refl))).
    assert (Hnl : count_occ N.eq_dec nl LF = 1) by reflexivity.
    cbn [length] in *. unfold unit16, jsstring in *. lia.
Qed.

(** X23. [stringifyFrontmatter] keeps every field on a line of its own,
    whatever the values hold: [JSON.stringify] writes no raw control
    character (a line feed becomes the two units of [\n]), so a field line
    with a key free of line feeds has none, and the header [processBatch]
    writes has exactly nine lines (eight line feeds): the two fences and
    the seven fields. *)
Theorem frontmatter_one_line_per_field :
  (forall s x, In x (jsonString s) -> (32 <= x)%N) /\
  (forall entry, ~ In LF (fst entry) -> ~ In LF (frontmatterLine entry)) /\
  (forall title slug date description keywords image cluster,
      count_occ N.eq_dec
        (stringifyFrontmatter
           (frontmatterOf title slug date description keywords image cluster)) LF = 8).
Proof.
  split; [exact jsonString_printable|]. split; [exact frontmatterLine_one_line|].
  intros title slug date description keywords image cluster.
  unfold stringifyFrontmatter. rewrite !count_occ_app.
  rewrite count_join_lines.
  - reflexivity.
  - intros l Hl. apply in_map_iff in Hl as [entry [<- He]].
    apply frontmatterLine_one_line. unfold frontmatterOf in He. cbn [In] in He.
    repeat match goal with
           | H : _ \/ _ |- _ => destruct H as [H | H]
           end;
      try contradiction; subst entry; cbn; unfold LF; intuition discriminate.
Qed.

End HeaderLines.

(** ** [parseArgs] *)

Section CliFacts.
Import Cli.

Lemma splitUnit_none (sep : unit16) (s cur : jsstring) :
  ~ In sep s -> splitUnit sep s cur = [cur ++ s].
Proof.
  revert cur. induction s as [|c s IH]; intros cur Hs; cbn [splitUnit].
  - now rewrite app_nil_r.
  - destruct (N.eqb_spec c sep) as [-> | _]; [exfalso; apply Hs; now left|].
    rewrite IH by (intros H; apply Hs; now right). now rewrite <- app_assoc.
Qed.

(** An option written without [=] takes the next token as its value when
    that token is not empty and does not start with ["--"]. *)
Lemma option_takes_next (key value : jsstring) (rest : list jsstring) (args : Args) :
  ~ In 61%N key -> isValue value = true ->
  parseTokens ((js "--" ++ key) :: value :: rest) args
  = parseTokens rest (setOption args key value).
Proof.
  intros Hkey Hvalue. cbn [parseTokens]. unfold startsWith at 1.
  change (isPrefix (js "--") (js "--" ++ key)) with true. cbn iota.
  change (skipn 2 (js "--" ++ key)) with key.
  rewrite (splitUnit_none 61%N key [] Hkey). cbn [app nth_error hd].
  unfold isValue in Hvalue. now rewrite Hvalue.
Qed.

(** Otherwise it is set to ["true"]. *)
Lemma option_without_value (key : jsstring) (rest : list jsstring) (args : Args) :
  ~ In 61%N key -> match rest with [] => True | next :: _ => isValue next = false end ->
  parseTokens ((js "--" ++ key) :: rest) args
  = parseTokens rest (setOption args key (js "true")).
Proof.
  intros Hkey Hrest. cbn [parseTokens]. unfold startsWith at 1.
  change (isPrefix (js "--") (js "--" ++ key)) with true. cbn iota.
  change (skipn 2 (js "--" ++ key)) with key.
  rewrite (splitUnit_none 61%N key [] Hkey). cbn [app nth_error hd].
  destruct rest as [|next rest]; [reflexivity|].
  unfold isValue in Hrest. now rewrite Hrest.
Qed.

Lemma positional_pushed (token : jsstring) (rest l : list jsstring)
    (opts : JsMap jsstring) :
  startsWith token (js "--") = false ->
  parseTokens (token :: rest) (mkArgs (inl l) opts)
  = parseTokens rest (mkArgs (inl (l ++ [token])) opts).
Proof. intros H. cbn [parseTokens under options]. now rewrite H. Qed.

(** X24. The generator reads the UI server's command line as the server means
    it, provided the keyword does not start with ["--"] and the three
    numbers are written as non-empty strings that do not start with
    ["--"]: the keyword is the only positional argument, the three numbers
    are the values of their options, [no-deploy] is ["true"], and
    [no-images], [mock] and [clean] are ["true"] exactly when the request
    asks for them. *)
Theorem ui_command_line_is_read_back (node script kw max batch cc : jsstring)
    (images mock clean : bool) :
  startsWith kw (js "--") = false ->
  isValue max = true -> isValue batch = true -> isValue cc = true ->
  exists args,
    parseArgs (node :: script :: uiArgs kw max batch cc images mock clean) = Some args /\
    under args = inl [kw] /\
    mapGet (options args) (js "max-posts") = Some max /\
    mapGet (options args) (js "batch") = Some batch /\
    mapGet (options args) (js "concurrency") = Some cc /\
    mapGet (options args) (js "no-images")
      = (if images then None else Some (js "true")) /\
    mapGet (options args) (js "no-deploy") = Some (js "true") /\
    mapGet (options args) (js "mock") = (if mock then Some (js "true") else None) /\
    mapGet (options args) (js "clean") = (if clean then Some (js "true") else None).
Proof.
  intros Hkw Hmax Hbatch Hcc. unfold parseArgs, uiArgs. cbn [skipn app].
  rewrite (positional_pushed kw _ [] [] Hkw). cbn [app].
  rewrite (option_takes_next (js "max-posts") max) by
    (assumption || (cbn; intuition discriminate)).
  rewrite (option_takes_next (js "batch") batch) by
    (assumption || (cbn; intuition discriminate)).
  rewrite (option_takes_next (js "concurrency") cc) by
    (assumption || (cbn; intuition discriminate)).
  destruct images, mock, clean; cbn [app];
    repeat first
      [ rewrite (option_takes_next (js "mock") (js "true")) by
          (reflexivity || (cbn; intuition discriminate))
      | rewrite (option_takes_next (js "clean") (js "true")) by
          (reflexivity || (cbn; intuition discriminate))
      | rewrite (option_without_value (js "no-images")) by
          (reflexivity || exact I || (cbn; intuition discriminate))
      | rewrite (option_without_value (js "no-deploy")) by
          (reflexivity || exact I || (cbn; intuition discriminate)) ];
    cbn [parseTokens]; eexists; (split; [reflexivity|]);
    repeat split; reflexivity.
Qed.

(** X25. A positional argument written right after an option without [=] is
    taken as that option's value: [create-site.js --mock <niche>] leaves
    no positional argument, so [main] finds no niche. *)
Theorem option_swallows_following_argument (node script key niche : jsstring) :
  ~ In 61%N key -> JS.eqb key (js "_") = false -> JS.eqb key (js "__proto__") = false ->
  isValue niche = true ->
  parseArgs [node; script; js "--" ++ key; niche]
  = Some (mkArgs (inl []) [(key, niche)]).
Proof.
  intros Hkey H1 H2 Hniche. unfold parseArgs. cbn [skipn].
  rewrite (option_takes_next key niche [] _ Hkey Hniche). cbn [parseTokens].
  unfold setOption. now rewrite H1, H2.
Qed.

End CliFacts.

Lemma ui_command_line_is_read_back_witness :
  exists args,
    Cli.parseArgs (js "node" :: js "scripts/create-site.js"
                   :: Cli.uiArgs (js "Organic Gardening") (js "10") (js "10") (js "2")
                        false true false) = Some args /\
    Cli.under args = inl [js "Organic Gardening"] /\
    mapGet (Cli.options args) (js "max-posts") = Some (js "10") /\
    mapGet (Cli.options args) (js "batch") = Some (js "10") /\
    mapGet (Cli.options args) (js "concurrency") = Some (js "2") /\
    mapGet (Cli.options args) (js "no-images") = Some (js "true") /\
    mapGet (Cli.options args) (js "no-deploy") = Some (js "true") /\
    mapGet (Cli.options args) (js "mock") = Some (js "true") /\
    mapGet (Cli.options args) (js "clean") = None.
Proof.
  apply (ui_command_line_is_read_back (js "node") (js "scripts/create-site.js")
           (js "Organic Gardening") (js "10") (js "10") (js "2") false true false);
    reflexivity.
Defined.

Lemma option_swallows_following_argument_witness :
  Cli.parseArgs [js "node"; js "scripts/create-site.js"; js "--" ++ js "mock";
                 js "Organic Gardening"]
  = Some (Cli.mkArgs (inl []) [(js "mock", js "Organic Gardening")]).
Proof.
  apply (option_swallows_following_argument (js "node") (js "scripts/create-site.js")
           (js "mock") (js "Organic Gardening"));
    [cbn; intuition discriminate | reflexivity | reflexivity | reflexivity].
Defined.

(** ** The grouping by cluster is a partition *)

Section GroupPartition.
Import Linker.

Variable A : Type.
Variable key : A -> jsstring.

Lemma eqb_sym (a b : jsstring) : JS.eqb a b = JS.eqb b a.
Proof.
  destruct (JS.eqb a b) eqn:E1; destruct (JS.eqb b a) eqn:E2; try reflexivity.
  - apply eqb_eq in E1. subst b. now rewrite eqb_refl in E2.
  - apply eqb_eq in E2. subst b. now rewrite eqb_refl in E1.
Qed.

Lemma mapSet_setAdd {V : Type} (m : JsMap V) (k : jsstring) (v : V) :
  map fst (mapSet m k v) = setAdd (map fst m) k.
Proof.
  unfold setAdd, setHas. induction m as [|[k0 v0] m IH]; [reflexivity|].
  cbn [mapSet map fst existsb]. rewrite (eqb_sym k k0).
  destruct (JS.eqb k0 k); cbn [orb map fst]; [reflexivity|].
  rewrite IH. now destruct (existsb (JS.eqb k) (map fst m)).
Qed.

Lemma groupBy_keys_from (items : list A) (m : JsMap (list A)) :
  map fst
    (fold_left
       (fun byCluster x =>
          let list := getOrEmpty byCluster (key x) in
          mapSet byCluster (key x) (list ++ [x]))
       items m)
  = fold_left setAdd (map key items) (map fst m).
Proof.
  revert m. induction items as [|x items IH]; intros m; [reflexivity|].
  cbn [fold_left map]. rewrite IH. cbv zeta. now rewrite mapSet_setAdd.
Qed.

(** X26. The grouping loop of both passes loses and invents nothing: the
    clusters are listed once each, in the order of their first item; each
    group is not empty and holds exactly the items of its cluster in
    reading order; and every item is in the group of its cluster. *)
Theorem groupBy_partition (items : list A) :
  map fst (groupBy key items) = newSet (map key items) /\
  NoDup (map fst (groupBy key items)) /\
  (forall c l, In (c, l) (groupBy key items) ->
               l <> [] /\ l = filter (hasKey key c) items) /\
  (forall x, In x items ->
             In (key x, filter (hasKey key (key x)) items) (groupBy key items)).
Proof.
  split; [|split; [|split]].
  - unfold groupBy, newSet. apply (groupBy_keys_from items []).
  - apply groupBy_NoDup.
  - intros c l Hin. split; [|now apply groupBy_entry].
    destruct (groupBy_invariant A key items []) as [_ Hne];
      [constructor | intros ? ? [] |].
    now apply (Hne c l).
  - intros x Hx. now apply groupBy_has_entry.
Qed.

End GroupPartition.

(** ** The semaphore hands a freed slot to the oldest waiter *)

Section SemaphoreHandover.
Import Semaphore.

(** X27. The queue is first in, first out: a call made while the semaphore is
    full parks behind the callers already waiting, and when an operation
    in flight settles, the turn of the event loop ends with the oldest
    waiter in flight in its place, the others still waiting in their
    order; with nobody waiting the slot is given back. *)
Theorem settle_admits_oldest_waiter (w : world) (x c : caller) (q : list caller) :
  jobs w = [] -> existsb (Nat.eqb x) (inBody w) = true ->
  (queue (state w) = c :: q ->
   macrotask [Settle x] w
   = mkWorld (mkSem (max (state w)) (count (state w)) q)
             (filter (fun y => negb (Nat.eqb x y)) (inBody w) ++ [c]) []) /\
  (queue (state w) = [] ->
   macrotask [Settle x] w
   = mkWorld (mkSem (max (state w)) (count (state w) - 1) [])
             (filter (fun y => negb (Nat.eqb x y)) (inBody w)) []) /\
  ((count (state w) >= max (state w))%Z ->
   callRun c w
   = mkWorld (mkSem (max (state w)) (count (state w)) (queue (state w) ++ [c]))
             (inBody w) (jobs w)).
Proof.
  intros Hjobs Hin. split; [|split].
  - intros Hq. unfold macrotask. cbn [fold_left act]. rewrite Hin, Hjobs.
    cbn [app jobs length Nat.mul Nat.add drain state inBody runJob].
    unfold finally. cbn [state jobs inBody]. rewrite Hq.
    cbn [app drain jobs state inBody runJob]. unfold enter.
    cbn [state max count queue inBody jobs]. do 2 f_equal. lia.
  - intros Hq. unfold macrotask. cbn [fold_left act]. rewrite Hin, Hjobs.
    cbn [app jobs length Nat.mul Nat.add drain state inBody runJob].
    unfold finally. cbn [state jobs inBody]. rewrite Hq.
    cbn [drain jobs]. reflexivity.
  - intros Hfull. unfold callRun.
    destruct (count (state w) >=? max (state w))%Z eqn:E; [reflexivity|].
    rewrite Z.geb_leb in E. apply Z.leb_gt in E. lia.
Qed.

End SemaphoreHandover.

Lemma settle_admits_oldest_waiter_witness :
  let w := Semaphore.runScript
             [ [Semaphore.Call 0; Semaphore.Call 1; Semaphore.Call 2] ]
             (Semaphore.init (Semaphore.new 1)) in
  (Semaphore.queue (Semaphore.state w) = [1; 2] ->
   Semaphore.macrotask [Semaphore.Settle 0] w
   = Semaphore.mkWorld
       (Semaphore.mkSem (Semaphore.max (Semaphore.state w))
          (Semaphore.count (Semaphore.state w)) [2])
       (filter (fun y => negb (Nat.eqb 0 y)) (Semaphore.inBody w) ++ [1]) []) /\
  (Semaphore.queue (Semaphore.state w) = [] ->
   Semaphore.macrotask [Semaphore.Settle 0] w
   = Semaphore.mkWorld
       (Semaphore.mkSem (Semaphore.max (Semaphore.state w))
          (Semaphore.count (Semaphore.state w) - 1) [])
       (filter (fun y => negb (Nat.eqb 0 y)) (Semaphore.inBody w)) []) /\
  ((Semaphore.count (Semaphore.state w) >= Semaphore.max (Semaphore.state w))%Z ->
   Semaphore.callRun 1 w
   = Semaphore.mkWorld
       (Semaphore.mkSem (Semaphore.max (Semaphore.state w))
          (Semaphore.count (Semaphore.state w))
          (Semaphore.queue (Semaphore.state w) ++ [1]))
       (Semaphore.inBody w) (Semaphore.jobs w)).
Proof.
  intros w. apply (settle_admits_oldest_waiter w 0 1 [2]); reflexivity.
Defined.

(** ** What part 3 is shown of the earlier parts *)

Section PromptFacts.
Import Assembler Prompt.

(** X28. The client cuts the context once more, to 4000 units, when it writes
    the prompt: of the context [processBatch] builds for part 3, the
    prompt shows the first 4000 units of part 1, a blank line and part 2;
    and when part 1 alone has 4000 units or more, it shows nothing of
    part 2: exactly what the prompt of part 2 showed. *)
Theorem part3_prompt_context (part1 part2 : jsstring) :
  contextLine (continuityContext part1 part2)
  = js "Previously written content (for context, do not repeat): "
    ++ firstn (Z.to_nat 4000) (part1 ++ nl2 ++ part2) /\
  ((4000 <= Z.of_nat (length part1))%Z ->
   contextLine (continuityContext part1 part2) = contextLine part1).
Proof.
  assert (Hctx : continuityContext part1 part2
                 = firstn (Z.to_nat 6000) (part1 ++ nl2 ++ part2)).
  { unfold continuityContext. now rewrite slice_prefix by lia. }
  assert (Hne : nonEmpty (continuityContext part1 part2) = true).
  { rewrite Hctx. destruct part1 as [|c part1]; reflexivity. }
  assert (Hcut : slice (continuityContext part1 part2) 0 4000
                 = firstn (Z.to_nat 4000) (part1 ++ nl2 ++ part2)).
  { rewrite slice_prefix by lia. rewrite Hctx, firstn_firstn. f_equal; lia. }
  split.
  - unfold contextLine. now rewrite Hne, Hcut.
  - intros Hlong. unfold contextLine. rewrite Hne, Hcut.
    assert (H1 : nonEmpty part1 = true).
    { destruct part1; [cbn [length] in Hlong; lia | reflexivity]. }
    rewrite H1. f_equal. rewrite slice_prefix by lia.
    rewrite firstn_app.
    replace (Z.to_nat 4000 - length part1) with 0 by lia.
    cbn [firstn]. now rewrite app_nil_r.
Qed.

End PromptFacts.

Lemma part3_prompt_context_witness :
  Prompt.contextLine
    (Assembler.continuityContext (repeat 97%N (Z.to_nat 4000)) (js "second part"))
  = Prompt.contextLine (repeat 97%N (Z.to_nat 4000)).
Proof.
  apply (part3_prompt_context (repeat 97%N (Z.to_nat 4000)) (js "second part")).
  rewrite repeat_length. lia.
Defined.

(** ** [nthIndexOf] finds the n-th occurrence *)

Section NthOccurrence.
Import Linker Occurrences.

Lemma positions_occursAt (hay needle : jsstring) (j : nat) :
  In j (positions hay needle) <-> occursAt hay needle (Z.of_nat j).
Proof.
  unfold positions, occursAt. rewrite filter_In, in_seq, Nat2Z.id. split.
  - intros [Hj Hp]. split; [lia | exact Hp].
  - intros [Hj Hp]. split; [lia | exact Hp].
Qed.

Lemma positions_sorted (hay needle : jsstring) :
  StronglySorted lt (positions hay needle).
Proof.
  unfold positions. generalize (S (length hay)) as n. generalize 0 as start.
  intros start n. revert start. induction n as [|n IH]; intros start; cbn [seq filter].
  - constructor.
  - assert (Hrest : Forall (lt start)
                      (filter (fun j => isPrefix needle (skipn j hay)) (seq (S start) n))).
    { apply Forall_forall. intros x Hx. apply filter_In in Hx as [Hx _].
      apply in_seq in Hx. lia. }
    destruct (isPrefix needle (skipn start hay)); [constructor; [apply IH | exact Hrest]|].
    apply IH.
Qed.

(** [indexOf] from [from] on answers the first position not below [from]. *)
Lemma indexOf_next (hay needle : jsstring) (from : nat) (before after : list nat) :
  needle <> [] ->
  positions hay needle = before ++ after ->
  (forall b, In b before -> b < from) -> (forall a, In a after -> from <= a) ->
  indexOf hay needle (Z.of_nat from)
  = match after with [] => (-1)%Z | a :: _ => Z.of_nat a end.
Proof.
  intros Hne HP Hbefore Hafter.
  assert (Hocc : forall j, occursAt hay needle (Z.of_nat j) <-> In j (before ++ after)).
  { intros j. rewrite <- HP. symmetry. apply positions_occursAt. }
  destruct (Z.eq_dec (indexOf hay needle (Z.of_nat from)) (-1)) as [E | E].
  - destruct after as [|a after]; [exact E|]. exfalso.
    apply (indexOf_none hay needle _ E (Z.of_nat a)).
    + specialize (Hafter a (or_introl eq_refl)). lia.
    + apply Hocc. apply in_or_app. right. now left.
  - destruct (indexOf_found hay needle _ _ eq_refl E) as [Hlo [Hk Hmin]].
    set (k := indexOf hay needle (Z.of_nat from)) in *.
    pose proof (occursAt_fits _ _ _ Hk) as Hfit.
    assert (0 < length needle) by (destruct needle; [congruence | cbn [length]; lia]).
    assert (Hk0 : (0 <= k)%Z) by (destruct Hk; lia).
    assert (Hfrom : (Z.of_nat from <= k)%Z) by lia.
    assert (Hin : In (Z.to_nat k) (before ++ after)).
    { apply Hocc. now rewrite Z2Nat.id by lia. }
    apply in_app_or in Hin as [Hin | Hin]; [apply Hbefore in Hin; lia|].
    destruct after as [|a after]; [destruct Hin|].
    destruct (Nat.eq_dec a (Z.to_nat k)) as [-> | Hak]; [now rewrite Z2Nat.id by lia|].
    exfalso.
    assert (Hsorted := positions_sorted hay needle). rewrite HP in Hsorted.
    assert (Ha : a < Z.to_nat k).
    { destruct Hin as [Hin | Hin]; [congruence|].
      clear - Hsorted Hin. induction before as [|b before IH].
      - cbn [app] in Hsorted. apply StronglySorted_inv in Hsorted as [_ Hall].
        rewrite Forall_forall in Hall. now apply Hall.
      - cbn [app] in Hsorted. apply StronglySorted_inv in Hsorted as [Hs _]. now apply IH. }
    apply (Hmin (Z.of_nat a)).
    + specialize (Hafter a (or_introl eq_refl)). lia.
    + apply Hocc. apply in_or_app. right. now left.
Qed.

Lemma nthIndexOfFrom_spec (hay needle : jsstring) (k from : nat)
    (before after : list nat) :
  needle <> [] ->
  positions hay needle = before ++ after ->
  (forall b, In b before -> b < from) -> (forall a, In a after -> from <= a) ->
  nthIndexOfFrom hay needle (S k) (Z.of_nat from - 1)
  = match nth_error after k with Some j => Z.of_nat j | None => (-1)%Z end.
Proof.
  intros Hne. revert from before after.
  induction k as [|k IH]; intros from before after HP Hbefore Hafter;
    cbn [nthIndexOfFrom]; replace (Z.of_nat from - 1 + 1)%Z with (Z.of_nat from) by lia;
    rewrite (indexOf_next hay needle from before after Hne HP Hbefore Hafter).
  - destruct after as [|a after]; [reflexivity|]. cbn [nth_error].
    destruct (Z.of_nat a =? -1)%Z eqn:E; [apply Z.eqb_eq in E; lia | reflexivity].
  - destruct after as [|a after]; [reflexivity|]. cbn [nth_error].
    destruct (Z.of_nat a =? -1)%Z eqn:E; [apply Z.eqb_eq in E; lia|].
    replace (Z.of_nat a) with (Z.of_nat (S a) - 1)%Z by lia.
    apply (IH (S a) (before ++ [a]) after).
    + rewrite HP. now rewrite <- app_assoc.
    + intros b Hb. apply in_app_or in Hb as [Hb | [<- | []]]; [|lia].
      specialize (Hbefore b Hb). specialize (Hafter a (or_introl eq_refl)). lia.
    + intros a' Ha'. assert (Hsorted := positions_sorted hay needle).
      rewrite HP in Hsorted. clear - Hsorted Ha'.
      induction before as [|b before IHb].
      * cbn [app] in Hsorted. apply StronglySorted_inv in Hsorted as [_ Hall].
        rewrite Forall_forall in Hall. specialize (Hall a' Ha'). lia.
      * cbn [app] in Hsorted. apply StronglySorted_inv in Hsorted as [Hs _]. now apply IHb.
Qed.

(** X29. For a needle that is not empty, [nthIndexOf(hay, needle, n)] is the
    position of the [n]-th occurrence of the needle in [hay], and [-1] when
    there are fewer than [n] occurrences. *)
Theorem nthIndexOf_is_nth_occurrence (hay needle : jsstring) (n : nat) :
  needle <> [] -> nthIndexOf hay needle n = nthPosition hay needle n.
Proof.
  intros Hne. destruct n as [|k]; [reflexivity|].
  unfold nthIndexOf, nthPosition.
  change (-1)%Z with (Z.of_nat 0 - 1)%Z at 1.
  apply (nthIndexOfFrom_spec hay needle k 0 [] (positions hay needle) Hne eq_refl).
  - intros b [].
  - intros a _. lia.
Qed.

End NthOccurrence.

Lemma nthIndexOf_is_nth_occurrence_witness :
  Linker.nthIndexOf (nl ++ js "## One" ++ nl ++ js "text" ++ nl ++ js "## Two" ++ nl)
    Linker.H2 2
  = Occurrences.nthPosition
      (nl ++ js "## One" ++ nl ++ js "text" ++ nl ++ js "## Two" ++ nl) Linker.H2 2.
Proof.
  apply (nthIndexOf_is_nth_occurrence
           (nl ++ js "## One" ++ nl ++ js "text" ++ nl ++ js "## Two" ++ nl) Linker.H2 2).
  discriminate.
Defined.
